(** * Wonders-frontend: streaming chat ingestion and notification delivery

    A shallow embedding of
      - [src/services/api.ts]                 ([ApiService]: the streaming
        call, the interceptors, the token),
      - [src/hooks/useChat.ts]                ([useChat]),
      - [src/hooks/useAuth.ts]                ([useAuth]),
      - [src/services/notificationService.ts] ([NotificationService]),
      - [src/hooks/useNotifications.ts]       ([useNotifications]),
      - [src/components/ChatInput.tsx]        ([ChatInput]),
    and the properties of these functions.

    Conventions of the embedding.
      - A JavaScript string is a [string]: the sequence of its UTF-8 bytes.
        [TextDecoder.decode(value, {stream: true})] is the identity on the
        concatenated byte stream (well-formed UTF-8 is assumed; a '\n' is a
        single byte that never occurs inside a multi-byte sequence).  What
        JavaScript defines on the characters or on the UTF-16 code units of
        a string ([trim], [>]) is defined here on the UTF-8 form of the same
        characters and code units.
      - A JavaScript [number] that holds an identifier is a [Z].
      - [undefined] and [null] are both [None].
      - React state setters applied with a functional update are applied in
        program order to one state record; an updater that reads a variable
        of the call reads the value it has when the setter is called (the
        state after the last callback of a call is the one React reaches).
      - A response body is a finite script of reads that ends with
        [{done: true}]; a stream that never ends is not described.
      - [console.log]/[console.error] are not observable and are omitted. *)

From Stdlib Require Import String Ascii List ZArith Bool Arith Lia Sorted FinFun.
Import ListNotations.

Local Open Scope string_scope.
Local Open Scope list_scope.

(** ** JavaScript string primitives *)

Module JsString.

(** [s.split(sep)] for a one-character separator: never the empty array. *)
Fixpoint split (sep : ascii) (s : string) : list string :=
  match s with
  | EmptyString => [EmptyString]
  | String c s' =>
      if Ascii.eqb c sep then EmptyString :: split sep s'
      else match split sep s' with
           | [] => [String c EmptyString]
           | seg :: segs => String c seg :: segs
           end
  end.

(** [s.slice(n)] for [0 <= n]. *)
Fixpoint slice (n : nat) (s : string) : string :=
  match n, s with
  | O, _ => s
  | S _, EmptyString => EmptyString
  | S n', String _ s' => slice n' s'
  end.

(** [s.startsWith(p)]. *)
Definition startsWith (s p : string) : bool := String.prefix p s.

(** [arr.join(sep)]; used in statements only. *)
Fixpoint join (sep : string) (l : list string) : string :=
  match l with
  | [] => EmptyString
  | [x] => x
  | x :: rest => (x ++ sep ++ join sep rest)%string
  end.

(** The characters that [s.trim()] removes (WhiteSpace and LineTerminator
    of ECMAScript), by the bytes of their UTF-8 form.  One byte: U+0009 to
    U+000D and U+0020. *)
Definition is_space (c : ascii) : bool :=
  match nat_of_ascii c with
  | 9 | 10 | 11 | 12 | 13 | 32 => true
  | _ => false
  end.

(** Two bytes: U+00A0. *)
Definition is_space2 (c1 c2 : ascii) : bool :=
  ((nat_of_ascii c1 =? 194) && (nat_of_ascii c2 =? 160))%nat.

(** Three bytes: U+1680, U+2000 to U+200A, U+2028, U+2029, U+202F, U+205F,
    U+3000 and U+FEFF. *)
Definition is_space3 (c1 c2 c3 : ascii) : bool :=
  let n1 := nat_of_ascii c1 in
  let n2 := nat_of_ascii c2 in
  let n3 := nat_of_ascii c3 in
  ((n1 =? 225) && (n2 =? 154) && (n3 =? 128)
   || (n1 =? 226) && (n2 =? 128)
      && ((128 <=? n3) && (n3 <=? 138) || (n3 =? 168) || (n3 =? 169) || (n3 =? 175))
   || (n1 =? 226) && (n2 =? 129) && (n3 =? 159)
   || (n1 =? 227) && (n2 =? 128) && (n3 =? 128)
   || (n1 =? 239) && (n2 =? 187) && (n3 =? 191))%nat.

Fixpoint trimStart (s : string) : string :=
  match s with
  | EmptyString => EmptyString
  | String c1 s1 =>
      if is_space c1 then trimStart s1
      else
        match s1 with
        | EmptyString => s
        | String c2 s2 =>
            if is_space2 c1 c2 then trimStart s2
            else
              match s2 with
              | EmptyString => s
              | String c3 s3 => if is_space3 c1 c2 c3 then trimStart s3 else s
              end
        end
  end.

(** Only white space. *)
Definition blank (s : string) : bool :=
  match trimStart s with EmptyString => true | String _ _ => false end.

(** The text is cut where only white space follows. *)
Fixpoint trimEnd (s : string) : string :=
  match s with
  | EmptyString => EmptyString
  | String c s' => if blank s then EmptyString else String c (trimEnd s')
  end.

Definition trim (s : string) : string := trimEnd (trimStart s).

(** The text after one leading white space character, when there is one:
    the step of [trimStart]; used in the proofs only. *)
Definition after_space (s : string) : option string :=
  match s with
  | EmptyString => None
  | String c1 s1 =>
      if is_space c1 then Some s1
      else
        match s1 with
        | EmptyString => None
        | String c2 s2 =>
            if is_space2 c1 c2 then Some s2
            else
              match s2 with
              | EmptyString => None
              | String c3 s3 => if is_space3 c1 c2 c3 then Some s3 else None
              end
        end
  end.

(** Whether a character occurs in a string; used in statements only. *)
Fixpoint contains (sep : ascii) (s : string) : bool :=
  match s with
  | EmptyString => false
  | String c s' => Ascii.eqb c sep || contains sep s'
  end.

(** Truthiness of a string: only the empty string is falsy. *)
Definition truthy (s : string) : bool :=
  match s with EmptyString => false | _ => true end.

(** [xs.pop()] returns the last element, [undefined] on the empty array,
    and removes it from [xs]. *)
Definition pop {A} (xs : list A) : list A * option A :=
  (removelast xs, last (map Some xs) None).

End JsString.

(** ** JSON values and [JSON.parse]

    [JSON.parse] belongs to the runtime, not to the repository.  The
    functions of [api.ts] are embedded over an arbitrary parser (a section
    variable); the decoder below is the instance used to run the pipeline on
    concrete wire text.  A number [JNum m e] stands for [m * 10^e]. *)

Module Json.

#[local] Set Warnings "-register-all".

Inductive json : Type :=
| JNull
| JBool (b : bool)
| JNum (m e : Z)
| JStr (s : string)
| JArr (items : list json)
| JObj (members : list (string * json)).

Definition is_ws (c : ascii) : bool :=
  match nat_of_ascii c with
  | 9 | 10 | 13 | 32 => true
  | _ => false
  end.

Fixpoint skip_ws (s : string) : string :=
  match s with
  | String c s' => if is_ws c then skip_ws s' else s
  | EmptyString => EmptyString
  end.

Definition digit_of (c : ascii) : option Z :=
  let n := nat_of_ascii c in
  if (48 <=? n)%nat && (n <=? 57)%nat then Some (Z.of_nat (n - 48)) else None.

Definition hex_of (c : ascii) : option nat :=
  let n := nat_of_ascii c in
  if (48 <=? n)%nat && (n <=? 57)%nat then Some (n - 48)%nat
  else if (65 <=? n)%nat && (n <=? 70)%nat then Some (n - 55)%nat
  else if (97 <=? n)%nat && (n <=? 102)%nat then Some (n - 87)%nat
  else None.

(** Reads a maximal run of digits: the value so far, the number of digits
    read and the rest. *)
Fixpoint digits (s : string) (acc : Z) (count : nat) : Z * nat * string :=
  match s with
  | String c s' =>
      match digit_of c with
      | Some d => digits s' (10 * acc + d) (S count)
      | None => (acc, count, s)
      end
  | EmptyString => (acc, count, s)
  end.

(** The UTF-8 bytes of a 16-bit code unit (an escape [\uXXXX]). *)
Definition utf8_of_unit (u : nat) : string :=
  if (u <? 128)%nat then String (ascii_of_nat u) EmptyString
  else if (u <? 2048)%nat then
    String (ascii_of_nat (192 + u / 64))
      (String (ascii_of_nat (128 + u mod 64)) EmptyString)
  else
    String (ascii_of_nat (224 + u / 4096))
      (String (ascii_of_nat (128 + (u / 64) mod 64))
         (String (ascii_of_nat (128 + u mod 64)) EmptyString)).

(** The characters of a string literal after its opening quote. *)
Fixpoint string_body (fuel : nat) (s : string) (acc : string)
  : option (string * string) :=
  match fuel with
  | O => None
  | S fuel' =>
      match s with
      | EmptyString => None
      | String c s' =>
          if (nat_of_ascii c =? 34)%nat then Some (acc, s')
          else if (nat_of_ascii c =? 92)%nat then
            match s' with
            | String e s'' =>
                match nat_of_ascii e with
                | 34 | 92 | 47 => string_body fuel' s'' (acc ++ String e EmptyString)%string
                | 98 => string_body fuel' s'' (acc ++ String (ascii_of_nat 8) EmptyString)
                | 102 => string_body fuel' s'' (acc ++ String (ascii_of_nat 12) EmptyString)
                | 110 => string_body fuel' s'' (acc ++ String (ascii_of_nat 10) EmptyString)
                | 114 => string_body fuel' s'' (acc ++ String (ascii_of_nat 13) EmptyString)
                | 116 => string_body fuel' s'' (acc ++ String (ascii_of_nat 9) EmptyString)
                | 117 =>
                    match s'' with
                    | String h1 (String h2 (String h3 (String h4 r))) =>
                        match hex_of h1, hex_of h2, hex_of h3, hex_of h4 with
                        | Some a, Some b, Some c', Some d =>
                            string_body fuel' r
                              (acc ++ utf8_of_unit (((a * 16 + b) * 16 + c') * 16 + d))
                        | _, _, _, _ => None
                        end
                    | _ => None
                    end
                | _ => None
                end
            | EmptyString => None
            end
          else if (nat_of_ascii c <? 32)%nat then None
          else string_body fuel' s' (acc ++ String c EmptyString)
      end
  end.

(** A number literal: an optional minus sign, an integer part (a single
    zero, or digits that do not start with zero), an optional fraction (a
    dot and at least one digit) and an optional exponent (e or E, an
    optional sign and at least one digit). *)
Definition int_part (s : string) : option (Z * string) :=
  match s with
  | String "0" r => Some (0%Z, r)
  | _ =>
      let '(v, n, r) := digits s 0%Z 0 in
      if (n =? 0)%nat then None else Some (v, r)
  end.

Definition frac_part (ip : Z) (s : string) : option (Z * Z * string) :=
  match s with
  | String "." r =>
      let '(m, n, r') := digits r ip 0 in
      if (n =? 0)%nat then None else Some (m, (- Z.of_nat n)%Z, r')
  | _ => Some (ip, 0%Z, s)
  end.

Definition exp_part (s : string) : option (Z * string) :=
  match s with
  | String c r =>
      if Ascii.eqb c "e" || Ascii.eqb c "E" then
        let '(eneg, r1) :=
          match r with
          | String "-" r' => (true, r')
          | String "+" r' => (false, r')
          | _ => (false, r)
          end in
        let '(ev, n, r2) := digits r1 0%Z 0 in
        if (n =? 0)%nat then None
        else Some ((if eneg then - ev else ev)%Z, r2)
      else Some (0%Z, s)
  | EmptyString => Some (0%Z, s)
  end.

Definition number (s : string) : option (json * string) :=
  let '(neg, s1) :=
    match s with
    | String "-" r => (true, r)
    | _ => (false, s)
    end in
  match int_part s1 with
  | None => None
  | Some (ip, s2) =>
      match frac_part ip s2 with
      | None => None
      | Some (mant, fexp, s3) =>
          match exp_part s3 with
          | None => None
          | Some (ex, s4) =>
              Some (JNum (if neg then - mant else mant)%Z (fexp + ex)%Z, s4)
          end
      end
  end.

(** A literal [true], [false] or [null]. *)
Definition keyword (k : string) (v : json) (s : string) : option (json * string) :=
  if String.prefix k s then Some (v, JsString.slice (String.length k) s) else None.

(** Values, the elements of an array after the first and the members of an
    object after the first; [fuel] bounds the number of calls. *)
Fixpoint value (fuel : nat) (s : string) : option (json * string) :=
  match fuel with
  | O => None
  | S fuel' =>
      match skip_ws s with
      | EmptyString => None
      | String c r =>
          match nat_of_ascii c with
          | 110 => keyword "null" JNull (String c r)
          | 116 => keyword "true" (JBool true) (String c r)
          | 102 => keyword "false" (JBool false) (String c r)
          | 34 =>
              match string_body (String.length r) r EmptyString with
              | Some (str, r') => Some (JStr str, r')
              | None => None
              end
          | 91 =>
              match skip_ws r with
              | String "]" r' => Some (JArr [], r')
              | _ =>
                  match value fuel' r with
                  | Some (v, r') => elements fuel' r' [v]
                  | None => None
                  end
              end
          | 123 =>
              match skip_ws r with
              | String "}" r' => Some (JObj [], r')
              | _ =>
                  match member fuel' r with
                  | Some (kv, r') => members fuel' r' [kv]
                  | None => None
                  end
              end
          | _ => number (String c r)
          end
      end
  end

with elements (fuel : nat) (s : string) (acc : list json) : option (json * string) :=
  match fuel with
  | O => None
  | S fuel' =>
      match skip_ws s with
      | String "]" r => Some (JArr (rev acc), r)
      | String "," r =>
          match value fuel' r with
          | Some (v, r') => elements fuel' r' (v :: acc)
          | None => None
          end
      | _ => None
      end
  end

with member (fuel : nat) (s : string) : option ((string * json) * string) :=
  match fuel with
  | O => None
  | S fuel' =>
      match skip_ws s with
      | EmptyString => None
      | String c r =>
          if (nat_of_ascii c =? 34)%nat then
            match string_body (String.length r) r EmptyString with
            | Some (k, r') =>
                match skip_ws r' with
                | String ":" r'' =>
                    match value fuel' r'' with
                    | Some (v, rest) => Some ((k, v), rest)
                    | None => None
                    end
                | _ => None
                end
            | None => None
            end
          else None
      end
  end

with members (fuel : nat) (s : string) (acc : list (string * json))
  : option (json * string) :=
  match fuel with
  | O => None
  | S fuel' =>
      match skip_ws s with
      | String "}" r => Some (JObj (rev acc), r)
      | String "," r =>
          match member fuel' r with
          | Some (kv, r') => members fuel' r' (kv :: acc)
          | None => None
          end
      | _ => None
      end
  end.

(** [JSON.parse(text)]: one value between white space, nothing after it;
    [None] stands for the [SyntaxError]. *)
Definition parse (text : string) : option json :=
  match value (2 * String.length text + 2) text with
  | Some (v, rest) =>
      match skip_ws rest with
      | EmptyString => Some v
      | _ => None
      end
  | None => None
  end.

(** [obj[key]] on a parsed object: the last member of that name wins;
    [None] is [undefined], also on a value that is not an object. *)
Fixpoint lookup (key : string) (ms : list (string * json)) : option json :=
  match ms with
  | [] => None
  | (k, v) :: rest =>
      match lookup key rest with
      | Some v' => Some v'
      | None => if String.eqb k key then Some v else None
      end
  end.

Definition get (key : string) (j : json) : option json :=
  match j with
  | JObj ms => lookup key ms
  | _ => None
  end.

(** JavaScript truthiness of a parsed value. *)
Definition truthy (j : json) : bool :=
  match j with
  | JNull => false
  | JBool b => b
  | JNum m _ => negb (m =? 0)%Z
  | JStr s => JsString.truthy s
  | JArr _ | JObj _ => true
  end.

Definition truthy_opt (o : option json) : bool :=
  match o with Some j => truthy j | None => false end.

Definition as_string (o : option json) : option string :=
  match o with Some (JStr s) => Some s | _ => None end.

(** The integer a number denotes, when it denotes one. *)
Definition as_int (o : option json) : option Z :=
  match o with
  | Some (JNum m e) =>
      if (0 <=? e)%Z then Some (m * 10 ^ e)%Z
      else if (m mod 10 ^ (- e) =? 0)%Z then Some (m / 10 ^ (- e))%Z
      else None
  | _ => None
  end.

End Json.

(** Wire text is written with apostrophes where the wire has double quotes. *)
Definition wire (s : string) : string :=
  (fix go (s : string) : string :=
     match s with
     | EmptyString => EmptyString
     | String c r =>
         String (if (nat_of_ascii c =? 39)%nat then ascii_of_nat 34 else c) (go r)
     end) s.

(** ** [ApiService.sendStreamMessage] (api.ts)

    The function is embedded over the state [S] its callbacks act on.  A
    callback either returns or throws, in both cases with the state it has
    reached.  The transport is the script of what [fetch] and the successive
    [reader.read()] calls resolve to; the end of the script is
    [{done: true}]. *)

Module Api.

Inductive Error : Type :=
| HttpError (status : Z)          (* new Error(`HTTP error! status: ...`) *)
| NoReader                        (* new Error(...): no reader on the response body *)
| Rejection (reason : string).    (* what a rejected promise carries *)

Inductive ReadResult : Type :=
| Value (bytes : string)          (* { done: false, value } *)
| ReadRejected (reason : string).

Inductive Transport : Type :=
| FetchRejected (reason : string)
| Response (ok : bool) (status : Z) (body : option (list ReadResult)).

(** How a call ends: by returning or by throwing. *)
Inductive completion (S : Type) : Type :=
| Normal (s : S)
| Throw (s : S).
Arguments Normal {S} s.
Arguments Throw {S} s.

(** How the loop over the lines of one read ends: it runs to its end, or
    the function returns from inside it. *)
Inductive lines_result (S : Type) : Type :=
| Continue (s : S)
| Return (s : S).
Arguments Continue {S} s.
Arguments Return {S} s.

(** How the read loop ends: [break]/[return], or an exception that reaches
    the outer [catch]. *)
Inductive loop_result (S : Type) : Type :=
| Finished (s : S)
| Raised (e : Error) (s : S).
Arguments Finished {S} s.
Arguments Raised {S} e s.

(** The line feed. *)
Definition nl : ascii := "010"%char.

Definition lf : string := String nl EmptyString.

(** Lines 155-157: the buffer after one more decoded chunk, as the complete
    lines and the carry-over. *)
Definition feed (buffer chunk : string) : list string * string :=
  let buffer := (buffer ++ chunk)%string in
  let lines := JsString.split nl buffer in
  let '(lines, popped) := JsString.pop lines in
  (lines, match popped with
          | Some last => if JsString.truthy last then last else EmptyString
          | None => EmptyString
          end).

Section SendStream.
Context {payload S : Type}.

(** [JSON.parse]; [None] is its [SyntaxError]. *)
Variable JSON_parse : string -> option payload.
(** Whether [data.finished] is truthy; reading the property of [null]
    throws into the same [catch] that a falsy value falls through to. *)
Variable data_finished : payload -> bool.

Variable onChunk : payload -> S -> completion S.
Variable onError : Error -> S -> completion S.
Variable onComplete : S -> completion S.

(** Lines 160-172: the frame parser. *)
Definition parse_frame (line : string) : option payload :=
  if JsString.startsWith line "data: " then JSON_parse (JsString.slice 6 line)
  else None.

(** The body of the [for] loop, lines 160-172. *)
Definition process_line (line : string) (s : S) : lines_result S :=
  if JsString.startsWith line "data: " then
    match JSON_parse (JsString.slice 6 line) with
    | None => Continue s
    | Some data =>
        match onChunk data s with
        | Throw s1 => Continue s1
        | Normal s1 =>
            if data_finished data then
              match onComplete s1 with
              | Normal s2 => Return s2
              | Throw s2 => Continue s2
              end
            else Continue s1
        end
    end
  else Continue s.

Fixpoint process_lines (lines : list string) (s : S) : lines_result S :=
  match lines with
  | [] => Continue s
  | line :: rest =>
      match process_line line s with
      | Continue s' => process_lines rest s'
      | Return s' => Return s'
      end
  end.

(** The [while (true)] loop, lines 148-174. *)
Fixpoint read_loop (reads : list ReadResult) (buffer : string) (s : S)
  : loop_result S :=
  match reads with
  | [] => Finished s
  | ReadRejected reason :: _ => Raised (Rejection reason) s
  | Value bytes :: rest =>
      let '(lines, buffer') := feed buffer bytes in
      match process_lines lines s with
      | Continue s' => read_loop rest buffer' s'
      | Return s' => Finished s'
      end
  end.

(** Lines 125-177.  [Normal]: the promise resolves; [Throw]: it rejects
    (only when [onError] itself throws). *)
Definition sendStreamMessage (t : Transport) (s : S) : completion S :=
  match t with
  | FetchRejected reason => onError (Rejection reason) s
  | Response ok status body =>
      if negb ok then onError (HttpError status) s
      else
        match body with
        | None => onError NoReader s
        | Some reads =>
            match read_loop reads EmptyString s with
            | Finished s' => Normal s'
            | Raised e s' => onError e s'
            end
        end
  end.

End SendStream.

(** *** The decoder alone

    The lines and the carry-over that the successive reads [chunks] give
    when no line ends the loop. *)
Fixpoint feeds (chunks : list string) (buffer : string) : list string * string :=
  match chunks with
  | [] => ([], buffer)
  | chunk :: rest =>
      let '(lines, buffer') := feed buffer chunk in
      let '(more, buffer'') := feeds rest buffer' in
      (lines ++ more, buffer'')
  end.

(** The text of all the reads, and its complete lines: every segment of
    the split but the last. *)
Definition text_of (chunks : list string) : string :=
  fold_right String.append EmptyString chunks.

Definition complete_lines (text : string) : list string :=
  removelast (JsString.split nl text).

Definition carry_over (text : string) : string :=
  last (JsString.split nl text) EmptyString.

(** The values read before the first rejected read, and that rejection. *)
Fixpoint values_before (reads : list ReadResult) : list string :=
  match reads with
  | Value bytes :: rest => bytes :: values_before rest
  | _ => []
  end.

Fixpoint rejection (reads : list ReadResult) : option string :=
  match reads with
  | Value _ :: rest => rejection rest
  | ReadRejected reason :: _ => Some reason
  | [] => None
  end.

(** *** The callbacks a call makes, in order *)

Inductive Event (payload : Type) : Type :=
| EvChunk (data : payload)
| EvError (e : Error)
| EvComplete.
Arguments EvChunk {payload} data.
Arguments EvError {payload} e.
Arguments EvComplete {payload}.

Section Trace.
Context {payload : Type}.
Variable JSON_parse : string -> option payload.
Variable data_finished : payload -> bool.

Definition log (e : Event payload) (tr : list (Event payload))
  : completion (list (Event payload)) := Normal (tr ++ [e]).

(** The sequence of callbacks of a call whose callbacks all return. *)
Definition trace (t : Transport) : list (Event payload) :=
  match sendStreamMessage JSON_parse data_finished
          (fun d => log (EvChunk d)) (fun e => log (EvError e)) (log EvComplete)
          t [] with
  | Normal tr | Throw tr => tr
  end.

(** A callback that records its call and then throws. *)
Definition log_throw (e : Event payload) (tr : list (Event payload))
  : completion (list (Event payload)) := Throw (tr ++ [e]).

(** The sequence of callbacks of a call in which [onChunk], or
    [onComplete], throws each time it is called. *)
Definition trace_throwing (chunk_throws complete_throws : bool) (t : Transport)
  : list (Event payload) :=
  match sendStreamMessage JSON_parse data_finished
          (fun d => (if chunk_throws then log_throw else log) (EvChunk d))
          (fun e => log (EvError e))
          ((if complete_throws then log_throw else log) EvComplete)
          t [] with
  | Normal tr | Throw tr => tr
  end.

(** Whether a line is a frame whose payload ends the stream. *)
Definition finishing (line : string) : bool :=
  match parse_frame JSON_parse line with
  | Some d => data_finished d
  | None => false
  end.

(** The callbacks that a list of lines gives rise to, and whether the
    function returns in it. *)
Fixpoint events_of_lines (lines : list string) : list (Event payload) * bool :=
  match lines with
  | [] => ([], false)
  | line :: rest =>
      match parse_frame JSON_parse line with
      | None => events_of_lines rest
      | Some d =>
          if data_finished d then ([EvChunk d; EvComplete], true)
          else let '(evs, fin) := events_of_lines rest in (EvChunk d :: evs, fin)
      end
  end.

(** The callbacks of a call, written out: those of the complete lines
    of the text read before the first rejected read, then [onError] when
    the call has not returned and a read is rejected. *)
Definition events_of (t : Transport) : list (Event payload) :=
  match t with
  | FetchRejected reason => [EvError (Rejection reason)]
  | Response ok status body =>
      if negb ok then [EvError (HttpError status)]
      else
        match body with
        | None => [EvError NoReader]
        | Some reads =>
            let '(evs, fin) :=
              events_of_lines (complete_lines (text_of (values_before reads))) in
            if fin then evs
            else match rejection reads with
                 | None => evs
                 | Some reason => evs ++ [EvError (Rejection reason)]
                 end
        end
  end.

(** A read is rejected, and no complete line read before it ends the
    stream. *)
Definition read_fails (reads : list ReadResult) : Prop :=
  rejection reads <> None /\
  existsb finishing (complete_lines (text_of (values_before reads))) = false.

(** The three failures of a call.  The transport fails to deliver what is
    read from it: the response itself ([fetch] is rejected), or a chunk of
    the body of an OK response. *)
Definition status_not_ok (t : Transport) : Prop :=
  match t with
  | Response ok _ _ => ok = false
  | FetchRejected _ => False
  end.

Definition body_missing (t : Transport) : Prop :=
  match t with
  | Response _ _ body => body = None
  | FetchRejected _ => False
  end.

Definition transport_read_fails (t : Transport) : Prop :=
  match t with
  | FetchRejected _ => True
  | Response ok _ body => ok = true /\ exists reads, body = Some reads /\ read_fails reads
  end.

Definition is_chunk (e : Event payload) : bool :=
  match e with EvChunk _ => true | _ => false end.
Definition is_error (e : Event payload) : bool :=
  match e with EvError _ => true | _ => false end.
Definition is_complete (e : Event payload) : bool :=
  match e with EvComplete => true | _ => false end.

Definition count (p : Event payload -> bool) (tr : list (Event payload)) : nat :=
  length (filter p tr).
End Trace.

(** Callbacks that always return, as functions on the state, and their
    effect along a sequence of calls. *)
Section Replay.
Context {payload S : Type}.
Variable hChunk : payload -> S -> S.
Variable hError : Error -> S -> S.
Variable hComplete : S -> S.

Definition handle (s : S) (ev : Event payload) : S :=
  match ev with
  | EvChunk d => hChunk d s
  | EvError e => hError e s
  | EvComplete => hComplete s
  end.

Definition replay (evs : list (Event payload)) (s : S) : S := fold_left handle evs s.
End Replay.

End Api.

(** ** [useChat] (hooks/useChat.ts): the streaming send *)

Module Chat.

Import Api.

Inductive MessageRole : Type := USER | ASSISTANT | SYSTEM.

(** [interface ChatMessage] (types). *)
Module ChatMessage.
Record t : Type := mk {
  id : Z;
  role : MessageRole;
  content : string;
  conversation_id : option string;
  created_at : string
}.
End ChatMessage.

(** [interface StreamChunk] (types). *)
Module StreamChunk.
Record t : Type := mk {
  content : option string;
  full_content : option string;
  finished : bool;
  error : option string;
  conversation_id : option string;
  user_message_id : option Z;
  assistant_message_id : option Z
}.
End StreamChunk.

(** Truthiness of an optional string and of an optional number. *)
Definition truthy_str (o : option string) : bool :=
  match o with Some s => JsString.truthy s | None => false end.
Definition truthy_num (o : option Z) : bool :=
  match o with Some n => negb (n =? 0)%Z | None => false end.

(** [x || undefined]. *)
Definition or_undefined (o : option string) : option string :=
  if truthy_str o then o else None.

Inductive Toast : Type :=
| SendFailed        (* toast.error of the fixed text, in onError *)
| SendFailedCaught. (* toast.error(error.message || the fixed text), in catch *)

(** The state of the hook; [loadConversations()] is counted. *)
Record State : Type := mkState {
  messages : list ChatMessage.t;
  currentConversation : option string;
  isLoading : bool;
  streamingMessageRef : option Z;
  loadConversations_calls : nat;
  toasts : list Toast
}.

Definition setMessages (f : list ChatMessage.t -> list ChatMessage.t) (st : State) : State :=
  mkState (f (messages st)) (currentConversation st) (isLoading st)
    (streamingMessageRef st) (loadConversations_calls st) (toasts st).
Definition setCurrentConversation (c : option string) (st : State) : State :=
  mkState (messages st) c (isLoading st)
    (streamingMessageRef st) (loadConversations_calls st) (toasts st).
Definition setIsLoading (b : bool) (st : State) : State :=
  mkState (messages st) (currentConversation st) b
    (streamingMessageRef st) (loadConversations_calls st) (toasts st).
Definition setStreamingMessageRef (r : option Z) (st : State) : State :=
  mkState (messages st) (currentConversation st) (isLoading st)
    r (loadConversations_calls st) (toasts st).
Definition loadConversations (st : State) : State :=
  mkState (messages st) (currentConversation st) (isLoading st)
    (streamingMessageRef st) (S (loadConversations_calls st)) (toasts st).
Definition toast_error (t : Toast) (st : State) : State :=
  mkState (messages st) (currentConversation st) (isLoading st)
    (streamingMessageRef st) (loadConversations_calls st) (toasts st ++ [t]).

(** The variables of one call that its callbacks assign, lines 648-651. *)
Record Locals : Type := mkLocals {
  fullContent : string;
  finalConversationId : option string;
  finalUserMessageId : option Z;
  finalAssistantMessageId : option Z
}.

(** The constants of one call that its callbacks read. *)
Record Send : Type := mkSend {
  userMessage : ChatMessage.t;
  tempAssistantId : Z;
  sent_from : option string   (* [currentConversation] of the closure *)
}.

Definition Store : Type := Locals * State.

Definition with_content (text : string) (msg : ChatMessage.t) : ChatMessage.t :=
  ChatMessage.mk (ChatMessage.id msg) (ChatMessage.role msg) text
    (ChatMessage.conversation_id msg) (ChatMessage.created_at msg).

Definition with_ids (new_id : Z) (conv : option string) (msg : ChatMessage.t)
  : ChatMessage.t :=
  ChatMessage.mk new_id (ChatMessage.role msg) (ChatMessage.content msg)
    conv (ChatMessage.created_at msg).

(** The updater of lines 666-670. *)
Definition patch_content (c : Send) (text : string) (msg : ChatMessage.t)
  : ChatMessage.t :=
  if (ChatMessage.id msg =? tempAssistantId c)%Z then with_content text msg else msg.

(** Lines 660-685. *)
Definition onChunk (c : Send) (chunk : StreamChunk.t) (st : Store) : completion Store :=
  let '(loc, hs) := st in
  let '(full, hs) :=
    match StreamChunk.content chunk with
    | Some text =>
        if JsString.truthy text then
          let full := (fullContent loc ++ text)%string in
          (full, setMessages (map (patch_content c full)) hs)
        else (fullContent loc, hs)
    | None => (fullContent loc, hs)
    end in
  let conv :=
    if truthy_str (StreamChunk.conversation_id chunk)
    then StreamChunk.conversation_id chunk else finalConversationId loc in
  let uid :=
    if truthy_num (StreamChunk.user_message_id chunk)
    then StreamChunk.user_message_id chunk else finalUserMessageId loc in
  let aid :=
    if truthy_num (StreamChunk.assistant_message_id chunk)
    then StreamChunk.assistant_message_id chunk else finalAssistantMessageId loc in
  Normal (mkLocals full conv uid aid, hs).

(** The predicate of lines 692-694. *)
Definition survives (c : Send) (msg : ChatMessage.t) : bool :=
  negb (ChatMessage.id msg =? tempAssistantId c)%Z
  && negb (ChatMessage.id msg =? ChatMessage.id (userMessage c))%Z.

(** Lines 687-695. *)
Definition onError (c : Send) (e : Error) (st : Store) : completion Store :=
  let '(loc, hs) := st in
  Normal (loc, setMessages (filter (survives c)) (toast_error SendFailed hs)).

(** The updater of lines 700-716. *)
Definition reconcile (c : Send) (loc : Locals) (msg : ChatMessage.t) : ChatMessage.t :=
  let conv := finalConversationId loc in
  let as_user :=
    match finalUserMessageId loc with
    | Some n =>
        if (ChatMessage.id msg =? ChatMessage.id (userMessage c))%Z && negb (n =? 0)%Z
        then Some (with_ids n conv msg) else None
    | None => None
    end in
  let as_assistant :=
    match finalAssistantMessageId loc with
    | Some n =>
        if (ChatMessage.id msg =? tempAssistantId c)%Z && negb (n =? 0)%Z
        then Some (with_ids n conv msg) else None
    | None => None
    end in
  match as_user, as_assistant with
  | Some msg', _ => msg'
  | None, Some msg' => msg'
  | None, None => msg
  end.

(** Lines 697-727. *)
Definition onComplete (c : Send) (st : Store) : completion Store :=
  let '(loc, hs) := st in
  let hs := setMessages (map (reconcile c loc)) hs in
  let hs :=
    if negb (truthy_str (sent_from c)) && truthy_str (finalConversationId loc)
    then loadConversations (setCurrentConversation (finalConversationId loc) hs)
    else hs in
  Normal (loc, setStreamingMessageRef None hs).

(** [xs.slice(0, -2)]. *)
Definition slice_0_minus2 {A} (xs : list A) : list A := firstn (length xs - 2) xs.

(** Lines 625-651: the optimistic inserts.  [now1], [now2] are the two
    readings of [Date.now()], [iso1], [iso2] those of
    [new Date().toISOString()]. *)
Definition optimistic (message : string) (now1 now2 : Z) (iso1 iso2 : string)
    (st : State) : Send * Store :=
  let st := setIsLoading true st in
  let userMessage :=
    ChatMessage.mk now1 USER (JsString.trim message)
      (or_undefined (currentConversation st)) iso1 in
  let current := currentConversation st in
  let st := setMessages (fun prev => prev ++ [userMessage]) st in
  let tempAssistantId := (now2 + 1)%Z in
  let assistantMessage :=
    ChatMessage.mk tempAssistantId ASSISTANT EmptyString
      (or_undefined current) iso2 in
  let st := setMessages (fun prev => prev ++ [assistantMessage]) st in
  let st := setStreamingMessageRef (Some tempAssistantId) st in
  (mkSend userMessage tempAssistantId current,
   (mkLocals EmptyString current None None, st)).

Section Hook.
(** [JSON.parse], typed by the annotation of the [onChunk] callback. *)
Variable JSON_parse : string -> option StreamChunk.t.

(** Lines 618-739. *)
Definition sendStreamMessage (message : string) (now1 now2 : Z)
    (iso1 iso2 : string) (t : Transport) (st : State) : State :=
  if negb (JsString.truthy (JsString.trim message)) then st
  else
    let '(c, store) := optimistic message now1 now2 iso1 iso2 st in
    match Api.sendStreamMessage JSON_parse StreamChunk.finished
            (onChunk c) (onError c) (onComplete c) t store with
    | Normal (_, st') => setIsLoading false st'
    | Throw (_, st') =>
        setIsLoading false
          (setMessages slice_0_minus2 (toast_error SendFailedCaught st'))
    end.
End Hook.

(** The view of a parsed value through [interface StreamChunk]: a member
    that is absent, or that does not have the declared type, is [None].
    The view is that of the callbacks for the payloads the interface
    describes, and for [null] and the values that are not objects, on which
    [onChunk] changes nothing. *)
Definition chunk_of_json (j : Json.json) : StreamChunk.t :=
  StreamChunk.mk
    (Json.as_string (Json.get "content" j))
    (Json.as_string (Json.get "full_content" j))
    (Json.truthy_opt (Json.get "finished" j))
    (Json.as_string (Json.get "error" j))
    (Json.as_string (Json.get "conversation_id" j))
    (Json.as_int (Json.get "user_message_id" j))
    (Json.as_int (Json.get "assistant_message_id" j)).

Definition parse_chunk (text : string) : option StreamChunk.t :=
  option_map chunk_of_json (Json.parse text).

(** The state a callback leaves. *)
Definition chunked (c : Send) (chunk : StreamChunk.t) (st : Store) : Store :=
  match onChunk c chunk st with Normal st' | Throw st' => st' end.

Definition completed (c : Send) (st : Store) : Store :=
  match onComplete c st with Normal st' | Throw st' => st' end.

Definition failed (c : Send) (e : Error) (st : Store) : Store :=
  match onError c e st with Normal st' | Throw st' => st' end.

(** The sequence of [onChunk] calls of a stream that delivers the chunks
    [cs]. *)
Fixpoint run_chunks (c : Send) (cs : list StreamChunk.t) (st : Store) : Store :=
  match cs with
  | [] => st
  | chunk :: rest => run_chunks c rest (chunked c chunk st)
  end.

(** *** Notions used in the statements *)

(** The content fields of a sequence of chunks, concatenated in order. *)
Fixpoint all_content (cs : list StreamChunk.t) : string :=
  match cs with
  | [] => EmptyString
  | chunk :: rest =>
      match StreamChunk.content chunk with
      | Some text => (text ++ all_content rest)%string
      | None => all_content rest
      end
  end.

(** Whether a chunk of [cs] carries content that [onChunk] appends. *)
Definition has_content (cs : list StreamChunk.t) : bool :=
  existsb (fun chunk => truthy_str (StreamChunk.content chunk)) cs.

(** The last element of [xs] that [keep] accepts, [init] when there is
    none. *)
Definition latest {A} (keep : A -> bool) (init : A) (xs : list A) : A :=
  match find keep (rev xs) with
  | Some v => v
  | None => init
  end.

(** A field is present when it is not [undefined]. *)
Definition present {A} (o : option A) : bool :=
  match o with Some _ => true | None => false end.

(** The placeholder ids [now1] and [now2 + 1] of a send are not in use. *)
Definition fresh (now1 now2 : Z) (ms : list ChatMessage.t) : Prop :=
  forall m, In m ms -> ChatMessage.id m <> now1 /\ ChatMessage.id m <> (now2 + 1)%Z.

(** *** Sample data of the statements *)

(** The initial state of the hook. *)
Definition st0 : State := mkState [] None false None 0 [].

(** The wire text of the run: one content chunk, then the final chunk. *)
Definition run_2plus2 : Transport :=
  Response true 200
    (Some [Value (wire "data: {'content':'4','finished':false}" ++ lf ++ lf);
           Value (wire "data: {'finished':true,'conversation_id':'conv-9','user_message_id':101,'assistant_message_id':102}" ++ lf ++ lf)]).

(** The same stream when the final chunk carries no message ids. *)
Definition run_without_ids : Transport :=
  Response true 200
    (Some [Value (wire "data: {'content':'4','finished':false}" ++ lf ++ lf);
           Value (wire "data: {'finished':true,'conversation_id':'conv-9'}" ++ lf ++ lf)]).

(** The chunks of the reduction example. *)
Definition chunks_AB : list StreamChunk.t :=
  [StreamChunk.mk (Some "A") None false None None None None;
   StreamChunk.mk (Some "B") None false None (Some "c1") None None;
   StreamChunk.mk None None true None None (Some 1%Z) (Some 2%Z)].

(** Two chunks that both carry a user message id, the second one zero. *)
Definition chunks_zero_id : list StreamChunk.t :=
  [StreamChunk.mk None None false None None (Some 7%Z) None;
   StreamChunk.mk None None false None None (Some 0%Z) None].

(** The stream of a final chunk that carries nothing but [finished]. *)
Definition run_unresolved : Transport :=
  Response true 200 (Some [Value (wire "data: {'finished':true}" ++ lf ++ lf)]).

(** A stream that ends without a chunk that finishes it. *)
Definition run_cut_short : Transport :=
  Response true 200
    (Some [Value (wire "data: {'content':'4','finished':false}" ++ lf ++ lf)]).

End Chat.

(** ** [NotificationService] (services/notificationService.ts) and
       [useNotifications] (hooks/useNotifications.ts) *)

Module Notification.

Import Api.

Inductive NotificationType : Type :=
| MESSAGE_RECEIVED
| CONVERSATION_UPDATED
| USER_JOINED
| USER_LEFT
| SYSTEM_NOTIFICATION.

Definition NotificationType_eqb (a b : NotificationType) : bool :=
  match a, b with
  | MESSAGE_RECEIVED, MESSAGE_RECEIVED
  | CONVERSATION_UPDATED, CONVERSATION_UPDATED
  | USER_JOINED, USER_JOINED
  | USER_LEFT, USER_LEFT
  | SYSTEM_NOTIFICATION, SYSTEM_NOTIFICATION => true
  | _, _ => false
  end.

(** [interface NotificationEvent]. *)
Record NotificationEvent : Type := mkEvent {
  event_id : string;
  event_type : NotificationType;
  data : Json.json;
  user_id : option string;
  conversation_id : option string;
  timestamp : string
}.






Section Service.
(** The state the listeners act on. *)
Context {S : Type}.

Definition NotificationListener : Type := NotificationEvent -> S -> completion S.

(** The fields of the service that polling reads or writes. *)
Record Service : Type := mkService {
  listeners : list (NotificationType * list NotificationListener);
  globalListeners : list NotificationListener;
  isPolling : bool;
  lastEventId : option string
}.

(** [this.listeners.get(eventType)]. *)
Fixpoint listeners_get (t : NotificationType)
    (m : list (NotificationType * list NotificationListener))
  : option (list NotificationListener) :=
  match m with
  | [] => None
  | (t', ls) :: rest => if NotificationType_eqb t' t then Some ls else listeners_get t rest
  end.

(** [ls.forEach(listener => { try { listener(event) } catch { ... } })]. *)
Fixpoint call_each (ls : list NotificationListener) (event : NotificationEvent) (s : S) : S :=
  match ls with
  | [] => s
  | listener :: rest =>
      match listener event s with
      | Normal s' | Throw s' => call_each rest event s'
      end
  end.

(** Lines 87-108. *)
Definition triggerListeners (svc : Service) (event : NotificationEvent) (s : S) : S :=
  let s :=
    match listeners_get (event_type event) (listeners svc) with
    | Some typeListeners => call_each typeListeners event s
    | None => s
    end in
  call_each (globalListeners svc) event s.






End Service.


(** [xs.slice(-100)]. *)
Definition slice_minus100 {A} (xs : list A) : list A := skipn (length xs - 100) xs.

(** The updater of [handleNotificationEvent], lines 61-71 of
    useNotifications.ts. *)
Definition handleNotificationEvent (event : NotificationEvent)
    (prev : list NotificationEvent) : list NotificationEvent :=
  let exists_ := existsb (fun n => String.eqb (event_id n) (event_id event)) prev in
  if exists_ then prev
  else slice_minus100 (prev ++ [event]).

(** The buffer after the events [events] have been dispatched in order. *)
Definition dispatch_all (events : list NotificationEvent)
    (buffer : list NotificationEvent) : list NotificationEvent :=
  fold_left (fun buf e => handleNotificationEvent e buf) events buffer.

(** *** Notions and sample data of the statements *)

(** The invariant of the buffer. *)
Definition bounded_distinct (buf : list NotificationEvent) : Prop :=
  NoDup (map event_id buf) /\ length buf <= 100.

Fixpoint tally (n : nat) : string :=
  match n with
  | O => EmptyString
  | S k => String "i" (tally k)
  end.
Definition sample_event (n : nat) : NotificationEvent :=
  mkEvent (tally n) SYSTEM_NOTIFICATION Json.JNull None None EmptyString.
Definition sample_events : list NotificationEvent := map sample_event (seq 1 105).
Definition event_with_id (i : string) : NotificationEvent :=
  mkEvent i MESSAGE_RECEIVED Json.JNull None None EmptyString.

End Notification.

(** ** [ChatInput] (components/ChatInput.tsx) and [ChatInterface]: the
       callers of the streaming send *)

Module ChatInput.

(** The state of the component: the text of the input and the flag of the
    input method editor. *)
Record State : Type := mkState {
  message : string;
  isComposing : bool
}.

(** Lines 33-43.  The second component is the argument of the call of
    [onSendMessage], when it is called. *)
Definition handleSendMessage (disabled : bool) (st : State) : State * option string :=
  let trimmedMessage := JsString.trim (message st) in
  if JsString.truthy trimmedMessage && negb disabled
  then (mkState EmptyString (isComposing st), Some trimmedMessage)
  else (st, None).

(** Lines 46-60; [key] is [e.key], [shiftKey] is [e.shiftKey].  The third
    component tells whether [e.preventDefault()] is called. *)
Definition handleKeyDown (key : string) (shiftKey disabled : bool) (st : State)
  : State * option string * bool :=
  if isComposing st then (st, None, false)
  else if String.eqb key "Enter" then
    if shiftKey then (st, None, false)
    else let '(st', sent) := handleSendMessage disabled st in (st', sent, true)
  else (st, None, false).

(** Lines 27-30, 63-69. *)
Definition handleInputChange (value : string) (st : State) : State :=
  mkState value (isComposing st).
Definition handleCompositionStart (st : State) : State := mkState (message st) true.
Definition handleCompositionEnd (st : State) : State := mkState (message st) false.

End ChatInput.

(** ** Subscriptions and life cycle of [NotificationService] *)

Module Subscriptions.

Import Api Notification.

Section Registry.
Context {S : Type}.

(** A listener with the identity of its function object: [indexOf]
    compares references. *)
Record Registered : Type := mkRegistered {
  ref : nat;
  run : @NotificationListener S
}.

(** [listeners] (a [Map], in insertion order) and [globalListeners]. *)
Record Registry : Type := mkRegistry {
  listeners : list (NotificationType * list Registered);
  globalListeners : list Registered
}.

(** [m.get(t)]. *)
Fixpoint get (t : NotificationType) (m : list (NotificationType * list Registered))
  : option (list Registered) :=
  match m with
  | [] => None
  | (t', ls) :: rest => if NotificationType_eqb t' t then Some ls else get t rest
  end.

(** The array of the key [t] after [f], in place. *)
Fixpoint update (t : NotificationType) (f : list Registered -> list Registered)
    (m : list (NotificationType * list Registered))
  : list (NotificationType * list Registered) :=
  match m with
  | [] => []
  | (t', ls) :: rest =>
      if NotificationType_eqb t' t then (t', f ls) :: rest
      else (t', ls) :: update t f rest
  end.

(** [xs.indexOf(l)] followed by [xs.splice(index, 1)] when [index > -1]:
    the first occurrence of the reference is removed. *)
Fixpoint remove_first (r : nat) (xs : list Registered) : list Registered :=
  match xs with
  | [] => []
  | x :: rest => if Nat.eqb (ref x) r then rest else x :: remove_first r rest
  end.

(** Lines 51-56. *)
Definition subscribe (t : NotificationType) (l : Registered) (reg : Registry) : Registry :=
  let m :=
    match get t (listeners reg) with
    | None => listeners reg ++ [(t, [])]
    | Some _ => listeners reg
    end in
  mkRegistry (update t (fun ls => ls ++ [l]) m) (globalListeners reg).

(** The function that [subscribe] returns, lines 58-66. *)
Definition unsubscribe (t : NotificationType) (l : Registered) (reg : Registry) : Registry :=
  match get t (listeners reg) with
  | Some _ => mkRegistry (update t (remove_first (ref l)) (listeners reg)) (globalListeners reg)
  | None => reg
  end.

(** Lines 72-73 and the function returned, lines 76-81. *)
Definition subscribeAll (l : Registered) (reg : Registry) : Registry :=
  mkRegistry (listeners reg) (globalListeners reg ++ [l]).

Definition unsubscribeAll (l : Registered) (reg : Registry) : Registry :=
  mkRegistry (listeners reg) (remove_first (ref l) (globalListeners reg)).

(** The listeners registered for a type, none when the type has no entry. *)
Definition registered_for (t : NotificationType) (reg : Registry) : list Registered :=
  match get t (listeners reg) with
  | Some ls => ls
  | None => []
  end.

(** The service of the polling model with these listeners. *)
Definition service_of (reg : Registry) (polling : bool) (last : option string)
  : @Service S :=
  mkService (map (fun '(t, ls) => (t, map run ls)) (listeners reg))
    (map run (globalListeners reg)) polling last.

(** [triggerListeners] on a registry. *)
Definition trigger (reg : Registry) (event : NotificationEvent) (s : S) : S :=
  triggerListeners (service_of reg false None) event s.

End Registry.

Arguments Registered : clear implicits.
Arguments Registry : clear implicits.

(** A listener that writes its reference in a log and then returns or
    throws; used in statements only. *)
Definition logging (r : nat) (throws : bool) : Registered (list nat) :=
  mkRegistered r
    (fun _ log => if throws then Throw (log ++ [r]) else Normal (log ++ [r])).

(** The registrations of a reference in a list; used in statements only. *)
Definition count_ref {S : Type} (r : nat) (xs : list (Registered S)) : nat :=
  length (filter (fun x => Nat.eqb (ref x) r) xs).

(** Every listener of the list is a logging listener. *)
Definition all_logging (xs : list (Registered (list nat))) : Prop :=
  Forall (fun x => exists throws, x = logging (ref x) throws) xs.

(** *** Timers and the event source *)

(** What the service asks of the runtime, in order. *)
Inductive Effect : Type :=
| PollNow                      (* poll() *)
| SetInterval (handle ms : nat)   (* setInterval(poll, ms) *)
| ClearInterval (handle : nat)
| SetTimeoutStartPolling       (* setTimeout(() => this.startPolling(), 1000) *)
| OpenEventSource (handle : nat)
| CloseEventSource (handle : nat).

(** The fields of the service that the life cycle reads or writes, and the
    runtime: the next handle and the effects so far. *)
Record Life : Type := mkLife {
  pollingInterval : option nat;
  isPolling : bool;
  pollingIntervalMs : nat;
  eventSource : option nat;
  isSSESupported : bool;
  next_handle : nat;
  effects : list Effect
}.

Definition initial (sse_supported : bool) : Life :=
  mkLife None false 5000 None sse_supported 0 [].

Definition emit (e : Effect) (l : Life) : Life :=
  mkLife (pollingInterval l) (isPolling l) (pollingIntervalMs l) (eventSource l)
    (isSSESupported l) (next_handle l) (effects l ++ [e]).

(** Lines 113-147. *)
Definition startPolling (l : Life) : Life :=
  if isPolling l then l
  else
    let h := next_handle l in
    mkLife (Some h) true (pollingIntervalMs l) (eventSource l) (isSSESupported l)
      (S h) (effects l ++ [PollNow; SetInterval h (pollingIntervalMs l)]).

(** Lines 152-159. *)
Definition stopPolling (l : Life) : Life :=
  let l :=
    match pollingInterval l with
    | Some h =>
        mkLife None (isPolling l) (pollingIntervalMs l) (eventSource l)
          (isSSESupported l) (next_handle l) (effects l ++ [ClearInterval h])
    | None => l
    end in
  mkLife (pollingInterval l) false (pollingIntervalMs l) (eventSource l)
    (isSSESupported l) (next_handle l) (effects l).

(** Lines 222-228. *)
Definition stopSSE (l : Life) : Life :=
  match eventSource l with
  | Some h =>
      mkLife (pollingInterval l) (isPolling l) (pollingIntervalMs l) None
        (isSSESupported l) (next_handle l) (effects l ++ [CloseEventSource h])
  | None => l
  end.

(** Lines 164-217.  [token] is [localStorage.getItem('access_token')];
    [constructed] tells whether [new EventSource(url)] returns. *)
Definition startSSE (token : option string) (constructed : bool) (l : Life) : Life * bool :=
  if negb (isSSESupported l) then (startPolling l, false)
  else if Chat.truthy_str token && constructed then
    let h := next_handle l in
    (mkLife (pollingInterval l) (isPolling l) (pollingIntervalMs l) (Some h)
       (isSSESupported l) (S h) (effects l ++ [OpenEventSource h]), true)
  else (startPolling l, false).

(** [eventSource.onerror], lines 204-209, and the timeout it sets. *)
Definition onerror (l : Life) : Life := emit SetTimeoutStartPolling (stopSSE l).
Definition fallback_fires (l : Life) : Life := startPolling l.

(** Lines 246-263. *)
Definition start (l : Life) : Life := startPolling l.
Definition stop (l : Life) : Life := stopSSE (stopPolling l).

(** Lines 268-276. *)
Definition setPollingInterval (intervalMs : nat) (l : Life) : Life :=
  let l :=
    mkLife (pollingInterval l) (isPolling l) intervalMs (eventSource l)
      (isSSESupported l) (next_handle l) (effects l) in
  if isPolling l then startPolling (stopPolling l) else l.

(** The calls a client can make, and the events of the runtime. *)
Inductive Call : Type :=
| CallStart
| CallStop
| CallStartPolling
| CallStopPolling
| CallStartSSE (token : option string) (constructed : bool)
| CallStopSSE
| CallSetPollingInterval (intervalMs : nat)
| EventSourceError
| FallbackFires.

Definition step (l : Life) (c : Call) : Life :=
  match c with
  | CallStart => start l
  | CallStop => stop l
  | CallStartPolling => startPolling l
  | CallStopPolling => stopPolling l
  | CallStartSSE token constructed => fst (startSSE token constructed l)
  | CallStopSSE => stopSSE l
  | CallSetPollingInterval ms => setPollingInterval ms l
  | EventSourceError => onerror l
  | FallbackFires => fallback_fires l
  end.

Definition run_calls (cs : list Call) (l : Life) : Life := fold_left step cs l.

(** The interval timers that are set and not cleared, with their periods. *)
Fixpoint live_intervals (es : list Effect) (live : list (nat * nat)) : list (nat * nat) :=
  match es with
  | [] => live
  | SetInterval h ms :: rest => live_intervals rest (live ++ [(h, ms)])
  | ClearInterval h :: rest =>
      live_intervals rest (filter (fun '(h', _) => negb (Nat.eqb h' h)) live)
  | _ :: rest => live_intervals rest live
  end.

(** The invariant of the life cycle: polling is flagged exactly when the
    service holds a timer, and the timers alive in the runtime are that one
    timer, at the configured period. *)
Definition one_timer (l : Life) : Prop :=
  (isPolling l = true <-> pollingInterval l <> None)
  /\ live_intervals (effects l) [] =
       match pollingInterval l with
       | Some h => [(h, pollingIntervalMs l)]
       | None => []
       end.

End Subscriptions.


(** ** [useNotifications] (hooks/useNotifications.ts): read marks *)

Module NotificationsHook.

Import Api Notification.

(** [new Set(xs)]: the elements of [xs] in order, each kept once. *)
Fixpoint new_Set (xs : list string) (seen : list string) : list string :=
  match xs with
  | [] => []
  | x :: rest =>
      if existsb (String.eqb x) seen then new_Set rest seen
      else x :: new_Set rest (x :: seen)
  end.

(** [set.has(x)]. *)
Definition has (x : string) (set : list string) : bool := existsb (String.eqb x) set.

(** The state of the hook.  [readEventIds] is a [Set], held as the list of
    its elements in insertion order.  [notificationsRef] is
    [notificationsRef.current]: the notifications as they were when the
    effect of lines 51-53 ran last. *)
Record State : Type := mkState {
  notifications : list NotificationEvent;
  notificationsRef : list NotificationEvent;
  readEventIds : list string;
  isConnected : bool
}.

Definition initial : State := mkState [] [] [] false.

(** Lines 60-75. *)
Definition handleNotificationEvent (event : NotificationEvent) (st : State) : State :=
  mkState (Notification.handleNotificationEvent event (notifications st))
    (notificationsRef st) (readEventIds st) true.

(** The effect of lines 51-53, which React runs after a render in which
    [notifications] has changed. *)
Definition effect (st : State) : State :=
  mkState (notifications st) (notifications st) (readEventIds st) (isConnected st).

(** Lines 83-85: [new Set(Array.from(prev).concat(eventId))]. *)
Definition markAsRead (eventId : string) (st : State) : State :=
  mkState (notifications st) (notificationsRef st)
    (new_Set (readEventIds st ++ [eventId]) []) (isConnected st).

(** Lines 88-91: the ids are those of [notificationsRef.current]. *)
Definition markAllAsRead (st : State) : State :=
  mkState (notifications st) (notificationsRef st)
    (new_Set (map event_id (notificationsRef st)) []) (isConnected st).

(** Lines 94-97. *)
Definition clearNotifications (st : State) : State :=
  mkState [] (notificationsRef st) [] (isConnected st).

(** Line 123. *)
Definition unreadCount (st : State) : nat :=
  length (filter (fun n => negb (has (event_id n) (readEventIds st))) (notifications st)).

(** The calls of a client, the events delivered and the runs of the
    effect. *)
Inductive Call : Type :=
| Deliver (event : NotificationEvent)
| Effect
| MarkAsRead (eventId : string)
| MarkAllAsRead
| Clear.

Definition step (st : State) (c : Call) : State :=
  match c with
  | Deliver event => handleNotificationEvent event st
  | Effect => effect st
  | MarkAsRead eventId => markAsRead eventId st
  | MarkAllAsRead => markAllAsRead st
  | Clear => clearNotifications st
  end.

Definition run_calls (cs : list Call) (st : State) : State := fold_left step cs st.

(** The badge of [NotificationCenter], lines 74-78: nothing, the count, or
    "99+". *)
Inductive Badge : Type := NoBadge | Count (n : nat) | NinetyNinePlus.

Definition badge (unread : nat) : Badge :=
  if (0 <? unread)%nat then
    if (99 <? unread)%nat then NinetyNinePlus else Count unread
  else NoBadge.

(** What every state of the hook satisfies: a buffer of at most 100
    events with distinct ids, and read marks without repetition. *)
Definition reachable (st : State) : Prop :=
  bounded_distinct (notifications st) /\ NoDup (readEventIds st).

End NotificationsHook.


(** ** [localStorage] and the HTTP client of [ApiService] (api.ts) *)

Module LocalStorage.

(** The store: its keys with their values, each key once. *)
Definition t : Type := list (string * string).

Fixpoint getItem (key : string) (st : t) : option string :=
  match st with
  | [] => None
  | (k, v) :: rest => if String.eqb k key then Some v else getItem key rest
  end.

Fixpoint setItem (key value : string) (st : t) : t :=
  match st with
  | [] => [(key, value)]
  | (k, v) :: rest =>
      if String.eqb k key then (k, value) :: rest else (k, v) :: setItem key value rest
  end.

Definition removeItem (key : string) (st : t) : t :=
  filter (fun '(k, _) => negb (String.eqb k key)) st.

End LocalStorage.

Module ApiService.

(** What axios hands to the interceptor of a failed request:
    [error.response?.status], [error.response?.data?.detail],
    [error.response?.data?.code] and [error.message]. *)
Record AxiosError : Type := mkAxiosError {
  response_status : option Z;
  response_detail : option string;
  response_code : option string;
  error_message : string
}.

(** [interface ApiError] (types). *)
Record ApiError : Type := mkApiError {
  message : string;
  status : option Z;
  code : option string
}.

(** The part of the browser the client acts on; [href] is the value
    assigned to [window.location.href], if any. *)
Record Browser : Type := mkBrowser {
  localStorage : LocalStorage.t;
  href : option string
}.

(** How a request ends before the interceptors. *)
Inductive Outcome (A : Type) : Type :=
| Fulfilled (data : A)
| Failed (error : AxiosError).
Arguments Fulfilled {A} data.
Arguments Failed {A} error.

(** Lines 193-206. *)
Definition setAuthToken (token : string) (b : Browser) : Browser :=
  mkBrowser (LocalStorage.setItem "access_token" token (localStorage b)) (href b).

Definition clearAuthToken (b : Browser) : Browser :=
  mkBrowser
    (LocalStorage.removeItem "user" (LocalStorage.removeItem "access_token" (localStorage b)))
    (href b).

Definition getAuthToken (b : Browser) : option string :=
  LocalStorage.getItem "access_token" (localStorage b).

(** The request interceptor, lines 29-36: the [Authorization] header it
    sets, if it sets one. *)
Definition authorization (b : Browser) : option string :=
  match LocalStorage.getItem "access_token" (localStorage b) with
  | Some token => if JsString.truthy token then Some ("Bearer " ++ token)%string else None
  | None => None
  end.

(** The header of the streaming request, lines 126-131: always present. *)
Definition stream_authorization (b : Browser) : string :=
  match LocalStorage.getItem "access_token" (localStorage b) with
  | Some token => if JsString.truthy token then ("Bearer " ++ token)%string else EmptyString
  | None => EmptyString
  end.

(** [a || b] on strings that may be absent. *)
Definition or_else (a : option string) (b : string) : string :=
  match a with
  | Some s => if JsString.truthy s then s else b
  | None => b
  end.

(** The response interceptor on a failure, lines 47-62. *)
Definition on_rejected (error : AxiosError) (b : Browser) : Browser * ApiError :=
  let b :=
    match response_status error with
    | Some s =>
        if (s =? 401)%Z then
          mkBrowser
            (LocalStorage.removeItem "user"
               (LocalStorage.removeItem "access_token" (localStorage b)))
            (Some "/login")
        else b
    | None => b
    end in
  (b, mkApiError
        (or_else (response_detail error)
           (or_else (Some (error_message error)) "请求失败"))
        (response_status error) (response_code error)).

(** A request through the client: the data, or the error of the
    interceptor. *)
Definition request {A : Type} (o : Outcome A) (b : Browser) : Browser * (A + ApiError) :=
  match o with
  | Fulfilled data => (b, inl data)
  | Failed error => let '(b', e) := on_rejected error b in (b', inr e)
  end.

End ApiService.

(** ** [useAuth] (hooks/useAuth.ts) *)

Module Auth.

Import ApiService.

(** [interface User], [interface TokenResponse] (types). *)
Record User : Type := mkUser {
  id : string;
  email : option string;
  is_anonymous : bool
}.

Record TokenResponse : Type := mkTokenResponse {
  access_token : string;
  token_type : string;
  user_id : string;
  token_email : option string;
  token_is_anonymous : bool;
  expires_in : Z
}.

(** What [/auth/validate] returns. *)
Record Validation : Type := mkValidation {
  valid : bool;
  validated_user_id : string;
  validated_is_anonymous : bool
}.

Inductive Toast : Type :=
| Success (text : string)
| Failure (text : string).

(** One instance of the hook: its state and the toasts it has shown, with
    the browser ([localStorage] and the location), which the instance
    shares with the other instances of the hook ([App], [ChatInterface],
    [LoginForm] and [useNotifications] each call [useAuth]) and with the
    rest of the page. *)
Record World : Type := mkWorld {
  user : option User;
  isAuthenticated : bool;
  isLoading : bool;
  browser : Browser;
  toasts : list Toast
}.

Definition initial (b : Browser) : World := mkWorld None false true b [].

Definition setUser (u : option User) (w : World) : World :=
  mkWorld u (isAuthenticated w) (isLoading w) (browser w) (toasts w).
Definition setIsAuthenticated (a : bool) (w : World) : World :=
  mkWorld (user w) a (isLoading w) (browser w) (toasts w).
Definition setIsLoading (l : bool) (w : World) : World :=
  mkWorld (user w) (isAuthenticated w) l (browser w) (toasts w).
Definition setBrowser (b : Browser) (w : World) : World :=
  mkWorld (user w) (isAuthenticated w) (isLoading w) b (toasts w).
Definition toast (t : Toast) (w : World) : World :=
  mkWorld (user w) (isAuthenticated w) (isLoading w) (browser w) (toasts w ++ [t]).

Definition userData (response : TokenResponse) : User :=
  mkUser (user_id response) (token_email response) (token_is_anonymous response).

Section Hook.
(** [JSON.stringify] on a user. *)
Variable JSON_stringify : User -> string.

(** Lines 308-333.  [validation] and [me] are the outcomes of
    [/auth/validate] and [/auth/me], used when the requests are made. *)
Definition initializeAuth (validation : Outcome Validation) (me : Outcome User)
    (w : World) : World :=
  match getAuthToken (browser w) with
  | None => setIsLoading false w
  | Some token =>
      if negb (JsString.truthy token) then setIsLoading false w
      else
        let '(b, r) := request validation (browser w) in
        let w := setBrowser b w in
        let w :=
          match r with
          | inl v =>
              if valid v then
                let '(b, r') := request me (browser w) in
                let w := setBrowser b w in
                match r' with
                | inl u => setIsAuthenticated true (setUser (Some u) w)
                | inr _ => setBrowser (clearAuthToken (browser w)) w
                end
              else setBrowser (clearAuthToken (browser w)) w
          | inr _ => setBrowser (clearAuthToken (browser w)) w
          end in
        setIsLoading false w
  end.

(** Lines 336-375.  The boolean tells whether the error is thrown again. *)
Definition login (anonymous : bool) (o : Outcome TokenResponse) (w : World) : World * bool :=
  let w := setIsLoading true w in
  let '(b, r) := request o (browser w) in
  let w := setBrowser b w in
  match r with
  | inl response =>
      let w := setBrowser (setAuthToken (access_token response) (browser w)) w in
      let u := userData response in
      let w :=
        setBrowser
          (mkBrowser (LocalStorage.setItem "user" (JSON_stringify u) (localStorage (browser w)))
             (href (browser w))) w in
      let w := setIsLoading false (setIsAuthenticated true (setUser (Some u) w)) in
      (toast (Success (if anonymous then "匿名登录成功！" else "登录成功！")) w, false)
  | inr error =>
      let w := toast (Failure (or_else (Some (message error)) "登录失败，请重试")) w in
      (setIsLoading false w, true)
  end.

(** Lines 378-402. *)
Definition logout (o : Outcome unit) (w : World) : World :=
  let w := setIsLoading true w in
  let '(b, _) := request o (browser w) in
  let w := setBrowser b w in
  let w := setBrowser (clearAuthToken (browser w)) w in
  let w := setIsAuthenticated false (setUser None w) in
  let w := toast (Success "已退出登录") w in
  setIsLoading false w.

(** Lines 405-427. *)
Definition refreshToken (o : Outcome TokenResponse) (w : World) : World * bool :=
  let '(b, r) := request o (browser w) in
  let w := setBrowser b w in
  match r with
  | inl response =>
      let w := setBrowser (setAuthToken (access_token response) (browser w)) w in
      let u := userData response in
      let w := setUser (Some u) w in
      (setBrowser
         (mkBrowser (LocalStorage.setItem "user" (JSON_stringify u) (localStorage (browser w)))
            (href (browser w))) w, false)
  | inr _ =>
      let w := setBrowser (clearAuthToken (browser w)) w in
      (setIsAuthenticated false (setUser None w), true)
  end.

(** What happens to one instance of the hook: the calls of its client,
    with the outcomes of the requests they make, and what is done to the
    browser elsewhere (by another instance of the hook, by the interceptor
    of another request, in another tab), given by the browser it leaves. *)
Inductive Call : Type :=
| CallInitializeAuth (validation : Outcome Validation) (me : Outcome User)
| CallLogin (anonymous : bool) (o : Outcome TokenResponse)
| CallLogout (o : Outcome unit)
| CallRefreshToken (o : Outcome TokenResponse)
| Elsewhere (b : Browser).

Definition step (w : World) (c : Call) : World :=
  match c with
  | CallInitializeAuth validation me => initializeAuth validation me w
  | CallLogin anonymous o => fst (login anonymous o w)
  | CallLogout o => logout o w
  | CallRefreshToken o => fst (refreshToken o w)
  | Elsewhere b => setBrowser b w
  end.

Definition run_calls (cs : list Call) (w : World) : World := fold_left step cs w.

End Hook.

(** Signed in means a user is known. *)
Definition consistent (w : World) : Prop :=
  isAuthenticated w = true -> user w <> None.

End Auth.


(** ** The other operations of [useChat] (hooks/useChat.ts, lines 483-615) *)

Module ChatOps.

Import Chat.

(** [interface Conversation], [interface ChatResponse] (types). *)
Record Conversation : Type := mkConversation {
  conversation_id : string;
  last_message : string;
  last_updated : string
}.

Record ChatResponse : Type := mkChatResponse {
  message : string;
  response_conversation_id : string;
  user_message_id : Z;
  assistant_message_id : Z;
  model_used : string
}.

(** How a call of [apiService] ends: with the data, or rejected with the
    [ApiError] of the response interceptor. *)
Definition Result (A : Type) : Type := (A + ApiService.ApiError)%type.

Inductive Toast : Type :=
| Success (text : string)
| Error (text : string).

Record State : Type := mkState {
  messages : list ChatMessage.t;
  conversations : list Conversation;
  currentConversation : option string;
  isLoading : bool;
  toasts : list Toast
}.

Definition setMessages (f : list ChatMessage.t -> list ChatMessage.t) (st : State) : State :=
  mkState (f (messages st)) (conversations st) (currentConversation st) (isLoading st)
    (toasts st).
Definition setConversations (f : list Conversation -> list Conversation) (st : State) : State :=
  mkState (messages st) (f (conversations st)) (currentConversation st) (isLoading st)
    (toasts st).
Definition setCurrentConversation (c : option string) (st : State) : State :=
  mkState (messages st) (conversations st) c (isLoading st) (toasts st).
Definition setIsLoading (b : bool) (st : State) : State :=
  mkState (messages st) (conversations st) (currentConversation st) b (toasts st).
Definition toast (t : Toast) (st : State) : State :=
  mkState (messages st) (conversations st) (currentConversation st) (isLoading st)
    (toasts st ++ [t]).

(** [conversationId === currentConversation]. *)
Definition is_current (conversationId : string) (current : option string) : bool :=
  match current with
  | Some c => String.eqb conversationId c
  | None => false
  end.

(** Lines 483-491. *)
Definition loadConversations (r : Result (list Conversation)) (st : State) : State :=
  match r with
  | inl response => setConversations (fun _ => response) st
  | inr _ => toast (Error "加载对话列表失败") st
  end.

(** Lines 494-506. *)
Definition loadConversationHistory (conversationId : string)
    (r : Result (list ChatMessage.t)) (st : State) : State :=
  let st := setIsLoading true st in
  let st :=
    match r with
    | inl history =>
        setCurrentConversation (Some conversationId) (setMessages (fun _ => history) st)
    | inr _ => toast (Error "加载对话历史失败") st
    end in
  setIsLoading false st.

(** Lines 509-512. *)
Definition selectConversation (conversationId : string)
    (r : Result (list ChatMessage.t)) (st : State) : State :=
  if is_current conversationId (currentConversation st) then st
  else loadConversationHistory conversationId r st.

(** Lines 515-529.  [r] is the outcome of the creation, [rl] that of the
    refresh of the list. *)
Definition createNewConversation (r : Result string) (rl : Result (list Conversation))
    (st : State) : State :=
  match r with
  | inl new_id =>
      let st := setCurrentConversation (Some new_id) st in
      let st := setMessages (fun _ => []) st in
      let st := loadConversations rl st in
      toast (Success "创建新对话成功") st
  | inr _ => toast (Error "创建新对话失败") st
  end.

(** Lines 532-550. *)
Definition deleteConversation (conversationId : string) (r : Result unit)
    (st : State) : State :=
  let current := currentConversation st in
  match r with
  | inl _ =>
      let st :=
        setConversations
          (filter (fun conv => negb (String.eqb (conversation_id conv) conversationId))) st in
      let st :=
        if is_current conversationId current
        then setMessages (fun _ => []) (setCurrentConversation None st)
        else st in
      toast (Success "对话已删除") st
  | inr _ => toast (Error "删除对话失败") st
  end.

(** [newMessages[newMessages.length - 1] = msg] on a copy: on an empty
    array the assignment adds no element. *)
Definition set_last {A} (msg : A) (xs : list A) : list A :=
  match xs with
  | [] => []
  | _ :: _ => removelast xs ++ [msg]
  end.

(** [xs.slice(0, -1)]. *)
Definition slice_0_minus1 {A} (xs : list A) : list A := firstn (length xs - 1) xs.

(** Lines 553-615.  [now] is the reading of [Date.now()], [iso1], [iso2]
    those of [new Date().toISOString()]; [rl] is the outcome of the refresh
    of the list, used when it is made. *)
Definition sendMessage (text : string) (now : Z) (iso1 iso2 : string)
    (r : Result ChatResponse) (rl : Result (list Conversation)) (st : State) : State :=
  if negb (JsString.truthy (JsString.trim text)) then st
  else
    let current := currentConversation st in
    let st := setIsLoading true st in
    let userMessage :=
      ChatMessage.mk now USER (JsString.trim text) (or_undefined current) iso1 in
    let st := setMessages (fun prev => prev ++ [userMessage]) st in
    let st :=
      match r with
      | inl response =>
          let assistantMessage :=
            ChatMessage.mk (assistant_message_id response) ASSISTANT (message response)
              (Some (response_conversation_id response)) iso2 in
          let st :=
            setMessages
              (fun prev =>
                 set_last
                   (with_ids (user_message_id response)
                      (Some (response_conversation_id response)) userMessage) prev
                 ++ [assistantMessage]) st in
          if negb (truthy_str current)
          then loadConversations rl
                 (setCurrentConversation (Some (response_conversation_id response)) st)
          else st
      | inr error =>
          let st :=
            toast (Error (ApiService.or_else (Some (ApiService.message error)) "发送消息失败"))
              st in
          setMessages slice_0_minus1 st
      end in
    setIsLoading false st.

(** The calls of a client of the hook, with the outcomes of the requests
    they make. *)
Inductive Call : Type :=
| CallLoadConversations (r : Result (list Conversation))
| CallLoadConversationHistory (conversationId : string) (r : Result (list ChatMessage.t))
| CallSelectConversation (conversationId : string) (r : Result (list ChatMessage.t))
| CallCreateNewConversation (r : Result string) (rl : Result (list Conversation))
| CallDeleteConversation (conversationId : string) (r : Result unit)
| CallSendMessage (text : string) (now : Z) (iso1 iso2 : string)
    (r : Result ChatResponse) (rl : Result (list Conversation)).

Definition step (st : State) (c : Call) : State :=
  match c with
  | CallLoadConversations r => loadConversations r st
  | CallLoadConversationHistory conversationId r => loadConversationHistory conversationId r st
  | CallSelectConversation conversationId r => selectConversation conversationId r st
  | CallCreateNewConversation r rl => createNewConversation r rl st
  | CallDeleteConversation conversationId r => deleteConversation conversationId r st
  | CallSendMessage text now iso1 iso2 r rl => sendMessage text now iso1 iso2 r rl st
  end.

Definition run_calls (cs : list Call) (st : State) : State := fold_left step cs st.

Definition is_rejected {A} (r : Result A) : bool :=
  match r with inl _ => false | inr _ => true end.

(** The first request of the call is rejected. *)
Definition rejected (c : Call) : bool :=
  match c with
  | CallLoadConversations r => is_rejected r
  | CallLoadConversationHistory _ r => is_rejected r
  | CallSelectConversation _ r => is_rejected r
  | CallCreateNewConversation r _ => is_rejected r
  | CallDeleteConversation _ r => is_rejected r
  | CallSendMessage _ _ _ _ r _ => is_rejected r
  end.

End ChatOps.


(** * Properties *)

(** ** Strings and lists *)

Module JsStringFacts.
Import JsString.

Lemma split_nonempty sep s : split sep s <> [].
Proof.
  destruct s as [|c s]; simpl; [discriminate|].
  destruct (Ascii.eqb c sep); [discriminate|].
  destruct (split sep s); discriminate.
Qed.

(** Splitting a concatenation: the carry-over of the first part is glued
    to the second part, the complete lines of the first part stay. *)
Lemma split_app sep a b :
  split sep (a ++ b) =
    removelast (split sep a) ++ split sep (last (split sep a) EmptyString ++ b).
Proof.
  induction a as [|c a IH]; [reflexivity|].
  pose proof (split_nonempty sep a) as Hne.
  cbn [split String.append].
  destruct (Ascii.eqb c sep) eqn:Ec.
  - rewrite IH. destruct (split sep a) as [|x xs]; [congruence|reflexivity].
  - rewrite IH. destruct (split sep a) as [|x [|x2 xs]]; [congruence| |reflexivity].
    cbn [removelast last app String.append split]. now rewrite Ec.
Qed.

Lemma join_cons sep x y ys :
  join sep (x :: y :: ys) = (x ++ sep ++ join sep (y :: ys))%string.
Proof. reflexivity. Qed.

(** Joining the segments of a split gives the text back. *)
Lemma join_split sep s : join (String sep EmptyString) (split sep s) = s.
Proof.
  induction s as [|c s IH]; [reflexivity|].
  pose proof (split_nonempty sep s) as Hne.
  cbn [split]. destruct (Ascii.eqb c sep) eqn:Ec.
  - apply Ascii.eqb_eq in Ec. subst c.
    destruct (split sep s) as [|x xs]; [congruence|].
    rewrite join_cons, IH. reflexivity.
  - destruct (split sep s) as [|x [|x2 xs]]; [congruence| |].
    + cbn in *. now rewrite IH.
    + rewrite <- IH. rewrite !join_cons. reflexivity.
Qed.

(** No segment of a split holds the separator. *)
Lemma split_segments sep s : Forall (fun seg => contains sep seg = false) (split sep s).
Proof.
  induction s as [|c s IH]; [repeat constructor|].
  cbn [split]. destruct (Ascii.eqb c sep) eqn:Ec.
  - constructor; [reflexivity|exact IH].
  - destruct (split sep s) as [|x xs]; [repeat constructor; cbn; now rewrite Ec|].
    inversion IH; subst. constructor; [cbn; now rewrite Ec|assumption].
Qed.

Lemma split_without sep s : contains sep s = false -> split sep s = [s].
Proof.
  induction s as [|c s IH]; [reflexivity|].
  cbn. destruct (Ascii.eqb c sep); [discriminate|].
  cbn. intros H. now rewrite (IH H).
Qed.

Lemma contains_app sep a b : contains sep (a ++ b) = contains sep a || contains sep b.
Proof.
  induction a as [|c a IH]; [reflexivity|].
  cbn. rewrite IH. now rewrite orb_assoc.
Qed.

Lemma pop_spec {A} (xs : list A) (d : A) :
  xs <> [] -> pop xs = (removelast xs, Some (last xs d)).
Proof.
  intros Hne. unfold pop. f_equal.
  induction xs as [|x [|y ys] IH]; [congruence|reflexivity|].
  specialize (IH ltac:(discriminate)). cbn [map last] in *. exact IH.
Qed.

Lemma last_nonempty_app {A} (l1 l2 : list A) d :
  l2 <> [] -> last (l1 ++ l2) d = last l2 d.
Proof.
  intros H. induction l1 as [|x l1 IH]; [reflexivity|].
  cbn [app last]. destruct (l1 ++ l2) eqn:E; [|exact IH].
  apply app_eq_nil in E. tauto.
Qed.

Lemma append_assoc (a b c : string) : ((a ++ b) ++ c = a ++ (b ++ c))%string.
Proof. induction a; cbn; congruence. Qed.

Lemma append_empty_r (a : string) : (a ++ "")%string = a.
Proof. induction a; cbn; congruence. Qed.

End JsStringFacts.

(** ** The decoder, the read loop and the callbacks of a call *)

Module ApiFacts.
Import JsString JsStringFacts Api.

Lemma complete_lines_without text : contains nl text = false -> complete_lines text = [].
Proof. intros H. unfold complete_lines. now rewrite split_without. Qed.

Lemma carry_over_without text : contains nl text = false -> carry_over text = text.
Proof. intros H. unfold carry_over. now rewrite split_without. Qed.

Lemma carry_over_clean text : contains nl (carry_over text) = false.
Proof.
  unfold carry_over.
  pose proof (split_segments nl text) as HF.
  pose proof (split_nonempty nl text) as Hne.
  rewrite Forall_forall in HF. apply HF.
  destruct (split nl text) as [|x xs]; [congruence|].
  apply (@exists_last _ (x :: xs)) in Hne. destruct Hne as (l' & a & E).
  rewrite E, last_last. apply in_or_app. right. now left.
Qed.

Lemma complete_lines_app a b :
  complete_lines (a ++ b) = complete_lines a ++ complete_lines (carry_over a ++ b).
Proof.
  unfold complete_lines, carry_over. rewrite split_app.
  apply removelast_app, split_nonempty.
Qed.

Lemma carry_over_app a b : carry_over (a ++ b) = carry_over (carry_over a ++ b).
Proof.
  unfold carry_over. rewrite split_app.
  apply last_nonempty_app, split_nonempty.
Qed.

Lemma feed_spec buffer chunk :
  feed buffer chunk = (complete_lines (buffer ++ chunk), carry_over (buffer ++ chunk)).
Proof.
  unfold feed, complete_lines, carry_over.
  rewrite (pop_spec _ EmptyString) by apply split_nonempty.
  f_equal. now destruct (last _ _).
Qed.

Lemma feeds_spec chunks : forall buffer,
  contains nl buffer = false ->
  feeds chunks buffer =
    (complete_lines (buffer ++ text_of chunks), carry_over (buffer ++ text_of chunks)).
Proof.
  induction chunks as [|chunk rest IH]; intros buffer Hb.
  - cbn [feeds text_of fold_right]. rewrite append_empty_r.
    now rewrite complete_lines_without, carry_over_without.
  - cbn [feeds text_of fold_right]. rewrite feed_spec.
    rewrite IH by apply carry_over_clean.
    fold (text_of rest). rewrite <- append_assoc.
    now rewrite (complete_lines_app (buffer ++ chunk)), (carry_over_app (buffer ++ chunk)).
Qed.

Section Generic.
Context {payload S : Type}.
Variable JSON_parse : string -> option payload.
Variable data_finished : payload -> bool.
Variable onChunk : payload -> S -> completion S.
Variable onError : Error -> S -> completion S.
Variable onComplete : S -> completion S.

Local Abbreviation process_lines :=
  (process_lines JSON_parse data_finished onChunk onComplete).
Local Abbreviation read_loop :=
  (read_loop JSON_parse data_finished onChunk onComplete).

Lemma process_lines_app l1 l2 s :
  process_lines (l1 ++ l2) s =
    match process_lines l1 s with
    | Continue s' => process_lines l2 s'
    | Return s' => Return s'
    end.
Proof.
  revert s. induction l1 as [|line l1 IH]; intros s; [reflexivity|].
  cbn [app Api.process_lines].
  destruct (process_line _ _ _ _ line s); [apply IH|reflexivity].
Qed.

(** The read loop processes the complete lines of the text read before
    the first rejected read; what follows the last line feed is never
    processed. *)
Lemma read_loop_spec reads : forall buffer s,
  contains nl buffer = false ->
  read_loop reads buffer s =
    match process_lines (complete_lines (buffer ++ text_of (values_before reads))) s with
    | Return s' => Finished s'
    | Continue s' =>
        match rejection reads with
        | None => Finished s'
        | Some reason => Raised (Rejection reason) s'
        end
    end.
Proof.
  induction reads as [|[bytes|reason] rest IH]; intros buffer s Hb.
  - cbn. rewrite append_empty_r, complete_lines_without by assumption. reflexivity.
  - cbn [Api.read_loop values_before text_of fold_right rejection].
    rewrite feed_spec. fold (text_of (values_before rest)).
    rewrite <- append_assoc, (complete_lines_app (buffer ++ bytes)), process_lines_app.
    destruct (process_lines (complete_lines (buffer ++ bytes)) s) as [s'|s'];
      [|reflexivity].
    apply IH, carry_over_clean.
  - cbn. rewrite append_empty_r, complete_lines_without by assumption. reflexivity.
Qed.

Lemma values_before_tail reads tail :
  text_of (values_before (reads ++ [Value tail])) =
    match rejection reads with
    | None => (text_of (values_before reads) ++ tail)%string
    | Some _ => text_of (values_before reads)
    end.
Proof.
  induction reads as [|[bytes|reason] rest IH]; cbn [app values_before rejection text_of fold_right].
  - now rewrite append_empty_r.
  - fold (text_of (values_before (rest ++ [Value tail]))). rewrite IH.
    fold (text_of (values_before rest)).
    destruct (rejection rest); [reflexivity|now rewrite append_assoc].
  - reflexivity.
Qed.

Lemma rejection_tail reads tail : rejection (reads ++ [Value tail]) = rejection reads.
Proof. induction reads as [|[bytes|reason] rest IH]; cbn; auto. Qed.
End Generic.

Section Replay.
Context {payload S : Type}.
Variable JSON_parse : string -> option payload.
Variable data_finished : payload -> bool.
Variable hChunk : payload -> S -> S.
Variable hError : Error -> S -> S.
Variable hComplete : S -> S.
Variable onChunk : payload -> S -> completion S.
Variable onError : Error -> S -> completion S.
Variable onComplete : S -> completion S.
Hypothesis onChunk_returns : forall d s, onChunk d s = Normal (hChunk d s).
Hypothesis onError_returns : forall e s, onError e s = Normal (hError e s).
Hypothesis onComplete_returns : forall s, onComplete s = Normal (hComplete s).

Local Abbreviation replay := (replay hChunk hError hComplete).

Lemma process_lines_replay lines : forall s,
  process_lines JSON_parse data_finished onChunk onComplete lines s =
    let '(evs, fin) := events_of_lines JSON_parse data_finished lines in
    if fin then Return (replay evs s) else Continue (replay evs s).
Proof.
  induction lines as [|line rest IH]; intros s; [reflexivity|].
  cbn [process_lines events_of_lines]. unfold process_line, parse_frame.
  destruct (JsString.startsWith line "data: "); [|apply IH].
  destruct (JSON_parse _) as [d|]; [|apply IH].
  rewrite onChunk_returns.
  destruct (data_finished d).
  - now rewrite onComplete_returns.
  - rewrite IH. now destruct (events_of_lines _ _ rest) as [evs [|]].
Qed.

Lemma replay_app evs1 evs2 s : replay (evs1 ++ evs2) s = replay evs2 (replay evs1 s).
Proof. apply fold_left_app. Qed.

(** A call whose callbacks return makes the calls of [events_of], and
    resolves. *)
Lemma sendStreamMessage_replay t s :
  sendStreamMessage JSON_parse data_finished onChunk onError onComplete t s =
    Normal (replay (events_of JSON_parse data_finished t) s).
Proof.
  destruct t as [reason|ok status body]; cbn [sendStreamMessage events_of].
  - apply onError_returns.
  - destruct ok; cbn [negb]; [|apply onError_returns].
    destruct body as [reads|]; [|apply onError_returns].
    rewrite read_loop_spec by reflexivity.
    cbn [String.append]. rewrite process_lines_replay.
    destruct (events_of_lines _ _ _) as [evs [|]]; [reflexivity|].
    destruct (rejection reads); [|reflexivity].
    rewrite onError_returns, replay_app. reflexivity.
Qed.
End Replay.

Section TraceFacts.
Context {payload : Type}.
Variable JSON_parse : string -> option payload.
Variable data_finished : payload -> bool.

Local Abbreviation events_of_lines := (events_of_lines JSON_parse data_finished).
Local Abbreviation finishing := (finishing JSON_parse data_finished).
Local Abbreviation trace := (trace JSON_parse data_finished).
Local Abbreviation open chunks := (Forall (fun d => data_finished d = false) chunks).

Lemma replay_log (evs tr : list (Event payload)) :
  replay (fun d tr => tr ++ [EvChunk d]) (fun e tr => tr ++ [EvError e])
    (fun tr => tr ++ [EvComplete]) evs tr = tr ++ evs.
Proof.
  revert tr. induction evs as [|ev evs IH]; intros tr; [now rewrite app_nil_r|].
  change (replay ?a ?b ?c (ev :: evs) tr) with (replay a b c evs (handle a b c tr ev)).
  rewrite IH. destruct ev; cbn; now rewrite <- app_assoc.
Qed.

Lemma trace_spec t : trace t = events_of JSON_parse data_finished t.
Proof.
  unfold Api.trace.
  rewrite (sendStreamMessage_replay JSON_parse data_finished
             (fun d tr => tr ++ [EvChunk d]) (fun e tr => tr ++ [EvError e])
             (fun tr => tr ++ [EvComplete])) by reflexivity.
  apply replay_log.
Qed.

Lemma events_of_lines_fin lines : snd (events_of_lines lines) = existsb finishing lines.
Proof.
  induction lines as [|line rest IH]; [reflexivity|].
  cbn [Api.events_of_lines existsb]. unfold Api.finishing at 1.
  destruct (parse_frame JSON_parse line) as [d|]; [|exact IH].
  destruct (data_finished d); [reflexivity|].
  destruct (events_of_lines rest); exact IH.
Qed.

Lemma events_of_lines_shape lines :
  exists chunks, open chunks /\
    if snd (events_of_lines lines)
    then exists d, data_finished d = true /\
           fst (events_of_lines lines) = map EvChunk chunks ++ [EvChunk d; EvComplete]
    else fst (events_of_lines lines) = map EvChunk chunks.
Proof.
  induction lines as [|line rest (chunks & Hopen & IH)].
  - exists []. split; [constructor|reflexivity].
  - cbn [Api.events_of_lines].
    destruct (parse_frame JSON_parse line) as [d|]; [|now exists chunks].
    destruct (data_finished d) eqn:Ed.
    + exists []. split; [constructor|]. now exists d.
    + destruct (events_of_lines rest) as [evs fin]. cbn [fst snd] in *.
      exists (d :: chunks). split; [now constructor|].
      destruct fin.
      * destruct IH as (d' & Hd' & ->). now exists d'.
      * now rewrite IH.
Qed.

(** Every call is a run of chunks that do not end the stream, followed by
    nothing, by the chunk that ends it and [onComplete], or by [onError]. *)
Lemma trace_shape t :
  exists chunks terminal,
    trace t = map EvChunk chunks ++ terminal /\ open chunks /\
    (terminal = [] \/
     (exists d, data_finished d = true /\ terminal = [EvChunk d; EvComplete]) \/
     (exists e, terminal = [EvError e])).
Proof.
  rewrite trace_spec.
  destruct t as [reason|ok status body]; cbn [events_of].
  - exists [], [EvError (Rejection reason)].
    split; [reflexivity|split; [constructor|eauto]].
  - destruct ok; cbn [negb];
      [|exists [], [EvError (HttpError status)];
        split; [reflexivity|split; [constructor|eauto]]].
    destruct body as [reads|];
      [|exists [], [EvError NoReader];
        split; [reflexivity|split; [constructor|eauto]]].
    destruct (events_of_lines_shape (complete_lines (text_of (values_before reads))))
      as (chunks & Hopen & H).
    destruct (events_of_lines _) as [evs fin]. cbn [fst snd] in H.
    destruct fin.
    + destruct H as (d & Hd & ->). exists chunks, [EvChunk d; EvComplete]. eauto 10.
    + subst evs. destruct (rejection reads) as [reason|].
      * exists chunks, [EvError (Rejection reason)]. eauto 10.
      * exists chunks, []. rewrite app_nil_r. eauto.
Qed.

Lemma count_app p (a b : list (Event payload)) :
  count p (a ++ b) = count p a + count p b.
Proof. unfold count. now rewrite filter_app, length_app. Qed.

Lemma count_chunks p chunks :
  (forall d : payload, p (EvChunk d) = false) -> count p (map EvChunk chunks) = 0.
Proof.
  intros Hp. unfold count. induction chunks as [|d ds IH]; [reflexivity|].
  cbn. now rewrite Hp.
Qed.
End TraceFacts.

End ApiFacts.

(** ** The streaming call: decoder, frame parser, terminal callbacks *)

Module ApiClaims.
Import JsString JsStringFacts Api ApiFacts.

Lemma values_before_map chunks : values_before (map Value chunks) = chunks.
Proof. induction chunks; cbn; congruence. Qed.

Lemma rejection_map chunks : rejection (map Value chunks) = None.
Proof. induction chunks; cbn; congruence. Qed.

(** C6.  One feed appends the decoded chunk to the carry-over,
    splits the result at the line feeds, gives all the segments but the
    last as complete lines and keeps the last one as the new carry-over.
    Over any sequence of feeds the lines given, in order, are the complete
    lines of the whole text and the carry-over is its unterminated rest, so
    that joining them gives the text back: no other split, nothing dropped
    between feeds.  The read loop processes exactly these lines.  Feeding
    "ab" and then "c", a line feed, "def", a line feed gives the lines
    "abc" and "def" and an empty carry-over. *)
Theorem C6_line_buffered_decoder :
  (forall buffer chunk,
     feed buffer chunk =
       (removelast (split nl (buffer ++ chunk)), last (split nl (buffer ++ chunk)) EmptyString))
  /\ (forall chunks,
        fst (feeds chunks EmptyString) = complete_lines (text_of chunks)
        /\ snd (feeds chunks EmptyString) = carry_over (text_of chunks)
        /\ join lf (fst (feeds chunks EmptyString) ++ [snd (feeds chunks EmptyString)])
           = text_of chunks
        /\ Forall (fun line => contains nl line = false) (fst (feeds chunks EmptyString)))
  /\ (forall (payload S : Type) JSON_parse data_finished onChunk onComplete chunks (s : S),
        @read_loop payload S JSON_parse data_finished onChunk onComplete
          (map Value chunks) EmptyString s =
        match process_lines JSON_parse data_finished onChunk onComplete
                (fst (feeds chunks EmptyString)) s with
        | Continue s' | Return s' => Finished s'
        end)
  /\ feeds ["ab"; "c" ++ lf ++ "def" ++ lf]%string EmptyString = (["abc"; "def"], EmptyString).
Proof.
  split; [|split; [|split]].
  - intros. apply feed_spec.
  - intros chunks. rewrite feeds_spec by reflexivity. cbn [fst snd String.append].
    repeat split.
    + unfold complete_lines, carry_over.
      rewrite <- app_removelast_last by apply split_nonempty.
      apply join_split.
    + pose proof (split_segments nl (text_of chunks)) as HF.
      unfold complete_lines.
      rewrite (app_removelast_last EmptyString (split_nonempty nl (text_of chunks))) in HF.
      now apply Forall_app in HF.
  - intros. rewrite read_loop_spec by reflexivity.
    rewrite values_before_map, rejection_map, feeds_spec by reflexivity.
    cbn [fst String.append]. now destruct (process_lines _ _ _ _ _ _).
  - reflexivity.
Qed.

(** C7.  The frame parser yields a payload exactly for the
    lines that start with the prefix "data: " and whose remainder
    [JSON.parse] accepts.  Any other line (the empty line among them) and a
    "data: " line that [JSON.parse] rejects yield nothing: the loop body
    leaves the state as it is and the lines after it are processed as if
    the line were not there.  With the decoder of [Json]: "not a frame" and
    "data: {bad json" yield nothing, and the frame of the content "hi"
    yields its payload. *)
Theorem C7_frame_parser :
  (forall (payload : Type) (JSON_parse : string -> option payload) line d,
     parse_frame JSON_parse line = Some d <->
     startsWith line "data: " = true /\ JSON_parse (slice 6 line) = Some d)
  /\ (forall (payload : Type) (JSON_parse : string -> option payload),
        parse_frame JSON_parse EmptyString = None)
  /\ (forall (payload S : Type) JSON_parse data_finished onChunk onComplete line lines (s : S),
        parse_frame JSON_parse line = None ->
        @process_line payload S JSON_parse data_finished onChunk onComplete line s = Continue s
        /\ process_lines JSON_parse data_finished onChunk onComplete (line :: lines) s =
           process_lines JSON_parse data_finished onChunk onComplete lines s)
  /\ parse_frame Json.parse "not a frame" = None
  /\ parse_frame Json.parse (wire "data: {bad json") = None
  /\ parse_frame Json.parse (wire "data: {'content':'hi','finished':false}") =
       Some (Json.JObj [("content", Json.JStr "hi"); ("finished", Json.JBool false)]).
Proof.
  split; [|split; [|split; [|repeat split]]].
  - intros. unfold parse_frame. destruct (startsWith line "data: "); [tauto|].
    split; [discriminate|]. now intros [? _].
  - reflexivity.
  - intros payload S JSON_parse data_finished onChunk onComplete line lines s H.
    assert (process_line JSON_parse data_finished onChunk onComplete line s = Continue s) as E.
    { unfold process_line, parse_frame in *.
      destruct (startsWith line "data: "); [now rewrite H|reflexivity]. }
    split; [exact E|]. cbn [process_lines]. now rewrite E.
Qed.

Lemma C7_frame_parser_witness :
  parse_frame Json.parse "not a frame" = None
  /\ process_lines Json.parse (fun j => Json.truthy_opt (Json.get "finished" j))
       (fun d tr => log (EvChunk d) tr) (log EvComplete)
       ["not a frame"; wire "data: {'content':'hi','finished':false}"] []
     = Continue [EvChunk (Json.JObj [("content", Json.JStr "hi"); ("finished", Json.JBool false)])].
Proof.
  destruct C7_frame_parser as (_ & _ & Hskip & _).
  split; [reflexivity|].
  rewrite (proj2 (Hskip Json.json (list (Event Json.json)) Json.parse
             (fun j => Json.truthy_opt (Json.get "finished" j))
             (fun d tr => log (EvChunk d) tr) (log EvComplete)
             "not a frame" [wire "data: {'content':'hi','finished':false}"] [] eq_refl)).
  reflexivity.
Defined.

(** C4, counterexample to the claim as stated.  A stream that ends right
    after a "data: " frame with no line feed behind it: the carry-over at
    the end of the stream is that frame, it is not empty and the frame
    parser accepts it, yet [onChunk] is never called. *)
Lemma C4_unterminated_frame_not_delivered :
  let text := wire "data: {'content':'hi','finished':true}" in
  let t := Response true 200 (Some [Value text]) in
  snd (feeds [text] EmptyString) = text
  /\ JsString.truthy text = true
  /\ (exists d, parse_frame Chat.parse_chunk text = Some d)
  /\ trace Chat.parse_chunk Chat.StreamChunk.finished t = [].
Proof. cbv zeta. repeat split. eexists. reflexivity. Qed.

(** C4, as amended.  When the transport reports the end of the stream the
    carry-over is discarded, not emitted: a last read without a line feed
    changes nothing in what the call does, whatever the callbacks are, and
    a stream that ends processes the complete lines of its text and
    nothing else.  A final "data: " line is parsed and delivered only when
    a line feed follows it. *)
Theorem C4_carry_over_discarded_at_end :
  (forall (payload S : Type) JSON_parse data_finished onChunk onError onComplete
          ok status reads tail (s : S),
      contains nl tail = false ->
      @sendStreamMessage payload S JSON_parse data_finished onChunk onError onComplete
        (Response ok status (Some (reads ++ [Value tail]))) s =
      sendStreamMessage JSON_parse data_finished onChunk onError onComplete
        (Response ok status (Some reads)) s)
  /\ (forall (payload S : Type) JSON_parse data_finished onChunk onError onComplete
            status chunks (s : S),
        @sendStreamMessage payload S JSON_parse data_finished onChunk onError onComplete
          (Response true status (Some (map Value chunks))) s =
        match process_lines JSON_parse data_finished onChunk onComplete
                (complete_lines (text_of chunks)) s with
        | Continue s' | Return s' => Normal s'
        end).
Proof.
  split.
  - intros payload S JSON_parse data_finished onChunk onError onComplete
           ok status reads tail s Ht.
    cbn [sendStreamMessage]. destruct ok; cbn [negb]; [|reflexivity].
    rewrite !read_loop_spec by reflexivity. cbn [String.append].
    rewrite values_before_tail, rejection_tail.
    destruct (rejection reads); [reflexivity|].
    rewrite complete_lines_app.
    rewrite (complete_lines_without (carry_over _ ++ tail)), app_nil_r; [reflexivity|].
    now rewrite contains_app, carry_over_clean, Ht.
  - intros. cbn [sendStreamMessage negb].
    rewrite read_loop_spec by reflexivity.
    rewrite values_before_map, rejection_map. cbn [String.append].
    now destruct (process_lines _ _ _ _ _ _).
Qed.

Lemma C4_carry_over_discarded_at_end_witness :
  contains nl (wire "data: {'content':'b','finished':true}") = false /\
  Api.trace Chat.parse_chunk Chat.StreamChunk.finished
    (Response true 200 (Some ([Value (wire "data: {'content':'a','finished':false}" ++ lf)]
                              ++ [Value (wire "data: {'content':'b','finished':true}")]))) =
  Api.trace Chat.parse_chunk Chat.StreamChunk.finished
    (Response true 200 (Some [Value (wire "data: {'content':'a','finished':false}" ++ lf)])).
Proof.
  split; [reflexivity|]. unfold Api.trace.
  rewrite (proj1 C4_carry_over_discarded_at_end _ _ Chat.parse_chunk Chat.StreamChunk.finished
             _ _ _ true 200%Z _ (wire "data: {'content':'b','finished':true}") [] eq_refl).
  reflexivity.
Defined.

Section Failures.
Context {payload : Type}.
Variable JSON_parse : string -> option payload.
Variable data_finished : payload -> bool.
Local Abbreviation events_of_lines := (events_of_lines JSON_parse data_finished).
Local Abbreviation finishing := (finishing JSON_parse data_finished).
Local Abbreviation trace := (trace JSON_parse data_finished).

Lemma events_of_lines_returned l1 l2 :
  snd (events_of_lines l1) = true -> events_of_lines (l1 ++ l2) = events_of_lines l1.
Proof.
  induction l1 as [|line rest IH]; [discriminate|].
  cbn [app Api.events_of_lines].
  destruct (parse_frame JSON_parse line) as [d|]; [|exact IH].
  destruct (data_finished d); [reflexivity|].
  destruct (events_of_lines rest) as [evs fin] eqn:E. cbn [snd] in *.
  intros ->. now rewrite IH.
Qed.

Lemma text_of_app a b : text_of (a ++ b) = (text_of a ++ text_of b)%string.
Proof.
  induction a as [|x a IH]; [reflexivity|].
  unfold text_of in *. cbn [app fold_right]. now rewrite IH, append_assoc.
Qed.

Lemma values_before_app reads more :
  exists extra, values_before (reads ++ more) = values_before reads ++ extra.
Proof.
  induction reads as [|[bytes|reason] rest (extra & IH)].
  - now exists (values_before more).
  - exists extra. cbn. now rewrite IH.
  - exists []. reflexivity.
Qed.

Lemma complete_in_lines lines :
  In EvComplete (fst (events_of_lines lines)) -> snd (events_of_lines lines) = true.
Proof.
  destruct (events_of_lines_shape JSON_parse data_finished lines) as (chunks & _ & H).
  destruct (snd (events_of_lines lines)); [reflexivity|].
  rewrite H. intros Hin. apply in_map_iff in Hin. now destruct Hin as (? & ? & _).
Qed.

Lemma count_error_lines lines : count is_error (fst (events_of_lines lines)) = 0.
Proof.
  destruct (events_of_lines_shape JSON_parse data_finished lines) as (chunks & _ & H).
  destruct (snd (events_of_lines lines)).
  - destruct H as (d & _ & ->). rewrite count_app, count_chunks; reflexivity.
  - rewrite H. now apply count_chunks.
Qed.

Lemma error_iff_transport_fails t :
  count is_error (trace t) = 1 <->
  status_not_ok t \/ body_missing t \/ transport_read_fails JSON_parse data_finished t.
Proof.
  rewrite trace_spec.
  destruct t as [reason|ok status body];
    cbn [events_of status_not_ok body_missing transport_read_fails].
  - split; [auto|reflexivity].
  - destruct ok; cbn [negb]; [|split; [now left|reflexivity]].
    destruct body as [reads|]; [|split; [now right; left|reflexivity]].
    pose proof (count_error_lines (complete_lines (text_of (values_before reads)))) as H0.
    pose proof (events_of_lines_fin JSON_parse data_finished
                  (complete_lines (text_of (values_before reads)))) as Hfin.
    destruct (events_of_lines _) as [evs fin]. cbn [fst snd] in *.
    unfold read_fails.
    split.
    + intros H1. right; right. split; [reflexivity|]. exists reads. split; [reflexivity|].
      destruct fin; [congruence|].
      destruct (rejection reads); [|congruence].
      split; [discriminate|now symmetry].
    + intros [H|[H|(_ & reads' & [= <-] & Hrej & Hnofin)]]; try discriminate.
      rewrite Hnofin in Hfin. subst fin.
      destruct (rejection reads); [|congruence].
      rewrite count_app, H0. reflexivity.
Qed.
End Failures.

(** C5, counterexample to the claim as stated.  A callback that throws is
    caught by the [catch] around the frame and the loop goes on.  With an
    [onComplete] that throws, a stream of two finished frames followed by a
    rejected read calls [onComplete] twice, processes the second frame
    after the first finished one, and calls [onError] after [onComplete].
    With an [onChunk] that throws, a finished frame gives no [onComplete]
    at all. *)
Lemma C5_a_throwing_callback_does_not_end_the_stream :
  let first := Chat.StreamChunk.mk None None true None None None None in
  let late := Chat.StreamChunk.mk (Some "late") None true None None None None in
  let t :=
    Response true 200
      (Some [Value (wire "data: {'finished':true}" ++ lf
                    ++ wire "data: {'content':'late','finished':true}" ++ lf);
             ReadRejected "reset"]) in
  Api.trace_throwing Chat.parse_chunk Chat.StreamChunk.finished false true t =
    [EvChunk first; EvComplete; EvChunk late; EvComplete; EvError (Rejection "reset")]
  /\ count is_complete
       (Api.trace_throwing Chat.parse_chunk Chat.StreamChunk.finished false true t) = 2
  /\ Api.trace_throwing Chat.parse_chunk Chat.StreamChunk.finished true false t =
       [EvChunk first; EvChunk late; EvError (Rejection "reset")]
  /\ count is_complete
       (Api.trace_throwing Chat.parse_chunk Chat.StreamChunk.finished true false t) = 0.
Proof. vm_compute. repeat split. Qed.

(** C5, as amended.  A call whose callbacks return makes exactly the calls
    of its trace, in order, and resolves.  These calls are a run of
    [onChunk] calls for chunks that do not finish the stream, followed by
    nothing, or by the [onChunk] of a chunk with [finished] and one
    [onComplete], or by one [onError].  Hence [onComplete] is called exactly
    once when a parsed chunk carries [finished], and never otherwise;
    nothing is processed after it, whatever the transport still delivers;
    [onError] is called at most once, exactly when the status is not OK,
    the body is missing or the transport fails to deliver what is read
    from it (the response, or a chunk before the stream has finished), and
    no callback follows it. *)
Theorem C5_terminal_callbacks :
  forall (payload : Type) (JSON_parse : string -> option payload)
         (data_finished : payload -> bool) (t : Transport),
    let tr := Api.trace JSON_parse data_finished t in
    (forall (S : Type) (hChunk : payload -> S -> S) (hError : Error -> S -> S)
            (hComplete : S -> S) (s : S),
        Api.sendStreamMessage JSON_parse data_finished
          (fun d s => Normal (hChunk d s)) (fun e s => Normal (hError e s))
          (fun s => Normal (hComplete s)) t s =
        Normal (replay hChunk hError hComplete tr s))
    /\ (exists chunks terminal,
        tr = map EvChunk chunks ++ terminal
        /\ Forall (fun d => data_finished d = false) chunks
        /\ (terminal = []
            \/ (exists d, data_finished d = true /\ terminal = [EvChunk d; EvComplete])
            \/ (exists e, terminal = [EvError e])))
    /\ ((exists d, In (EvChunk d) tr /\ data_finished d = true) <-> count is_complete tr = 1)
    /\ count is_complete tr <= 1
    /\ count is_error tr <= 1
    /\ (count is_error tr = 1 <->
        status_not_ok t \/ body_missing t
        \/ transport_read_fails JSON_parse data_finished t)
    /\ (forall status reads more,
          t = Response true status (Some reads) ->
          In EvComplete tr ->
          Api.trace JSON_parse data_finished (Response true status (Some (reads ++ more))) = tr).
Proof.
  intros payload JSON_parse data_finished t tr.
  split.
  { intros S hChunk hError hComplete s. subst tr. rewrite trace_spec.
    now apply sendStreamMessage_replay. }
  pose proof (trace_shape JSON_parse data_finished t) as Hshape.
  split; [exact Hshape|].
  destruct Hshape as (chunks & terminal & Htr & Hopen & Hterm).
  fold tr in Htr.
  assert (forall p, (forall d, p (EvChunk d) = false) -> count p tr = count p terminal) as Hcount.
  { intros p Hp. now rewrite Htr, count_app, count_chunks. }
  assert (forall d, In (EvChunk d) (map EvChunk chunks) -> data_finished d = false) as Hin.
  { intros d Hd. apply in_map_iff in Hd. destruct Hd as (d' & [= ->] & Hd').
    rewrite Forall_forall in Hopen. now apply Hopen. }
  split; [|split; [|split; [|split]]].
  - rewrite (Hcount is_complete) by reflexivity. split.
    + intros (d & Hd & Hfin). rewrite Htr in Hd. apply in_app_or in Hd.
      destruct Hd as [Hd|Hd]; [apply Hin in Hd; congruence|].
      destruct Hterm as [->|[(d' & _ & ->)|(e & ->)]]; [destruct Hd|reflexivity|].
      destruct Hd as [Hd|[]]. discriminate.
    + intros H1. destruct Hterm as [->|[(d' & Hd' & ->)|(e & ->)]]; try discriminate.
      exists d'. split; [|exact Hd']. rewrite Htr. apply in_or_app. right. now left.
  - rewrite (Hcount is_complete) by reflexivity.
    destruct Hterm as [->|[(d' & _ & ->)|(e & ->)]]; cbn; lia.
  - rewrite (Hcount is_error) by reflexivity.
    destruct Hterm as [->|[(d' & _ & ->)|(e & ->)]]; cbn; lia.
  - apply error_iff_transport_fails.
  - intros status reads more -> Hc. subst tr. rewrite !trace_spec in *. cbn [events_of negb] in *.
    destruct (values_before_app reads more) as (extra & ->).
    rewrite text_of_app, complete_lines_app.
    destruct (events_of_lines JSON_parse data_finished
                (complete_lines (text_of (values_before reads)))) as [evs fin] eqn:E.
    assert (fin = true) as ->.
    { destruct fin; [reflexivity|].
      pose proof (count_error_lines JSON_parse data_finished
                    (complete_lines (text_of (values_before reads)))) as H0.
      pose proof (complete_in_lines JSON_parse data_finished
                    (complete_lines (text_of (values_before reads)))) as H1.
      rewrite E in H0, H1. cbn [fst snd] in *.
      destruct (rejection reads); [|now apply H1].
      apply in_app_or in Hc. destruct Hc as [Hc|[Hc|[]]]; [now apply H1|discriminate]. }
    rewrite events_of_lines_returned; rewrite E; reflexivity.
Qed.

Lemma C5_terminal_callbacks_witness :
  let more := [Value (wire "data: {'content':'late','finished':false}" ++ lf); ReadRejected "reset"] in
  In EvComplete (Api.trace Chat.parse_chunk Chat.StreamChunk.finished Chat.run_2plus2)
  /\ count is_complete (Api.trace Chat.parse_chunk Chat.StreamChunk.finished Chat.run_2plus2) = 1
  /\ count is_error (Api.trace Chat.parse_chunk Chat.StreamChunk.finished Chat.run_2plus2) = 0
  /\ Api.trace Chat.parse_chunk Chat.StreamChunk.finished
       (Response true 200
          (Some ([Value (wire "data: {'content':'4','finished':false}" ++ lf ++ lf);
                  Value (wire "data: {'finished':true,'conversation_id':'conv-9','user_message_id':101,'assistant_message_id':102}" ++ lf ++ lf)]
                 ++ more)))
     = Api.trace Chat.parse_chunk Chat.StreamChunk.finished Chat.run_2plus2.
Proof.
  cbv zeta.
  destruct (C5_terminal_callbacks Chat.StreamChunk.t Chat.parse_chunk Chat.StreamChunk.finished Chat.run_2plus2)
    as (_ & _ & Hfin & _ & _ & _ & Hmore).
  assert (In EvComplete (Api.trace Chat.parse_chunk Chat.StreamChunk.finished Chat.run_2plus2)) as Hin.
  { vm_compute. right; right; now left. }
  split; [exact Hin|split; [|split; [reflexivity|]]].
  - apply Hfin.
    exists (Chat.StreamChunk.mk None None true None (Some "conv-9") (Some 101%Z) (Some 102%Z)).
    split; [vm_compute; right; now left|reflexivity].
  - exact (Hmore 200%Z _ _ eq_refl Hin).
Defined.

End ApiClaims.

(** ** The hook: chunks, completion, failure *)

Module ChatFacts.
Import JsString JsStringFacts Api ApiFacts Chat.

Lemma onChunk_returns c chunk st : onChunk c chunk st = Normal (chunked c chunk st).
Proof. unfold chunked, onChunk. destruct st as [loc hs]. now destruct (StreamChunk.content chunk) as [[|]|]. Qed.

Lemma onError_returns c e st : onError c e st = Normal (failed c e st).
Proof. unfold failed, onError. now destruct st. Qed.

Lemma onComplete_returns c st : onComplete c st = Normal (completed c st).
Proof. unfold completed, onComplete. now destruct st. Qed.

Lemma replay_chunks c chunks st :
  replay (chunked c) (failed c) (completed c) (map EvChunk chunks) st = run_chunks c chunks st.
Proof.
  revert st. induction chunks as [|chunk rest IH]; intros st; [reflexivity|].
  cbn [map run_chunks]. rewrite <- IH. reflexivity.
Qed.

(** The hook makes the calls of [events_of] on the optimistic state, then
    clears the loading flag; the [catch] of lines 730-735 is never
    entered. *)
Lemma sendStreamMessage_events JSON_parse message now1 now2 iso1 iso2 t st :
  JsString.truthy (JsString.trim message) = true ->
  sendStreamMessage JSON_parse message now1 now2 iso1 iso2 t st =
    let '(c, store) := optimistic message now1 now2 iso1 iso2 st in
    setIsLoading false
      (snd (replay (chunked c) (failed c) (completed c)
              (events_of JSON_parse StreamChunk.finished t) store)).
Proof.
  intros Hm. unfold sendStreamMessage. rewrite Hm. cbn [negb].
  destruct (optimistic message now1 now2 iso1 iso2 st) as [c store].
  rewrite (sendStreamMessage_replay JSON_parse StreamChunk.finished
             (chunked c) (failed c) (completed c))
    by (intros; auto using onChunk_returns, onError_returns, onComplete_returns).
  now destruct (replay _ _ _ _ _).
Qed.

(** *** [latest] *)

Lemma find_snoc {A} (keep : A -> bool) l x :
  find keep (l ++ [x]) =
    match find keep l with
    | Some v => Some v
    | None => if keep x then Some x else None
    end.
Proof.
  induction l as [|y l IH]; [reflexivity|].
  cbn. destruct (keep y); [reflexivity|exact IH].
Qed.

Lemma latest_cons {A} (keep : A -> bool) init x xs :
  latest keep init (x :: xs) = latest keep (if keep x then x else init) xs.
Proof.
  unfold latest. cbn [rev]. rewrite find_snoc.
  destruct (find keep (rev xs)); [reflexivity|now destruct (keep x)].
Qed.

Lemma latest_snoc {A} (keep : A -> bool) init x xs :
  latest keep init (xs ++ [x]) = if keep x then x else latest keep init xs.
Proof. unfold latest. rewrite rev_app_distr. cbn. now destruct (keep x). Qed.

Lemma latest_kept {A} (keep : A -> bool) init xs :
  latest keep init xs = init \/ keep (latest keep init xs) = true.
Proof.
  unfold latest. destruct (find keep (rev xs)) eqn:E; [|now left].
  right. now apply find_some in E.
Qed.

(** *** The chunks *)


Lemma all_content_empty cs : has_content cs = false -> all_content cs = EmptyString.
Proof.
  induction cs as [|chunk rest IH]; [reflexivity|].
  cbn. destruct (StreamChunk.content chunk) as [[|]|]; cbn; auto; discriminate.
Qed.

Lemma patch_patch c t1 t2 msg :
  patch_content c t2 (patch_content c t1 msg) = patch_content c t2 msg.
Proof.
  unfold patch_content.
  destruct (ChatMessage.id msg =? tempAssistantId c)%Z eqn:E; cbn; now rewrite E.
Qed.

Lemma setMessages_setMessages f g hs :
  setMessages f (setMessages g hs) = setMessages (fun l => f (g l)) hs.
Proof. reflexivity. Qed.

Lemma setMessages_ext f g hs :
  (forall l, f l = g l) -> setMessages f hs = setMessages g hs.
Proof. intros H. unfold setMessages. now rewrite H. Qed.

Lemma run_chunks_spec c cs : forall loc0 hs0,
  run_chunks c cs (loc0, hs0) =
    (let full := (fullContent loc0 ++ all_content cs)%string in
     (mkLocals full
        (latest truthy_str (finalConversationId loc0) (map StreamChunk.conversation_id cs))
        (latest truthy_num (finalUserMessageId loc0) (map StreamChunk.user_message_id cs))
        (latest truthy_num (finalAssistantMessageId loc0)
           (map StreamChunk.assistant_message_id cs)),
      if has_content cs then setMessages (map (patch_content c full)) hs0 else hs0)).
Proof.
  induction cs as [|chunk rest IH]; intros loc0 hs0.
  - cbn. rewrite append_empty_r. now destruct loc0.
  - cbn [run_chunks]. unfold chunked, onChunk.
    cbn [map has_content existsb all_content]. rewrite !latest_cons.
    destruct (StreamChunk.content chunk) as [text|]; [destruct text as [|ch text]|];
      cbn [JsString.truthy truthy_str orb]; rewrite IH; cbn [fullContent finalConversationId finalUserMessageId finalAssistantMessageId].
    + reflexivity.
    + rewrite append_assoc. f_equal.
      fold (has_content rest).
      destruct (has_content rest) eqn:Hc.
      * rewrite setMessages_setMessages. apply setMessages_ext. intros l.
        rewrite map_map. apply map_ext. intros msg. apply patch_patch.
      * now rewrite (all_content_empty rest Hc), !append_empty_r.
    + reflexivity.
Qed.

Lemma map_fixed {A} (f : A -> A) l : (forall x, In x l -> f x = x) -> map f l = l.
Proof.
  induction l as [|x l IH]; intros H; [reflexivity|].
  cbn. rewrite H by now left. rewrite IH; [reflexivity|]. intros y Hy. apply H. now right.
Qed.

Lemma filter_all {A} (p : A -> bool) l : (forall x, In x l -> p x = true) -> filter p l = l.
Proof.
  induction l as [|x l IH]; intros H; [reflexivity|].
  cbn. rewrite H by now left. rewrite IH; [reflexivity|]. intros y Hy. apply H. now right.
Qed.

Lemma patch_other c text msg :
  ChatMessage.id msg <> tempAssistantId c -> patch_content c text msg = msg.
Proof. intros H. unfold patch_content. apply Z.eqb_neq in H. now rewrite H. Qed.

Lemma patch_id c text msg : ChatMessage.id (patch_content c text msg) = ChatMessage.id msg.
Proof. unfold patch_content. now destruct (_ =? _)%Z. Qed.

Lemma reconcile_other c loc msg :
  ChatMessage.id msg <> ChatMessage.id (userMessage c) ->
  ChatMessage.id msg <> tempAssistantId c ->
  reconcile c loc msg = msg.
Proof.
  intros H1 H2. unfold reconcile. apply Z.eqb_neq in H1, H2. rewrite H1, H2.
  now destruct (finalUserMessageId loc), (finalAssistantMessageId loc).
Qed.

Lemma survives_other c msg :
  ChatMessage.id msg <> ChatMessage.id (userMessage c) ->
  ChatMessage.id msg <> tempAssistantId c ->
  survives c msg = true.
Proof. intros H1 H2. unfold survives. apply Z.eqb_neq in H1, H2. now rewrite H1, H2. Qed.

Lemma survives_iff c msg :
  survives c msg = true <->
  ChatMessage.id msg <> tempAssistantId c /\ ChatMessage.id msg <> ChatMessage.id (userMessage c).
Proof.
  unfold survives. rewrite andb_true_iff, !negb_true_iff, !Z.eqb_neq. tauto.
Qed.

(** The state of the chunks of a send, from its optimistic state. *)
Lemma optimistic_chunks message now1 now2 iso1 iso2 st cs :
  let '(c, store) := optimistic message now1 now2 iso1 iso2 st in
  let user := userMessage c in
  let assistant :=
    ChatMessage.mk (now2 + 1) ASSISTANT (all_content cs)
      (or_undefined (currentConversation st)) iso2 in
  c = mkSend (ChatMessage.mk now1 USER (JsString.trim message)
                (or_undefined (currentConversation st)) iso1)
        (now2 + 1) (currentConversation st)
  /\ fst (run_chunks c cs store) =
       mkLocals (all_content cs)
         (latest truthy_str (currentConversation st) (map StreamChunk.conversation_id cs))
         (latest truthy_num None (map StreamChunk.user_message_id cs))
         (latest truthy_num None (map StreamChunk.assistant_message_id cs))
  /\ snd (run_chunks c cs store) =
       mkState
         (map (if has_content cs then patch_content c (all_content cs) else fun m => m)
              (messages st ++ [user])
          ++ [assistant])
         (currentConversation st) true (Some (now2 + 1)%Z)
         (loadConversations_calls st) (toasts st).
Proof.
  cbn [optimistic]. split; [reflexivity|].
  rewrite run_chunks_spec. cbn [fst snd fullContent finalConversationId
    finalUserMessageId finalAssistantMessageId String.append].
  split; [reflexivity|].
  destruct (has_content cs) eqn:Hc.
  - unfold setMessages, setStreamingMessageRef, setIsLoading. cbn.
    f_equal. etransitivity; [apply map_app|]. f_equal. cbn [map]. f_equal.
    unfold patch_content. cbn. now rewrite Z.eqb_refl.
  - unfold setMessages, setStreamingMessageRef, setIsLoading. cbn.
    rewrite map_id, (all_content_empty cs Hc). reflexivity.
Qed.
End ChatFacts.

Module ChatClaims.
Import JsString JsStringFacts Api ApiFacts Chat ChatFacts.

(** The state after the chunks [cs] and the completion of a send from
    [st], when the placeholder ids are not in use. *)
Lemma completed_send message now1 now2 iso1 iso2 st cs :
  fresh now1 now2 (messages st) ->
  now1 <> (now2 + 1)%Z ->
  let '(c, store) := optimistic message now1 now2 iso1 iso2 st in
  let conv := latest truthy_str (currentConversation st) (map StreamChunk.conversation_id cs) in
  let uid := latest truthy_num None (map StreamChunk.user_message_id cs) in
  let aid := latest truthy_num None (map StreamChunk.assistant_message_id cs) in
  let before := or_undefined (currentConversation st) in
  let adopt := negb (truthy_str (currentConversation st)) && truthy_str conv in
  snd (completed c (run_chunks c cs store)) =
    mkState
      (messages st ++
         [match uid with
          | Some n => ChatMessage.mk n USER (JsString.trim message) conv iso1
          | None => ChatMessage.mk now1 USER (JsString.trim message) before iso1
          end;
          match aid with
          | Some n => ChatMessage.mk n ASSISTANT (all_content cs) conv iso2
          | None => ChatMessage.mk (now2 + 1) ASSISTANT (all_content cs) before iso2
          end])
      (if adopt then conv else currentConversation st)
      true None
      (if adopt then S (loadConversations_calls st) else loadConversations_calls st)
      (toasts st).
Proof.
  intros Hfresh Hne.
  pose proof (optimistic_chunks message now1 now2 iso1 iso2 st cs) as H.
  destruct (optimistic message now1 now2 iso1 iso2 st) as [c store].
  destruct H as (Hc & Hloc & Hst). cbv zeta.
  destruct (run_chunks c cs store) as [loc hs]. cbn [fst snd] in Hloc, Hst.
  unfold completed, onComplete. subst loc.
  cbn [finalConversationId snd]. rewrite Hc at 1. cbn [sent_from].
  set (conv := latest truthy_str _ _).
  set (uid := latest truthy_num None (map StreamChunk.user_message_id cs)).
  set (aid := latest truthy_num None (map StreamChunk.assistant_message_id cs)).
  assert (map (if has_content cs then patch_content c (all_content cs) else fun m => m)
            (messages st ++ [userMessage c]) = messages st ++ [userMessage c]) as Hpatch.
  { apply map_fixed. intros m Hm. destruct (has_content cs); [|reflexivity].
    apply patch_other. rewrite Hc. cbn [tempAssistantId].
    apply in_app_or in Hm. destruct Hm as [Hm|[<-|[]]]; [now apply Hfresh|].
    rewrite Hc. exact Hne. }
  rewrite Hpatch in Hst. clear Hpatch.
  assert (messages hs = messages st ++
            [userMessage c;
             ChatMessage.mk (now2 + 1) ASSISTANT (all_content cs)
               (or_undefined (currentConversation st)) iso2]) as Hms.
  { rewrite Hst. cbn [messages]. now rewrite <- app_assoc. }
  assert (uid = None \/ truthy_num uid = true) as Huid by apply latest_kept.
  assert (aid = None \/ truthy_num aid = true) as Haid by apply latest_kept.
  set (loc := mkLocals _ _ _ _).
  assert (map (reconcile c loc) (messages hs) =
          messages st ++
            [match uid with
             | Some n => ChatMessage.mk n USER (JsString.trim message) conv iso1
             | None => ChatMessage.mk now1 USER (JsString.trim message)
                         (or_undefined (currentConversation st)) iso1
             end;
             match aid with
             | Some n => ChatMessage.mk n ASSISTANT (all_content cs) conv iso2
             | None => ChatMessage.mk (now2 + 1) ASSISTANT (all_content cs)
                         (or_undefined (currentConversation st)) iso2
             end]) as Hrec.
  { rewrite Hms, map_app. f_equal.
    - apply map_fixed. intros m Hm. destruct (Hfresh m Hm).
      apply reconcile_other; rewrite Hc; assumption.
    - cbn [map]. unfold reconcile, loc. rewrite Hc.
      cbn [finalUserMessageId finalAssistantMessageId finalConversationId
           userMessage tempAssistantId ChatMessage.id].
      rewrite !Z.eqb_refl. cbn [andb].
      assert ((now2 + 1 =? now1)%Z = false) as -> by (apply Z.eqb_neq; congruence).
      assert ((now1 =? now2 + 1)%Z = false) as -> by (now apply Z.eqb_neq).
      cbn [andb]. fold uid aid.
      f_equal; [|f_equal].
      + destruct uid as [n|]; [|now destruct aid].
        destruct Huid as [?|Huid]; [discriminate|]. cbn in Huid. now rewrite Huid.
      + destruct aid as [n|]; [|now destruct uid].
        destruct Haid as [?|Haid]; [discriminate|]. cbn in Haid. rewrite Haid.
        now destruct uid. }
  destruct (negb (truthy_str (currentConversation st)) && truthy_str conv);
    cbn [snd]; unfold setStreamingMessageRef, loadConversations, setCurrentConversation,
      setMessages; cbn [messages currentConversation isLoading streamingMessageRef
      loadConversations_calls toasts]; rewrite Hrec, Hst; reflexivity.
Qed.



(** C1, counterexample to the claim as stated.  The stream completes and
    resolves the conversation "conv-9", which becomes current, but its last chunk
    carries no message ids: both messages keep the conversation id they
    had, none.  And a stream that completes without a conversation id,
    when none was active, adopts nothing and reloads nothing. *)
Lemma C1_conversation_id_kept_without_message_ids :
  (let st' := sendStreamMessage parse_chunk "2+2?" 1000 1000 "t1" "t2" run_without_ids st0 in
   count is_complete (Api.trace parse_chunk StreamChunk.finished run_without_ids) = 1
   /\ currentConversation st' = Some "conv-9"
   /\ map ChatMessage.conversation_id (messages st') = [None; None]
   /\ map ChatMessage.conversation_id (messages st') <> [Some "conv-9"; Some "conv-9"])
  /\ (let st' := sendStreamMessage parse_chunk "2+2?" 1000 1000 "t1" "t2" run_unresolved st0 in
      count is_complete (Api.trace parse_chunk StreamChunk.finished run_unresolved) = 1
      /\ currentConversation st' = None
      /\ loadConversations_calls st' = 0).
Proof. vm_compute. repeat split. discriminate. Qed.

(** C1, as amended.  On completion, a placeholder message whose
    server-issued id has arrived (present and not zero) gets that id and
    the final resolved conversation id; a message whose id has not
    arrived keeps its placeholder id and its conversation id.  When no
    conversation was active before the send and the resolved conversation
    id is not empty, it becomes current and the conversation list is
    reloaded once.  This holds when the placeholder ids differ from each
    other and from the ids in the list.  In the run of the send "2+2?"
    with no active conversation the optimistic list has two messages and
    the final list is the user message 101 and the assistant message 102
    with content "4", both in "conv-9", which becomes current. *)
Theorem C1_reconciliation_on_completion :
  (forall message now1 now2 iso1 iso2 st cs,
      fresh now1 now2 (messages st) ->
      now1 <> (now2 + 1)%Z ->
      let '(c, store) := optimistic message now1 now2 iso1 iso2 st in
      let '(_, st') := completed c (run_chunks c cs store) in
      let conv :=
        latest truthy_str (currentConversation st) (map StreamChunk.conversation_id cs) in
      let uid := latest truthy_num None (map StreamChunk.user_message_id cs) in
      let aid := latest truthy_num None (map StreamChunk.assistant_message_id cs) in
      let before := or_undefined (currentConversation st) in
      let adopt := negb (truthy_str (currentConversation st)) && truthy_str conv in
      messages st' =
        messages st ++
          [match uid with
           | Some n => ChatMessage.mk n USER (JsString.trim message) conv iso1
           | None => ChatMessage.mk now1 USER (JsString.trim message) before iso1
           end;
           match aid with
           | Some n => ChatMessage.mk n ASSISTANT (all_content cs) conv iso2
           | None => ChatMessage.mk (now2 + 1) ASSISTANT (all_content cs) before iso2
           end]
      /\ currentConversation st' = (if adopt then conv else currentConversation st)
      /\ loadConversations_calls st' =
           (if adopt then S (loadConversations_calls st) else loadConversations_calls st))
  /\ (forall now1 now2 iso1 iso2,
        now1 <> (now2 + 1)%Z ->
        length (messages (snd (snd (optimistic "2+2?" now1 now2 iso1 iso2 st0)))) = 2
        /\ let st' := sendStreamMessage parse_chunk "2+2?" now1 now2 iso1 iso2 run_2plus2 st0 in
           messages st' =
             [ChatMessage.mk 101 USER "2+2?" (Some "conv-9") iso1;
              ChatMessage.mk 102 ASSISTANT "4" (Some "conv-9") iso2]
           /\ currentConversation st' = Some "conv-9"
           /\ loadConversations_calls st' = 1).
Proof.
  split.
  - intros message now1 now2 iso1 iso2 st cs Hfresh Hne.
    pose proof (completed_send message now1 now2 iso1 iso2 st cs Hfresh Hne) as H.
    destruct (optimistic message now1 now2 iso1 iso2 st) as [c store].
    destruct (completed c (run_chunks c cs store)) as [loc st'].
    cbv zeta in *. cbn [snd] in H. rewrite H. now cbn.
  - intros now1 now2 iso1 iso2 Hne. split; [reflexivity|]. cbv zeta.
    rewrite sendStreamMessage_events by reflexivity.
    pose proof (completed_send "2+2?" now1 now2 iso1 iso2 st0
                  [StreamChunk.mk (Some "4") None false None None None None;
                   StreamChunk.mk None None true None (Some "conv-9") (Some 101%Z) (Some 102%Z)]
                  ltac:(intros m []) Hne) as H.
    destruct (optimistic "2+2?" now1 now2 iso1 iso2 st0) as [c store].
    assert (events_of parse_chunk StreamChunk.finished run_2plus2 =
              map EvChunk
                [StreamChunk.mk (Some "4") None false None None None None;
                 StreamChunk.mk None None true None (Some "conv-9") (Some 101%Z) (Some 102%Z)]
              ++ [EvComplete]) as -> by (vm_compute; reflexivity).
    rewrite replay_app, replay_chunks.
    change (replay (chunked c) (failed c) (completed c) [EvComplete] ?s)
      with (completed c s).
    cbv zeta in H. rewrite H. now cbn.
Qed.

Lemma C1_reconciliation_on_completion_witness :
  let st := mkState [ChatMessage.mk 7 USER "hi" (Some "c0") "t0"] (Some "c0") false None 0 [] in
  let cs := [StreamChunk.mk (Some "ok") None false None None None None;
             StreamChunk.mk None None true None None (Some 8%Z) None] in
  fresh 1000 1000 (messages st)
  /\ 1000%Z <> (1000 + 1)%Z
  /\ (let '(c, store) := optimistic "q" 1000 1000 "t1" "t2" st in
      let '(_, st') := completed c (run_chunks c cs store) in
      messages st' =
        [ChatMessage.mk 7 USER "hi" (Some "c0") "t0";
         ChatMessage.mk 8 USER "q" (Some "c0") "t1";
         ChatMessage.mk 1001 ASSISTANT "ok" (Some "c0") "t2"]
      /\ currentConversation st' = Some "c0"
      /\ loadConversations_calls st' = 0).
Proof.
  cbv zeta.
  assert (fresh 1000 1000 [ChatMessage.mk 7 USER "hi" (Some "c0") "t0"]) as Hfresh.
  { intros m [<-|[]]. cbn. split; discriminate. }
  assert (1000%Z <> (1000 + 1)%Z) as Hne by discriminate.
  split; [exact Hfresh|split; [exact Hne|]].
  exact (proj1 C1_reconciliation_on_completion "q" 1000%Z 1000%Z "t1" "t2"
           (mkState [ChatMessage.mk 7 USER "hi" (Some "c0") "t0"] (Some "c0") false None 0 [])
           [StreamChunk.mk (Some "ok") None false None None None None;
            StreamChunk.mk None None true None None (Some 8%Z) None]
           Hfresh Hne).
Defined.
(** The messages that [onError] leaves after the chunks [cs]. *)
Lemma failed_send message now1 now2 iso1 iso2 st cs e :
  let '(c, store) := optimistic message now1 now2 iso1 iso2 st in
  let st' := snd (failed c e (run_chunks c cs store)) in
  (forall m, In m (messages st') ->
     ChatMessage.id m <> now1 /\ ChatMessage.id m <> (now2 + 1)%Z)
  /\ toasts st' = toasts st ++ [SendFailed]
  /\ currentConversation st' = currentConversation st
  /\ (fresh now1 now2 (messages st) -> messages st' = messages st).
Proof.
  pose proof (optimistic_chunks message now1 now2 iso1 iso2 st cs) as H.
  destruct (optimistic message now1 now2 iso1 iso2 st) as [c store].
  destruct H as (Hc & _ & Hst). cbv zeta.
  destruct (run_chunks c cs store) as [loc hs]. cbn [snd] in Hst.
  unfold failed, onError. cbn [snd]. subst hs.
  unfold setMessages, toast_error.
  cbn [messages toasts currentConversation].
  assert (userMessage c = ChatMessage.mk now1 USER (JsString.trim message)
            (or_undefined (currentConversation st)) iso1) as Hu by now rewrite Hc.
  assert (tempAssistantId c = (now2 + 1)%Z) as Ht by now rewrite Hc.
  split; [|split; [reflexivity|split; [reflexivity|]]].
  - intros m Hm. apply filter_In in Hm. destruct Hm as [_ Hm].
    apply survives_iff in Hm. rewrite Hu, Ht in Hm. cbn in Hm. tauto.
  - intros Hfresh. rewrite map_app, !filter_app.
    set (f := if has_content cs then patch_content c (all_content cs) else fun m => m).
    assert (forall m, ChatMessage.id (f m) = ChatMessage.id m) as Hid.
    { intros m. unfold f. destruct (has_content cs); [apply patch_id|reflexivity]. }
    assert (map f (messages st) = messages st) as ->.
    { apply map_fixed. intros m Hm. unfold f. destruct (has_content cs); [|reflexivity].
      apply patch_other. rewrite Ht. now apply Hfresh. }
    rewrite filter_all.
    + cbn [map filter]. unfold survives. rewrite Hid, Ht. cbn [ChatMessage.id].
      rewrite Hu. cbn [ChatMessage.id]. rewrite !Z.eqb_refl. cbn.
      rewrite andb_false_r. now rewrite !app_nil_r.
    + intros m Hm. destruct (Hfresh m Hm). apply survives_other; [now rewrite Hu|now rewrite Ht].
Qed.

(** C2.  When the error callback fires for a send, no message
    with one of the two placeholder ids of that send is left in the list
    and the failure is shown to the user; when the placeholder ids were
    not in use before the send, the list is the list before the send, of
    the same length. *)
Theorem C2_rollback_on_error :
  forall JSON_parse message now1 now2 iso1 iso2 t st,
    JsString.truthy (JsString.trim message) = true ->
    count is_error (Api.trace JSON_parse StreamChunk.finished t) = 1 ->
    let st' := sendStreamMessage JSON_parse message now1 now2 iso1 iso2 t st in
    (forall m, In m (messages st') ->
       ChatMessage.id m <> now1 /\ ChatMessage.id m <> (now2 + 1)%Z)
    /\ toasts st' = toasts st ++ [SendFailed]
    /\ (fresh now1 now2 (messages st) ->
          messages st' = messages st
          /\ length (messages st') = length (messages st)).
Proof.
  intros JSON_parse message now1 now2 iso1 iso2 t st Hm Herr. cbv zeta.
  rewrite sendStreamMessage_events by assumption.
  destruct (trace_shape JSON_parse StreamChunk.finished t)
    as (chunks & terminal & Htr & _ & Hterm).
  rewrite Htr, count_app, count_chunks in Herr by reflexivity.
  destruct Hterm as [->|[(d & _ & ->)|(e & ->)]]; try discriminate.
  rewrite trace_spec in Htr. rewrite Htr.
  pose proof (failed_send message now1 now2 iso1 iso2 st chunks e) as H.
  destruct (optimistic message now1 now2 iso1 iso2 st) as [c store].
  rewrite replay_app, replay_chunks.
  change (replay (chunked c) (failed c) (completed c) [EvError e] ?s) with (failed c e s).
  cbv zeta in H. destruct H as (H1 & H2 & _ & H3).
  split; [exact H1|split; [exact H2|]].
  intros Hfresh. cbn [messages setIsLoading]. specialize (H3 Hfresh).
  cbn [messages setIsLoading] in *. now rewrite H3.
Qed.

Lemma C2_rollback_on_error_witness :
  let hello_st := mkState [ChatMessage.mk 7 USER "hi" (Some "c0") "t0"] (Some "c0") false None 0 [] in
  let st' := sendStreamMessage parse_chunk "hello" 1000 1000 "t1" "t2"
               (Response false 500 None) hello_st in
  JsString.truthy (JsString.trim "hello") = true
  /\ count is_error (Api.trace parse_chunk StreamChunk.finished (Response false 500 None)) = 1
  /\ fresh 1000 1000 (messages hello_st)
  /\ messages st' = messages hello_st
  /\ toasts st' = [SendFailed].
Proof.
  cbv zeta.
  assert (fresh 1000 1000 [ChatMessage.mk 7 USER "hi" (Some "c0") "t0"]) as Hfresh.
  { intros m [<-|[]]. cbn. split; discriminate. }
  destruct (C2_rollback_on_error parse_chunk "hello" 1000 1000 "t1" "t2"
              (Response false 500 None)
              (mkState [ChatMessage.mk 7 USER "hi" (Some "c0") "t0"] (Some "c0") false None 0 [])
              eq_refl eq_refl) as (_ & Ht & Hm).
  destruct (Hm Hfresh) as [Hm' _].
  split; [reflexivity|split; [reflexivity|split; [exact Hfresh|split; [exact Hm'|exact Ht]]]].
Defined.


(** C8, counterexample to the claim as stated.  Two chunks carry a user
    message id, 7 and then 0: the latest chunk in which the field is present gives 0, the
    callback keeps 7. *)
Lemma C8_present_falsy_field_does_not_overwrite :
  let '(c, store) := optimistic "q" 1000 1000 "t1" "t2" st0 in
  finalUserMessageId (fst (run_chunks c chunks_zero_id store)) = Some 7%Z
  /\ latest present None (map StreamChunk.user_message_id chunks_zero_id) = Some 0%Z
  /\ finalUserMessageId (fst (run_chunks c chunks_zero_id store))
       <> latest present None (map StreamChunk.user_message_id chunks_zero_id).
Proof. vm_compute. repeat split. discriminate. Qed.

(** C8, as amended.  Over any sequence of chunks the accumulated content
    is the concatenation of the content fields in arrival order, it is
    the content of the assistant placeholder, and each metadata field is
    the value of the latest chunk in which it was truthy (a non-empty
    string, a number other than zero): a chunk where the field is absent,
    empty or zero leaves the value as it was.  For the three chunks of
    the example the content is "AB", the conversation id "c1" and the
    ids 1 and 2. *)
Theorem C8_stream_reduction :
  (forall c cs loc0 hs0,
      let loc := fst (run_chunks c cs (loc0, hs0)) in
      fullContent loc = (fullContent loc0 ++ all_content cs)%string
      /\ finalConversationId loc =
           latest truthy_str (finalConversationId loc0) (map StreamChunk.conversation_id cs)
      /\ finalUserMessageId loc =
           latest truthy_num (finalUserMessageId loc0) (map StreamChunk.user_message_id cs)
      /\ finalAssistantMessageId loc =
           latest truthy_num (finalAssistantMessageId loc0)
             (map StreamChunk.assistant_message_id cs))
  /\ (forall message now1 now2 iso1 iso2 st cs,
        let '(c, store) := optimistic message now1 now2 iso1 iso2 st in
        let '(loc, hs) := run_chunks c cs store in
        fullContent loc = all_content cs
        /\ exists earlier,
             messages hs =
               earlier ++ [ChatMessage.mk (now2 + 1) ASSISTANT (all_content cs)
                             (or_undefined (currentConversation st)) iso2])
  /\ (forall (A : Type) (keep : A -> bool) (init x : A) (xs : list A),
        latest keep init [] = init
        /\ latest keep init (xs ++ [x]) = (if keep x then x else latest keep init xs))
  /\ (forall now1 now2 iso1 iso2,
        let '(c, store) := optimistic "q" now1 now2 iso1 iso2 st0 in
        let '(loc, hs) := run_chunks c chunks_AB store in
        loc = mkLocals "AB" (Some "c1") (Some 1%Z) (Some 2%Z)
        /\ exists earlier,
             messages hs = earlier ++ [ChatMessage.mk (now2 + 1) ASSISTANT "AB" None iso2]).
Proof.
  split; [|split; [|split]].
  - intros c cs loc0 hs0. cbv zeta. rewrite run_chunks_spec. cbn. auto.
  - intros message now1 now2 iso1 iso2 st cs.
    pose proof (optimistic_chunks message now1 now2 iso1 iso2 st cs) as H.
    destruct (optimistic message now1 now2 iso1 iso2 st) as [c store].
    destruct H as (_ & Hloc & Hst).
    destruct (run_chunks c cs store) as [loc hs]. cbn [fst snd] in *.
    subst loc hs. cbn [fullContent messages]. split; [reflexivity|]. eauto.
  - intros. split; [reflexivity|apply latest_snoc].
  - intros now1 now2 iso1 iso2.
    pose proof (optimistic_chunks "q" now1 now2 iso1 iso2 st0 chunks_AB) as H.
    destruct (optimistic "q" now1 now2 iso1 iso2 st0) as [c store].
    destruct H as (Hc & Hloc & Hst).
    destruct (run_chunks c chunks_AB store) as [loc hs]. cbn [fst snd] in *.
    subst loc hs. split; [reflexivity|]. cbn [messages]. eauto.
Qed.

(** C10.  When the response is OK with a readable body, no
    read is rejected and no complete line is a frame with [finished], the
    call resolves with neither [onComplete] nor [onError] called: the
    two optimistic messages stay in the list with their placeholder ids,
    no failure is shown, the current conversation is kept and the
    streaming reference is never cleared. *)
Theorem C10_stream_ends_without_terminal_callback :
  forall JSON_parse message now1 now2 iso1 iso2 status reads st,
    JsString.truthy (JsString.trim message) = true ->
    rejection reads = None ->
    existsb (finishing JSON_parse StreamChunk.finished)
      (complete_lines (text_of (values_before reads))) = false ->
    let t := Response true status (Some reads) in
    let tr := Api.trace JSON_parse StreamChunk.finished t in
    count is_complete tr = 0
    /\ count is_error tr = 0
    /\ (let '(c, store) := optimistic message now1 now2 iso1 iso2 st in
        exists s',
          Api.sendStreamMessage JSON_parse StreamChunk.finished
            (onChunk c) (onError c) (onComplete c) t store = Normal s')
    /\ let st' := sendStreamMessage JSON_parse message now1 now2 iso1 iso2 t st in
       map ChatMessage.id (messages st') =
         map ChatMessage.id (messages st) ++ [now1; (now2 + 1)%Z]
       /\ toasts st' = toasts st
       /\ currentConversation st' = currentConversation st
       /\ loadConversations_calls st' = loadConversations_calls st
       /\ streamingMessageRef st' = Some (now2 + 1)%Z
       /\ isLoading st' = false.
Proof.
  intros JSON_parse message now1 now2 iso1 iso2 status reads st Hm Hrej Hfin. cbv zeta.
  assert (exists chunks,
             events_of JSON_parse StreamChunk.finished (Response true status (Some reads)) =
               map EvChunk chunks) as (chunks & Hev).
  { cbn [events_of negb]. rewrite Hrej.
    pose proof (events_of_lines_fin JSON_parse StreamChunk.finished
                  (complete_lines (text_of (values_before reads)))) as Hf.
    destruct (events_of_lines_shape JSON_parse StreamChunk.finished
                (complete_lines (text_of (values_before reads)))) as (chunks & _ & H).
    rewrite Hfin in Hf. rewrite Hf in H.
    destruct (events_of_lines _ _ _) as [evs fin]. cbn [fst snd] in *. subst fin.
    now exists chunks. }
  rewrite sendStreamMessage_events by assumption.
  rewrite trace_spec, Hev.
  split; [now apply count_chunks|split; [now apply count_chunks|]].
  pose proof (optimistic_chunks message now1 now2 iso1 iso2 st chunks) as H.
  destruct (optimistic message now1 now2 iso1 iso2 st) as [c store].
  destruct H as (Hc & _ & Hst).
  split.
  - eexists.
    apply (sendStreamMessage_replay JSON_parse StreamChunk.finished
             (chunked c) (failed c) (completed c));
      intros; auto using onChunk_returns, onError_returns, onComplete_returns.
  - rewrite replay_chunks, Hst.
    cbn [setIsLoading messages toasts currentConversation loadConversations_calls
           streamingMessageRef isLoading].
    repeat split.
    rewrite map_app, map_map, map_app. cbn [map ChatMessage.id]. rewrite <- app_assoc.
    rewrite Hc at 2. cbn [userMessage]. f_equal; [|f_equal].
    + apply map_ext. intros m. destruct (has_content chunks); [apply patch_id|reflexivity].
    + destruct (has_content chunks); [rewrite patch_id|]; reflexivity.
Qed.

Lemma C10_stream_ends_without_terminal_callback_witness :
  let st' := sendStreamMessage parse_chunk "2+2?" 1000 1000 "t1" "t2" run_cut_short st0 in
  count is_complete (Api.trace parse_chunk StreamChunk.finished run_cut_short) = 0
  /\ count is_error (Api.trace parse_chunk StreamChunk.finished run_cut_short) = 0
  /\ map ChatMessage.id (messages st') = [1000%Z; 1001%Z]
  /\ toasts st' = [].
Proof.
  destruct (C10_stream_ends_without_terminal_callback parse_chunk "2+2?" 1000 1000 "t1" "t2"
              200 [Value (wire "data: {'content':'4','finished':false}" ++ lf ++ lf)] st0
              eq_refl eq_refl eq_refl) as (H1 & H2 & _ & H3 & H4 & _).
  cbv zeta. split; [exact H1|split; [exact H2|split; [exact H3|exact H4]]].
Defined.
End ChatClaims.

(** ** Notifications: the buffer of the hook and the polling watermark *)

Module NotificationFacts.
Import Api Notification.

Lemma existsb_event_id event buf :
  existsb (fun n => String.eqb (event_id n) (event_id event)) buf = true <->
  In (event_id event) (map event_id buf).
Proof.
  rewrite existsb_exists, in_map_iff. split.
  - intros (n & Hn & E). apply String.eqb_eq in E. eauto.
  - intros (n & E & Hn). exists n. split; [assumption|]. now apply String.eqb_eq.
Qed.

Lemma NoDup_skipn {A} n (l : list A) : NoDup l -> NoDup (skipn n l).
Proof.
  intros H. rewrite <- (firstn_skipn n l) in H. now apply NoDup_app_remove_l in H.
Qed.

Lemma in_skipn {A} n (l : list A) x : In x (skipn n l) -> In x l.
Proof.
  intros H. rewrite <- (firstn_skipn n l). apply in_or_app. now right.
Qed.

Lemma handle_known event buf :
  In (event_id event) (map event_id buf) -> handleNotificationEvent event buf = buf.
Proof.
  intros H. unfold handleNotificationEvent.
  apply existsb_event_id in H. now rewrite H.
Qed.

Lemma handle_new event buf :
  ~ In (event_id event) (map event_id buf) ->
  handleNotificationEvent event buf = slice_minus100 (buf ++ [event]).
Proof.
  intros H. unfold handleNotificationEvent.
  destruct (existsb _ buf) eqn:E; [|reflexivity].
  now apply existsb_event_id in E.
Qed.


Lemma handle_invariant event buf :
  bounded_distinct buf -> bounded_distinct (handleNotificationEvent event buf).
Proof.
  intros [Hnd Hlen].
  destruct (in_dec string_dec (event_id event) (map event_id buf)) as [Hin|Hin].
  - rewrite handle_known by assumption. now split.
  - rewrite handle_new by assumption. unfold slice_minus100. split.
    + rewrite <- skipn_map. apply NoDup_skipn.
      rewrite map_app. cbn [map].
      apply NoDup_app; [assumption|constructor; [intros []|constructor]|].
      intros x Hx [<-|[]]. contradiction.
    + rewrite length_skipn. lia.
Qed.

Lemma dispatch_all_invariant events : forall buf,
  bounded_distinct buf -> bounded_distinct (dispatch_all events buf).
Proof.
  induction events as [|e events IH]; intros buf H; [exact H|].
  cbn. apply IH, handle_invariant, H.
Qed.

Lemma dispatch_all_snoc events e buf :
  dispatch_all (events ++ [e]) buf = handleNotificationEvent e (dispatch_all events buf).
Proof. unfold dispatch_all. now rewrite fold_left_app. Qed.

(** Events with distinct ids: the buffer holds the last hundred. *)
Lemma dispatch_all_distinct events :
  NoDup (map event_id events) ->
  dispatch_all events [] = skipn (length events - 100) events.
Proof.
  induction events as [|e events IH] using rev_ind; intros Hnd; [reflexivity|].
  rewrite map_app in Hnd. cbn [map] in Hnd.
  rewrite dispatch_all_snoc, IH by (now apply NoDup_app_remove_r in Hnd).
  rewrite handle_new.
  - unfold slice_minus100. rewrite !length_app, length_skipn. cbn [length].
    destruct (le_lt_dec (length events) 100) as [Hle|Hgt].
    + replace (length events - 100) with 0 by lia. cbn [skipn].
      f_equal. lia.
    + replace (length events - (length events - 100) + 1 - 100) with 1 by lia.
      replace (length events + 1 - 100) with (1 + (length events - 100)) by lia.
      rewrite <- skipn_skipn. f_equal.
      rewrite skipn_app.
      replace (length events - 100 - length events) with 0 by lia. reflexivity.
  - intros Hin. rewrite <- skipn_map in Hin. apply in_skipn in Hin.
    apply NoDup_remove_2 in Hnd. apply Hnd. rewrite app_nil_r. exact Hin.
Qed.
End NotificationFacts.


Module NotificationClaims.
Import Api Notification NotificationFacts.

Lemma tally_injective a b : tally a = tally b -> a = b.
Proof.
  revert b. induction a as [|a IH]; intros [|b]; cbn; try discriminate; [reflexivity|].
  intros [= H]. f_equal. now apply IH.
Qed.

Lemma sample_events_distinct : NoDup (map event_id sample_events).
Proof.
  unfold sample_events. rewrite map_map. cbn [sample_event event_id].
  apply Injective_map_NoDup; [exact tally_injective|apply seq_NoDup].
Qed.

(** C9.  The buffer of the hook never holds two events with
    the same id nor more than 100 events; dispatching events with
    distinct ids leaves the last 100 in arrival order (of 105, all but
    the first five); an event whose id is in the buffer leaves it
    unchanged. *)
Theorem C9_notification_buffer :
  (forall events,
      NoDup (map event_id (dispatch_all events [])) /\ length (dispatch_all events []) <= 100)
  /\ (forall event buf,
        NoDup (map event_id buf) -> length buf <= 100 ->
        NoDup (map event_id (handleNotificationEvent event buf))
        /\ length (handleNotificationEvent event buf) <= 100)
  /\ (forall events,
        NoDup (map event_id events) ->
        dispatch_all events [] = skipn (length events - 100) events)
  /\ (forall events,
        NoDup (map event_id events) -> length events = 105 ->
        dispatch_all events [] = skipn 5 events /\ length (dispatch_all events []) = 100)
  /\ (forall event buf,
        In (event_id event) (map event_id buf) -> handleNotificationEvent event buf = buf).
Proof.
  split; [|split; [|split; [|split]]].
  - intros events. apply dispatch_all_invariant. split; [constructor|cbn; lia].
  - intros event buf H1 H2. now apply handle_invariant.
  - exact dispatch_all_distinct.
  - intros events Hnd Hlen. rewrite dispatch_all_distinct by assumption.
    rewrite Hlen. split; [reflexivity|]. rewrite length_skipn. cbn. lia.
  - exact handle_known.
Qed.

Lemma C9_notification_buffer_witness :
  NoDup (map event_id sample_events)
  /\ length sample_events = 105
  /\ dispatch_all sample_events [] = map sample_event (seq 6 100)
  /\ handleNotificationEvent (sample_event 50) (dispatch_all sample_events []) =
       dispatch_all sample_events [].
Proof.
  destruct C9_notification_buffer as (_ & _ & _ & H105 & Hdup).
  destruct (H105 sample_events sample_events_distinct eq_refl) as [E _].
  split; [exact sample_events_distinct|split; [reflexivity|split]].
  - rewrite E. reflexivity.
  - apply Hdup. rewrite E. 
    change (skipn 5 sample_events) with (map sample_event (seq 6 100)).
    rewrite map_map. apply in_map_iff. exists 50. split; [reflexivity|].
    apply in_seq. lia.
Defined.

(** ** Polling *)





End NotificationClaims.

(** ** The rest of the client *)

Module SubscriptionFacts.
Import Api Notification Subscriptions.

Section Registry.
Context {S : Type}.
Implicit Types (reg : Registry S) (l : Registered S) (t : NotificationType).

Lemma NotificationType_eqb_eq a b : NotificationType_eqb a b = true <-> a = b.
Proof. destruct a, b; cbn; split; congruence. Qed.

Lemma NotificationType_eqb_sym a b : NotificationType_eqb a b = NotificationType_eqb b a.
Proof. now destruct a, b. Qed.

Lemma get_update t t' f (m : list (NotificationType * list (Registered S))) :
  get t' (update t f m) =
    if NotificationType_eqb t t' then option_map f (get t' m) else get t' m.
Proof.
  induction m as [|[k ls] m IH]; cbn [update get].
  - now destruct (NotificationType_eqb t t').
  - destruct (NotificationType_eqb k t) eqn:Ek.
    + apply NotificationType_eqb_eq in Ek. subst k. cbn [get].
      destruct (NotificationType_eqb t t'); reflexivity.
    + cbn [get]. destruct (NotificationType_eqb k t') eqn:Ek'; [|exact IH].
      apply NotificationType_eqb_eq in Ek'. subst k.
      now rewrite NotificationType_eqb_sym, Ek.
Qed.

Lemma get_snoc t t' ls (m : list (NotificationType * list (Registered S))) :
  get t' (m ++ [(t, ls)]) =
    match get t' m with
    | Some x => Some x
    | None => if NotificationType_eqb t t' then Some ls else None
    end.
Proof.
  induction m as [|[k x] m IH]; cbn [app get]; [reflexivity|].
  now destruct (NotificationType_eqb k t').
Qed.

Lemma eqb_refl t : NotificationType_eqb t t = true.
Proof. now destruct t. Qed.

(** The listeners of every type after [subscribe]. *)
Lemma registered_for_subscribe t t' l reg :
  registered_for t' (subscribe t l reg) =
    if NotificationType_eqb t t' then registered_for t' reg ++ [l]
    else registered_for t' reg.
Proof.
  unfold registered_for, subscribe. cbn [listeners].
  rewrite get_update.
  destruct (NotificationType_eqb t t') eqn:E.
  - apply NotificationType_eqb_eq in E. subst t'.
    destruct (get t (listeners reg)) eqn:G; cbn [option_map].
    + now rewrite G.
    + rewrite get_snoc, G, eqb_refl. reflexivity.
  - destruct (get t (listeners reg)) eqn:G; [reflexivity|].
    rewrite get_snoc. destruct (get t' (listeners reg)); [reflexivity|]. now rewrite E.
Qed.

Lemma registered_for_unsubscribe t t' l reg :
  registered_for t' (unsubscribe t l reg) =
    if NotificationType_eqb t t' then remove_first (ref l) (registered_for t' reg)
    else registered_for t' reg.
Proof.
  unfold registered_for, unsubscribe.
  destruct (get t (listeners reg)) eqn:G.
  - cbn [listeners]. rewrite get_update.
    destruct (NotificationType_eqb t t') eqn:E; [|reflexivity].
    apply NotificationType_eqb_eq in E. subst t'. now rewrite G.
  - destruct (NotificationType_eqb t t') eqn:E; [|reflexivity].
    apply NotificationType_eqb_eq in E. subst t'. now rewrite G.
Qed.

Lemma remove_first_absent r (xs : list (Registered S)) :
  ~ In r (map ref xs) -> remove_first r xs = xs.
Proof.
  induction xs as [|x xs IH]; intros H; [reflexivity|].
  cbn in *. destruct (Nat.eqb (ref x) r) eqn:E.
  - apply Nat.eqb_eq in E. tauto.
  - f_equal. apply IH. tauto.
Qed.

Lemma remove_first_snoc_absent r (xs : list (Registered S)) l :
  ref l = r -> ~ In r (map ref xs) -> remove_first r (xs ++ [l]) = xs.
Proof.
  intros Hl. induction xs as [|x xs IH]; intros H; cbn.
  - subst r. now rewrite Nat.eqb_refl.
  - cbn in H. destruct (Nat.eqb (ref x) r) eqn:E.
    + apply Nat.eqb_eq in E. tauto.
    + f_equal. apply IH. tauto.
Qed.

Lemma count_remove_first r r' (xs : list (Registered S)) :
  count_ref r' (remove_first r xs) =
    if Nat.eqb r r' then pred (count_ref r' xs) else count_ref r' xs.
Proof.
  unfold count_ref. induction xs as [|x xs IH]; cbn [remove_first filter].
  - now destruct (Nat.eqb r r').
  - destruct (Nat.eqb (ref x) r) eqn:E.
    + apply Nat.eqb_eq in E. rewrite E.
      destruct (Nat.eqb r r') eqn:E'; [reflexivity|].
      reflexivity.
    + cbn [filter]. destruct (Nat.eqb (ref x) r') eqn:E2.
      * cbn [length]. rewrite IH. destruct (Nat.eqb r r') eqn:E'; [|reflexivity].
        apply Nat.eqb_eq in E'. apply Nat.eqb_eq in E2. apply Nat.eqb_neq in E. congruence.
      * exact IH.
Qed.

Lemma others_remove_first r (xs : list (Registered S)) :
  filter (fun x => negb (Nat.eqb (ref x) r)) (remove_first r xs) =
  filter (fun x => negb (Nat.eqb (ref x) r)) xs.
Proof.
  induction xs as [|x xs IH]; [reflexivity|].
  cbn [remove_first filter]. destruct (Nat.eqb (ref x) r) eqn:E; cbn [negb]; [reflexivity|].
  cbn [filter]. rewrite E. cbn [negb]. now rewrite IH.
Qed.

Lemma remove_first_twice r (xs : list (Registered S)) :
  count_ref r xs <= 1 -> remove_first r (remove_first r xs) = remove_first r xs.
Proof.
  intros H. apply remove_first_absent. intros Hin.
  apply in_map_iff in Hin. destruct Hin as (x & Hx & Hin).
  pose proof (count_remove_first r r xs) as Hc. rewrite Nat.eqb_refl in Hc.
  assert (count_ref r (remove_first r xs) >= 1).
  { unfold count_ref.
    assert (In x (filter (fun y => Nat.eqb (ref y) r) (remove_first r xs))) as Hf.
    { apply filter_In. split; [assumption|]. now apply Nat.eqb_eq. }
    destruct (filter _ (remove_first r xs)); [destruct Hf|cbn; lia]. }
  lia.
Qed.
End Registry.

(** *** Dispatch *)

Lemma call_each_logging (ls : list (Registered (list nat))) event log :
  all_logging ls -> call_each (map run ls) event log = log ++ map ref ls.
Proof.
  revert log. induction ls as [|x ls IH]; intros log H; cbn.
  - now rewrite app_nil_r.
  - inversion H as [|? ? [throws Hx] Hrest]; subst.
    rewrite Hx. cbn. destruct throws; rewrite IH, <- app_assoc by assumption; reflexivity.
Qed.

Lemma listeners_get_service {S : Type} t (m : list (NotificationType * list (Registered S))) :
  listeners_get t (map (fun '(t, ls) => (t, map run ls)) m) = option_map (map run) (get t m).
Proof.
  induction m as [|[k ls] m IH]; [reflexivity|].
  cbn. destruct (NotificationType_eqb k t); [reflexivity|exact IH].
Qed.

(** Dispatch depends on the registered listeners only. *)
Lemma trigger_spec {S : Type} (reg : Registry S) event (s : S) :
  trigger reg event s =
    call_each (map run (globalListeners reg)) event
      (call_each (map run (registered_for (event_type event) reg)) event s).
Proof.
  unfold trigger, triggerListeners, service_of, registered_for.
  cbn [Notification.listeners Notification.globalListeners].
  rewrite listeners_get_service.
  now destruct (get (event_type event) (listeners reg)).
Qed.

(** X1.  Subscribing a listener that is not yet registered for a type and
    then calling the function that subscribe returned restores the listeners
    of every type and the global listeners: every event triggers the same
    calls as before. *)
Theorem subscribe_unsubscribe_round_trip :
  forall (S : Type) (t : NotificationType) (l : Registered S) (reg : Registry S),
    ~ In (ref l) (map ref (registered_for t reg)) ->
    (forall t', registered_for t' (unsubscribe t l (subscribe t l reg)) = registered_for t' reg)
    /\ globalListeners (unsubscribe t l (subscribe t l reg)) = globalListeners reg
    /\ (forall event s,
          trigger (unsubscribe t l (subscribe t l reg)) event s = trigger reg event s).
Proof.
  intros S t l reg Hfresh.
  assert (forall t', registered_for t' (unsubscribe t l (subscribe t l reg)) =
                     registered_for t' reg) as H.
  { intros t'. rewrite registered_for_unsubscribe, registered_for_subscribe.
    destruct (NotificationType_eqb t t') eqn:E; [|reflexivity].
    apply NotificationType_eqb_eq in E. subst t'.
    now apply remove_first_snoc_absent. }
  assert (globalListeners (unsubscribe t l (subscribe t l reg)) = globalListeners reg) as G.
  { unfold unsubscribe. now destruct (get t (listeners (subscribe t l reg))). }
  split; [exact H|split; [exact G|]].
  intros event s. now rewrite !trigger_spec, H, G.
Qed.

(** X2.  The function that subscribe returns removes one registration of its
    listener, the first, and nothing else: the other listeners keep their
    order, the other types are untouched; a second call removes nothing when
    the listener was registered at most once, and a listener registered
    twice is gone after two calls. *)
Theorem unsubscribe_removes_one_registration :
  forall (S : Type) (t : NotificationType) (l : Registered S) (reg : Registry S),
    (forall r,
        count_ref r (registered_for t (unsubscribe t l reg)) =
          if Nat.eqb (ref l) r then pred (count_ref r (registered_for t reg))
          else count_ref r (registered_for t reg))
    /\ filter (fun x => negb (Nat.eqb (ref x) (ref l))) (registered_for t (unsubscribe t l reg)) =
       filter (fun x => negb (Nat.eqb (ref x) (ref l))) (registered_for t reg)
    /\ (forall t', t' <> t ->
          registered_for t' (unsubscribe t l reg) = registered_for t' reg)
    /\ (count_ref (ref l) (registered_for t reg) <= 1 ->
        forall t', registered_for t' (unsubscribe t l (unsubscribe t l reg)) =
                   registered_for t' (unsubscribe t l reg))
    /\ (forall a b rest,
          registered_for t reg = a :: b :: rest -> ref a = ref l -> ref b = ref l ->
          registered_for t (unsubscribe t l reg) = b :: rest
          /\ registered_for t (unsubscribe t l (unsubscribe t l reg)) = rest).
Proof.
  intros S t l reg.
  split; [|split; [|split; [|split]]].
  - intros r. rewrite registered_for_unsubscribe, eqb_refl. apply count_remove_first.
  - rewrite registered_for_unsubscribe, eqb_refl. apply others_remove_first.
  - intros t' Hne. rewrite registered_for_unsubscribe.
    destruct (NotificationType_eqb t t') eqn:E; [|reflexivity].
    apply NotificationType_eqb_eq in E. congruence.
  - intros Hc t'. rewrite !registered_for_unsubscribe.
    destruct (NotificationType_eqb t t') eqn:E; [|reflexivity].
    apply NotificationType_eqb_eq in E. subst t'. now apply remove_first_twice.
  - intros a b rest Hreg Ha Hb.
    rewrite !registered_for_unsubscribe, eqb_refl, Hreg. cbn [remove_first].
    apply Nat.eqb_eq in Ha, Hb. rewrite Ha. cbn [remove_first]. now rewrite Hb.
Qed.

(** X3.  An event is delivered to every listener of its type in subscription
    order and then to every global listener, each once; a listener that
    throws does not keep the later ones from being called.  Stated for
    listeners that record their call in a log and then return or throw. *)
Theorem every_listener_is_called_in_order :
  forall (reg : Registry (list nat)) (event : NotificationEvent) (log : list nat),
    all_logging (registered_for (event_type event) reg) ->
    all_logging (globalListeners reg) ->
    trigger reg event log =
      log ++ map ref (registered_for (event_type event) reg) ++ map ref (globalListeners reg).
Proof.
  intros reg event log Ht Hg.
  rewrite trigger_spec, !call_each_logging by assumption. now rewrite app_assoc.
Qed.

Lemma subscribe_unsubscribe_round_trip_witness :
  let reg := subscribe MESSAGE_RECEIVED (logging 1 false) (mkRegistry [] []) in
  let l := logging 2 true in
  ~ In (ref l) (map ref (registered_for MESSAGE_RECEIVED reg))
  /\ registered_for MESSAGE_RECEIVED
       (unsubscribe MESSAGE_RECEIVED l (subscribe MESSAGE_RECEIVED l reg)) =
     [logging 1 false].
Proof.
  cbv zeta.
  assert (~ In (ref (logging 2 true))
            (map ref (registered_for MESSAGE_RECEIVED
                        (subscribe MESSAGE_RECEIVED (logging 1 false) (mkRegistry [] [])))))
    as H by (cbn; intros [?|[]]; discriminate).
  split; [exact H|].
  destruct (subscribe_unsubscribe_round_trip (list nat) MESSAGE_RECEIVED (logging 2 true)
              (subscribe MESSAGE_RECEIVED (logging 1 false) (mkRegistry [] [])) H)
    as (Hr & _ & _).
  rewrite Hr. reflexivity.
Defined.

Lemma every_listener_is_called_in_order_witness :
  let reg :=
    subscribeAll (logging 3 false)
      (subscribe SYSTEM_NOTIFICATION (logging 2 true)
         (subscribe SYSTEM_NOTIFICATION (logging 1 false) (mkRegistry [] []))) in
  all_logging (registered_for SYSTEM_NOTIFICATION reg)
  /\ all_logging (globalListeners reg)
  /\ trigger reg (sample_event 1) [] = [1; 2; 3].
Proof.
  cbv zeta.
  set (reg := subscribeAll (logging 3 false)
                (subscribe SYSTEM_NOTIFICATION (logging 2 true)
                   (subscribe SYSTEM_NOTIFICATION (logging 1 false) (mkRegistry [] [])))).
  assert (all_logging (registered_for (event_type (sample_event 1)) reg)) as H1.
  { cbn. constructor; [exists false; reflexivity|].
    constructor; [exists true; reflexivity|constructor]. }
  assert (all_logging (globalListeners reg)) as H2.
  { cbn. constructor; [exists false; reflexivity|constructor]. }
  split; [exact H1|split; [exact H2|]].
  exact (every_listener_is_called_in_order reg (sample_event 1) [] H1 H2).
Defined.

End SubscriptionFacts.


Module LifeFacts.
Import Api Notification Subscriptions.

Lemma live_intervals_app es es' live :
  live_intervals (es ++ es') live = live_intervals es' (live_intervals es live).
Proof.
  revert live. induction es as [|e es IH]; intros live; [reflexivity|].
  destruct e; cbn; apply IH.
Qed.

Lemma one_timer_startPolling l : one_timer l -> one_timer (startPolling l).
Proof.
  intros H. unfold startPolling.
  destruct (isPolling l) eqn:E; [exact H|]. destruct H as [Hflag Hlive].
  split; cbn; [split; [discriminate|reflexivity]|].
  rewrite live_intervals_app, Hlive.
  destruct (pollingInterval l) as [h|]; [|reflexivity].
  assert (isPolling l = true) by (apply Hflag; discriminate). congruence.
Qed.

Lemma one_timer_stopPolling l : one_timer l -> one_timer (stopPolling l).
Proof.
  intros [Hflag Hlive]. unfold stopPolling.
  destruct (pollingInterval l) as [h|] eqn:E; split; cbn.
  - split; [discriminate|congruence].
  - rewrite live_intervals_app, Hlive. cbn. now rewrite Nat.eqb_refl.
  - rewrite E. split; [discriminate|congruence].
  - now rewrite E, Hlive.
Qed.

Lemma one_timer_stopSSE l : one_timer l -> one_timer (stopSSE l).
Proof.
  intros [Hflag Hlive]. unfold stopSSE.
  destruct (eventSource l) as [h|]; [|now split].
  split; cbn; [exact Hflag|]. rewrite live_intervals_app, Hlive. reflexivity.
Qed.

Lemma stopSSE_fields l :
  isPolling (stopSSE l) = isPolling l
  /\ eventSource (stopSSE l) = None
  /\ live_intervals (effects (stopSSE l)) [] = live_intervals (effects l) [].
Proof.
  unfold stopSSE. destruct (eventSource l) eqn:E; cbn; [|auto].
  now rewrite live_intervals_app.
Qed.

Lemma startPolling_fields l :
  isPolling (startPolling l) = true /\ eventSource (startPolling l) = eventSource l.
Proof. unfold startPolling. destruct (isPolling l) eqn:E; cbn; auto. Qed.

Lemma one_timer_emit e l :
  (forall h ms, e <> SetInterval h ms) -> (forall h, e <> ClearInterval h) ->
  one_timer l -> one_timer (emit e l).
Proof.
  intros H1 H2 [Hflag Hlive]. split; cbn; [exact Hflag|].
  rewrite live_intervals_app, Hlive.
  destruct e as [|h ms|h| | |]; cbn; try reflexivity;
    [now elim (H1 h ms)|now elim (H2 h)].
Qed.

Lemma one_timer_step l c : one_timer l -> one_timer (step l c).
Proof.
  intros H. destruct c; cbn [step].
  - now apply one_timer_startPolling.
  - now apply one_timer_stopSSE, one_timer_stopPolling.
  - now apply one_timer_startPolling.
  - now apply one_timer_stopPolling.
  - unfold startSSE. destruct (negb (isSSESupported l)); cbn [fst];
      [now apply one_timer_startPolling|].
    destruct (Chat.truthy_str token && constructed); cbn [fst];
      [|now apply one_timer_startPolling].
    destruct H as [Hflag Hlive]. split; cbn; [exact Hflag|].
    now rewrite live_intervals_app, Hlive.
  - now apply one_timer_stopSSE.
  - unfold setPollingInterval. cbn [isPolling].
    destruct H as [Hflag Hlive].
    destruct (isPolling l) eqn:E.
    + (* restart: the old timer is cleared, a new one is set *)
      destruct (pollingInterval l) as [h|] eqn:Eh;
        [|assert (None <> None :> option nat) by (apply Hflag; reflexivity); congruence].
      unfold stopPolling, startPolling. cbn.
      split; cbn; [split; [discriminate|reflexivity]|].
      rewrite !live_intervals_app, Hlive. cbn. now rewrite Nat.eqb_refl.
    + assert (pollingInterval l = None) as Hn.
      { destruct (pollingInterval l) eqn:Eh; [|reflexivity].
        assert (false = true) by (apply Hflag; discriminate). discriminate. }
      split; cbn; rewrite Hn in *; [split; congruence|exact Hlive].
  - apply one_timer_emit; [discriminate|discriminate|now apply one_timer_stopSSE].
  - now apply one_timer_startPolling.
Qed.

(** X4.  Over every sequence of calls of the service and events of the
    runtime, polling is flagged exactly when the service holds a timer, and
    the interval timers alive in the runtime are that one timer, at the
    configured period.  startPolling while polling does nothing; stop leaves
    no timer and no event source; setPollingInterval while polling clears
    the timer, polls at once and sets a new timer with the new period. *)
Theorem at_most_one_polling_timer :
  (forall cs sse_supported, one_timer (run_calls cs (initial sse_supported)))
  /\ (forall l, startPolling (startPolling l) = startPolling l)
  /\ (forall l,
        one_timer l ->
        isPolling (stop l) = false
        /\ eventSource (stop l) = None
        /\ live_intervals (effects (stop l)) [] = [])
  /\ (forall l ms h,
        isPolling l = true -> pollingInterval l = Some h ->
        effects (setPollingInterval ms l) =
          effects l ++ [ClearInterval h; PollNow; SetInterval (next_handle l) ms]).
Proof.
  split; [|split; [|split]].
  - intros cs sse. unfold run_calls.
    assert (one_timer (initial sse)) as H0 by (split; cbn; [split; congruence|reflexivity]).
    revert H0. generalize (initial sse). induction cs as [|c cs IH]; intros l H; [exact H|].
    cbn. apply IH. now apply one_timer_step.
  - intros l. unfold startPolling. destruct (isPolling l) eqn:E; [now rewrite E|reflexivity].
  - intros l H. pose proof (one_timer_stopPolling l H) as [Hflag Hlive].
    assert (isPolling (stopPolling l) = false) as Hp.
    { unfold stopPolling. now destruct (pollingInterval l). }
    assert (pollingInterval (stopPolling l) = None) as Hn.
    { destruct (pollingInterval (stopPolling l)) eqn:E; [|reflexivity].
      assert (isPolling (stopPolling l) = true) by (apply Hflag; discriminate). congruence. }
    unfold stop. destruct (stopSSE_fields (stopPolling l)) as (-> & -> & ->).
    now rewrite Hp, Hlive, Hn.
  - intros l ms h Hp Hh. unfold setPollingInterval. cbn [isPolling]. rewrite Hp.
    unfold stopPolling, startPolling. cbn. rewrite Hh. cbn.
    now rewrite <- app_assoc.
Qed.

Lemma at_most_one_polling_timer_witness :
  let l := run_calls [CallStart; CallSetPollingInterval 1000] (initial true) in
  one_timer l
  /\ live_intervals (effects l) [] = [(1, 1000)]
  /\ effects l = [PollNow; SetInterval 0 5000; ClearInterval 0; PollNow; SetInterval 1 1000]
  /\ live_intervals (effects (stop l)) [] = [].
Proof.
  destruct at_most_one_polling_timer as (Hinv & _ & Hstop & _).
  pose proof (Hinv [CallStart; CallSetPollingInterval 1000] true) as H.
  cbv zeta. split; [exact H|split; [reflexivity|split; [reflexivity|]]].
  now destruct (Hstop _ H) as (_ & _ & E).
Defined.

(** X5.  startSSE returns true exactly when EventSource is supported, a
    non-empty access token is stored and the event source is constructed; it
    then holds the new source and leaves polling as it was; in every other
    case it starts polling and returns false.  After an error of the event
    source the source is closed and dropped and the timeout is set, and
    when the timeout fires polling runs, also when stop was called in
    between. *)
Theorem polling_takes_over_after_an_event_source_error :
  (forall token constructed l,
      let '(l', started) := startSSE token constructed l in
      (started = true <->
       isSSESupported l = true /\ Chat.truthy_str token = true /\ constructed = true)
      /\ (started = true ->
          eventSource l' = Some (next_handle l) /\ isPolling l' = isPolling l)
      /\ (started = false -> isPolling l' = true /\ eventSource l' = eventSource l))
  /\ (forall l,
        eventSource (onerror l) = None
        /\ isPolling (fallback_fires (onerror l)) = true
        /\ isPolling (fallback_fires (stop (onerror l))) = true
        /\ (forall h,
              eventSource l = Some h ->
              effects (onerror l) =
                effects l ++ [CloseEventSource h; SetTimeoutStartPolling])).
Proof.
  split.
  - intros token constructed l. unfold startSSE.
    pose proof (startPolling_fields l) as Hsp.
    destruct (isSSESupported l) eqn:Es; cbn [negb].
    + destruct (Chat.truthy_str token) eqn:Et; cbn [andb].
      * destruct constructed.
        -- split; [tauto|]. split; [intros _; cbn; auto|discriminate].
        -- split; [split; [discriminate|intros (_ & _ & ?); discriminate]|].
           split; [discriminate|intros _; exact Hsp].
      * split; [split; [discriminate|intros (_ & ? & _); discriminate]|].
        split; [discriminate|intros _; exact Hsp].
    + split; [split; [discriminate|intros (? & _); discriminate]|].
      split; [discriminate|intros _; exact Hsp].
  - intros l. split; [|split; [|split]].
    + unfold onerror, emit. cbn [eventSource]. apply stopSSE_fields.
    + apply startPolling_fields.
    + apply startPolling_fields.
    + intros h Hh. unfold onerror, emit, stopSSE. rewrite Hh. cbn [effects].
      now rewrite <- app_assoc.
Qed.
End LifeFacts.


Module NotificationsHookFacts.
Import Api Notification NotificationFacts NotificationsHook.

Lemma has_In x set : has x set = true <-> In x set.
Proof.
  unfold has. rewrite existsb_exists. split.
  - intros (y & Hy & E). apply String.eqb_eq in E. now subst.
  - intros H. exists x. split; [assumption|apply String.eqb_refl].
Qed.

Lemma new_Set_In xs : forall seen x,
  In x (new_Set xs seen) <-> In x xs /\ ~ In x seen.
Proof.
  induction xs as [|y xs IH]; intros seen x; cbn [new_Set].
  - cbn. tauto.
  - destruct (existsb (String.eqb y) seen) eqn:E.
    + fold (has y seen) in E. apply has_In in E. rewrite IH. cbn.
      split; [tauto|]. intros [[<-|H] Hn]; tauto.
    + assert (~ In y seen) as Hy.
      { intros H. apply has_In in H. unfold has in H. congruence. }
      cbn [In]. rewrite IH. cbn [In].
      destruct (string_dec y x) as [<-|Hne]; [tauto|]. tauto.
Qed.

Lemma new_Set_NoDup xs : forall seen, NoDup (new_Set xs seen).
Proof.
  induction xs as [|y xs IH]; intros seen; cbn [new_Set]; [constructor|].
  destruct (existsb (String.eqb y) seen); [apply IH|].
  constructor; [|apply IH]. rewrite new_Set_In. cbn. tauto.
Qed.

Lemma has_new_Set x xs : has x (new_Set xs []) = has x xs.
Proof.
  apply eq_true_iff_eq. rewrite !has_In, new_Set_In. cbn. tauto.
Qed.

(** A set built from a list without duplicates is that list. *)
Lemma new_Set_distinct xs : forall seen,
  NoDup xs -> (forall x, In x xs -> ~ In x seen) -> new_Set xs seen = xs.
Proof.
  induction xs as [|y xs IH]; intros seen Hnd Hseen; [reflexivity|].
  cbn [new_Set]. inversion Hnd; subst.
  destruct (existsb (String.eqb y) seen) eqn:E.
  - fold (has y seen) in E. apply has_In in E. elim (Hseen y); [now left|assumption].
  - f_equal. apply IH; [assumption|].
    intros x Hx [<-|Hs]; [contradiction|]. apply (Hseen x); [now right|assumption].
Qed.

Lemma filter_none {A} (p : A -> bool) l : (forall x, In x l -> p x = false) -> filter p l = [].
Proof.
  induction l as [|x l IH]; intros H; [reflexivity|].
  cbn. rewrite H by now left. apply IH. intros y Hy. apply H. now right.
Qed.

(** The unread events with one more read mark, in a buffer without
    duplicates. *)
Lemma unread_after_mark (ns : list NotificationEvent) (read : list string) eventId :
  NoDup (map event_id ns) ->
  length (filter (fun n => negb (has (event_id n) (read ++ [eventId]))) ns) =
    if has eventId (map event_id ns) && negb (has eventId read)
    then pred (length (filter (fun n => negb (has (event_id n) read)) ns))
    else length (filter (fun n => negb (has (event_id n) read)) ns).
Proof.
  assert (forall x, has x (read ++ [eventId]) = has x read || String.eqb x eventId) as Hhas.
  { intros x. unfold has. rewrite existsb_app. cbn. now rewrite orb_false_r. }
  induction ns as [|n ns IH]; intros Hnd; [now destruct (negb (has eventId read))|].
  cbn [map] in Hnd. inversion Hnd as [|? ? Hnotin Hnd']; subst.
  specialize (IH Hnd'). cbn [filter map].
  rewrite Hhas.
  assert (has eventId (event_id n :: map event_id ns) =
          String.eqb (event_id n) eventId || has eventId (map event_id ns)) as ->.
  { unfold has. cbn. now rewrite String.eqb_sym. }
  destruct (String.eqb (event_id n) eventId) eqn:E.
  - apply String.eqb_eq in E. subst eventId.
    assert (has (event_id n) (map event_id ns) = false) as Hno.
    { destruct (has (event_id n) (map event_id ns)) eqn:H; [|reflexivity].
      apply has_In in H. contradiction. }
    rewrite Hno in IH. cbn [andb] in IH. rewrite orb_true_r. cbn [negb orb].
    destruct (has (event_id n) read) eqn:Hr; cbn [negb andb]; [exact IH|].
    cbn [length pred]. exact IH.
  - rewrite orb_false_r. cbn [orb].
    destruct (has (event_id n) read) eqn:Hr; cbn [negb]; [exact IH|].
    cbn [length]. rewrite IH.
    destruct (has eventId (map event_id ns) && negb (has eventId read)) eqn:C; [|reflexivity].
    (* the event marked is unread and in [ns]: the count there is positive *)
    apply andb_true_iff in C. destruct C as [Hin Hnr].
    apply has_In in Hin. apply in_map_iff in Hin. destruct Hin as (m & Hm & Hin).
    assert (In m (filter (fun n0 => negb (has (event_id n0) read)) ns)) as Hf.
    { apply filter_In. split; [assumption|]. now rewrite Hm. }
    remember (filter (fun n0 => negb (has (event_id n0) read)) ns) as fl eqn:Efl.
    clear Efl IH. destruct fl; [destruct Hf|reflexivity].
Qed.

Lemma new_Set_ext xs : forall s1 s2,
  (forall x, In x s1 <-> In x s2) -> new_Set xs s1 = new_Set xs s2.
Proof.
  induction xs as [|y xs IH]; intros s1 s2 H; [reflexivity|].
  cbn [new_Set]. fold (has y s1) (has y s2).
  assert (has y s1 = has y s2) as ->.
  { apply eq_true_iff_eq. rewrite !has_In. apply H. }
  destruct (has y s2); [now apply IH|].
  f_equal. apply IH. intros x. cbn. rewrite H. tauto.
Qed.

Lemma new_Set_known xs : forall seen,
  (forall x, In x xs -> In x seen) -> new_Set xs seen = [].
Proof.
  induction xs as [|y xs IH]; intros seen H; [reflexivity|].
  cbn [new_Set]. fold (has y seen).
  assert (has y seen = true) as -> by (apply has_In, H; now left).
  apply IH. intros x Hx. apply H. now right.
Qed.

Lemma new_Set_app xs ys : forall seen,
  new_Set (xs ++ ys) seen = new_Set xs seen ++ new_Set ys (rev xs ++ seen).
Proof.
  induction xs as [|y xs IH]; intros seen; [reflexivity|].
  cbn [app new_Set rev]. fold (has y seen).
  destruct (has y seen) eqn:E.
  - rewrite IH. f_equal. apply new_Set_ext. intros x.
    rewrite !in_app_iff. cbn. apply has_In in E.
    split; [tauto|]. intros [[H|[<-|[]]]|H]; tauto.
  - cbn [app]. f_equal. rewrite IH. f_equal. apply new_Set_ext. intros x.
    rewrite !in_app_iff. cbn. tauto.
Qed.

Lemma markAsRead_twice eventId st :
  markAsRead eventId (markAsRead eventId st) = markAsRead eventId st.
Proof.
  unfold markAsRead. cbn [notifications readEventIds isConnected]. f_equal.
  set (r := new_Set (readEventIds st ++ [eventId]) []).
  assert (In eventId r) as Hin.
  { unfold r. rewrite new_Set_In. split; [apply in_or_app; right; now left|intros []]. }
  rewrite new_Set_app, (new_Set_known [eventId]).
  - rewrite app_nil_r. apply new_Set_distinct; [apply new_Set_NoDup|intros ? _ []].
  - intros x [<-|[]]. apply in_or_app. left. now apply in_rev in Hin.
Qed.

Lemma reachable_step st c : reachable st -> reachable (step st c).
Proof.
  intros [Hb Hr]. destruct c; cbn [step]; split; cbn;
    try assumption; try apply new_Set_NoDup.
  - now apply handle_invariant.
  - split; [constructor|cbn; lia].
  - constructor.
Qed.

Lemma reachable_run cs : forall st, reachable st -> reachable (run_calls cs st).
Proof.
  induction cs as [|c cs IH]; intros st H; [exact H|].
  cbn. apply IH. now apply reachable_step.
Qed.

Lemma unread_le st : unreadCount st <= length (notifications st).
Proof. unfold unreadCount. apply filter_length_le. Qed.

(** X8.  markAllAsRead marks the ids that notificationsRef holds, and
    changes no notification: the unread notifications afterwards are those
    whose id the ref does not hold.  When the ref holds every buffered
    notification, as after a run of the effect, nothing is unread and no
    badge is shown. *)
Theorem markAllAsRead_marks_what_the_ref_holds :
  forall st,
    (forall x, In x (readEventIds (markAllAsRead st)) <->
               In x (map event_id (notificationsRef st)))
    /\ notifications (markAllAsRead st) = notifications st
    /\ unreadCount (markAllAsRead st) =
         length (filter (fun n => negb (has (event_id n) (map event_id (notificationsRef st))))
                   (notifications st))
    /\ ((forall n, In n (notifications st) ->
                   In (event_id n) (map event_id (notificationsRef st))) ->
        unreadCount (markAllAsRead st) = 0
        /\ badge (unreadCount (markAllAsRead st)) = NoBadge)
    /\ unreadCount (markAllAsRead (effect st)) = 0
    /\ badge (unreadCount (markAllAsRead (effect st))) = NoBadge.
Proof.
  intros st.
  assert (forall st0,
            unreadCount (markAllAsRead st0) =
              length (filter (fun n => negb (has (event_id n)
                                              (map event_id (notificationsRef st0))))
                        (notifications st0))) as Hcount.
  { intros st0. unfold unreadCount, markAllAsRead. cbn [notifications readEventIds].
    f_equal. apply filter_ext. intros n. now rewrite has_new_Set. }
  assert (forall st0,
            (forall n, In n (notifications st0) ->
                       In (event_id n) (map event_id (notificationsRef st0))) ->
            unreadCount (markAllAsRead st0) = 0) as Hzero.
  { intros st0 Hall. rewrite Hcount, filter_none; [reflexivity|].
    intros n Hn. apply Hall, has_In in Hn. now rewrite Hn. }
  assert (unreadCount (markAllAsRead (effect st)) = 0) as He.
  { apply Hzero. intros n Hn. cbn [effect notifications notificationsRef] in *.
    now apply in_map. }
  split; [|split; [reflexivity|split; [apply Hcount|split; [|split]]]].
  - intros x. unfold markAllAsRead. cbn [readEventIds]. rewrite new_Set_In. cbn. tauto.
  - intros Hall. rewrite (Hzero st Hall). now split.
  - exact He.
  - now rewrite He.
Qed.

Lemma markAllAsRead_marks_what_the_ref_holds_witness :
  let st := run_calls [Deliver (event_with_id "a"); Effect; Deliver (event_with_id "b")] initial in
  unreadCount st = 2
  /\ unreadCount (markAllAsRead st) = 1
  /\ unreadCount (markAllAsRead (effect st)) = 0.
Proof.
  cbv zeta.
  destruct (markAllAsRead_marks_what_the_ref_holds
              (run_calls [Deliver (event_with_id "a"); Effect; Deliver (event_with_id "b")]
                 initial)) as (_ & _ & Hc & _ & He & _).
  split; [reflexivity|split; [rewrite Hc; reflexivity|exact He]].
Defined.

(** X9.  When the buffered ids are distinct, markAsRead lowers the unread
    count by one if the id is buffered and was unread, and leaves it
    otherwise; marking an id twice is marking it once; the notifications are
    unchanged. *)
Theorem markAsRead_counts_one_event :
  forall eventId st,
    NoDup (map event_id (notifications st)) ->
    unreadCount (markAsRead eventId st) =
      (if has eventId (map event_id (notifications st)) && negb (has eventId (readEventIds st))
       then pred (unreadCount st) else unreadCount st)
    /\ markAsRead eventId (markAsRead eventId st) = markAsRead eventId st
    /\ notifications (markAsRead eventId st) = notifications st.
Proof.
  intros eventId st Hnd. split; [|split; [apply markAsRead_twice|reflexivity]].
  unfold unreadCount, markAsRead. cbn [notifications readEventIds].
  rewrite <- (unread_after_mark _ _ _ Hnd).
  f_equal. apply filter_ext. intros n. now rewrite has_new_Set.
Qed.

(** X10.  In every state that deliveries, runs of the effect, markAsRead,
    markAllAsRead and clearNotifications reach from the initial one, the
    buffered ids are distinct, the read marks are distinct, the unread
    count is at most the length of the buffer, which is at most 100, and
    the badge reads 99+ exactly when 100 notifications are buffered and all
    are unread. *)
Theorem unread_count_is_bounded :
  forall cs,
    let st := run_calls cs initial in
    NoDup (map event_id (notifications st))
    /\ NoDup (readEventIds st)
    /\ unreadCount st <= length (notifications st) <= 100
    /\ (badge (unreadCount st) = NinetyNinePlus <->
        length (notifications st) = 100 /\ unreadCount st = 100).
Proof.
  intros cs st.
  assert (reachable st) as [[Hnd Hlen] Hr].
  { apply reachable_run. split; [split; [constructor|cbn; lia]|constructor]. }
  pose proof (unread_le st) as Hle.
  split; [exact Hnd|split; [exact Hr|split; [lia|]]].
  unfold badge. destruct (0 <? unreadCount st)%nat eqn:E0.
  - destruct (99 <? unreadCount st)%nat eqn:E99.
    + apply Nat.ltb_lt in E99. split; [intros _; lia|reflexivity].
    + apply Nat.ltb_ge in E99. split; [discriminate|lia].
  - apply Nat.ltb_ge in E0. split; [discriminate|lia].
Qed.

(** X11.  An event whose id is not in the buffer, arriving while fewer than
    100 events are buffered, is appended and counts as unread, unless its id
    was marked as read before it arrived: then the count does not change. 
    The hook is connected afterwards. *)
Theorem a_new_event_is_unread_unless_marked :
  forall event st,
    ~ In (event_id event) (map event_id (notifications st)) ->
    length (notifications st) < 100 ->
    unreadCount (handleNotificationEvent event st) =
      (if has (event_id event) (readEventIds st) then unreadCount st
       else S (unreadCount st))
    /\ notifications (handleNotificationEvent event st) = notifications st ++ [event]
    /\ isConnected (handleNotificationEvent event st) = true.
Proof.
  intros event st Hnew Hlen.
  assert (notifications (handleNotificationEvent event st) = notifications st ++ [event]) as E.
  { unfold handleNotificationEvent. cbn [notifications].
    rewrite handle_new by assumption. unfold slice_minus100.
    rewrite length_app. cbn [length].
    replace (length (notifications st) + 1 - 100) with 0 by lia. reflexivity. }
  split; [|split; [exact E|reflexivity]].
  unfold unreadCount. rewrite E. cbn [handleNotificationEvent readEventIds].
  rewrite filter_app, length_app. cbn [filter].
  destruct (has (event_id event) (readEventIds st)); cbn; lia.
Qed.

Lemma markAsRead_counts_one_event_witness :
  let st := run_calls [Deliver (event_with_id "a"); Deliver (event_with_id "b")] initial in
  NoDup (map event_id (notifications st))
  /\ unreadCount st = 2
  /\ unreadCount (markAsRead "a" st) = 1
  /\ unreadCount (markAsRead "zz" st) = 2.
Proof.
  cbv zeta.
  set (st := run_calls [Deliver (event_with_id "a"); Deliver (event_with_id "b")] initial).
  assert (NoDup (map event_id (notifications st))) as Hn.
  { cbn. constructor; [intros [?|[]]; discriminate|].
    constructor; [intros []|constructor]. }
  split; [exact Hn|split; [reflexivity|]].
  destruct (markAsRead_counts_one_event "a" st Hn) as (Ha & _).
  destruct (markAsRead_counts_one_event "zz" st Hn) as (Hz & _).
  split; [rewrite Ha|rewrite Hz]; reflexivity.
Defined.

Lemma a_new_event_is_unread_unless_marked_witness :
  let st := markAsRead "b" (handleNotificationEvent (event_with_id "a") initial) in
  ~ In "b" (map event_id (notifications st))
  /\ length (notifications st) < 100
  /\ unreadCount st = 1
  /\ unreadCount (handleNotificationEvent (event_with_id "b") st) = 1
  /\ unreadCount (handleNotificationEvent (event_with_id "c") st) = 2.
Proof.
  cbv zeta.
  set (st := markAsRead "b" (handleNotificationEvent (event_with_id "a") initial)).
  assert (~ In (event_id (event_with_id "b")) (map event_id (notifications st))) as Hb
    by (cbn; intros [?|[]]; discriminate).
  assert (~ In (event_id (event_with_id "c")) (map event_id (notifications st))) as Hc
    by (cbn; intros [?|[]]; discriminate).
  assert (length (notifications st) < 100) as Hl by (cbn; lia).
  split; [exact Hb|split; [exact Hl|split; [reflexivity|]]].
  destruct (a_new_event_is_unread_unless_marked (event_with_id "b") st Hb Hl) as (Eb & _).
  destruct (a_new_event_is_unread_unless_marked (event_with_id "c") st Hc Hl) as (Ec & _).
  split; [rewrite Eb|rewrite Ec]; reflexivity.
Defined.

End NotificationsHookFacts.

Module LocalStorageFacts.
Import LocalStorage.

Lemma getItem_setItem key key' value st :
  getItem key' (setItem key value st) =
    if String.eqb key key' then Some value else getItem key' st.
Proof.
  induction st as [|[k v] st IH]; cbn [setItem getItem].
  - reflexivity.
  - destruct (String.eqb k key) eqn:E.
    + apply String.eqb_eq in E. subst k. cbn [getItem].
      destruct (String.eqb key key'); reflexivity.
    + cbn [getItem]. destruct (String.eqb k key') eqn:E'; [|exact IH].
      apply String.eqb_eq in E'. subst k. now rewrite String.eqb_sym, E.
Qed.

Lemma getItem_removeItem key key' st :
  getItem key' (removeItem key st) =
    if String.eqb key key' then None else getItem key' st.
Proof.
  induction st as [|[k v] st IH]; cbn [removeItem filter getItem].
  - now destruct (String.eqb key key').
  - destruct (String.eqb k key) eqn:E; cbn [negb].
    + fold (removeItem key st). rewrite IH.
      apply String.eqb_eq in E. subst k.
      destruct (String.eqb key key'); reflexivity.
    + cbn [getItem]. fold (removeItem key st). rewrite IH.
      destruct (String.eqb k key') eqn:E'; [|reflexivity].
      apply String.eqb_eq in E'. subst k. now rewrite String.eqb_sym, E.
Qed.
End LocalStorageFacts.

Module ApiServiceFacts.
Import LocalStorage LocalStorageFacts ApiService.

Lemma or_else_truthy a b : JsString.truthy b = true -> JsString.truthy (or_else a b) = true.
Proof.
  intros H. unfold or_else. destruct a as [s|]; [|exact H].
  destruct (JsString.truthy s) eqn:E; [exact E|exact H].
Qed.

Lemma getAuthToken_clear b : getAuthToken (clearAuthToken b) = None.
Proof.
  unfold getAuthToken, clearAuthToken. cbn [localStorage].
  now rewrite !getItem_removeItem.
Qed.

Lemma on_rejected_message error b :
  JsString.truthy (message (snd (on_rejected error b))) = true.
Proof.
  unfold on_rejected. cbn [snd message].
  apply or_else_truthy, or_else_truthy. reflexivity.
Qed.

Lemma on_rejected_other error b :
  response_status error <> Some 401%Z -> fst (on_rejected error b) = b.
Proof.
  intros Hne. unfold on_rejected. cbn [fst].
  destruct (response_status error) as [s|]; [|reflexivity].
  destruct (s =? 401)%Z eqn:E; [|reflexivity].
  apply Z.eqb_eq in E. congruence.
Qed.

(** X12.  After setAuthToken the token read back is the one stored, and the
    requests carry it as a Bearer header (no header for the empty token; the
    streaming request then carries an empty header).  After clearAuthToken
    there is no token, no stored user and no header.  Neither touches
    another key of the store. *)
Theorem the_stored_token_is_the_one_sent :
  forall (token : string) (b : Browser),
    getAuthToken (setAuthToken token b) = Some token
    /\ authorization (setAuthToken token b) =
         (if JsString.truthy token then Some ("Bearer " ++ token)%string else None)
    /\ stream_authorization (setAuthToken token b) =
         (if JsString.truthy token then ("Bearer " ++ token)%string else EmptyString)
    /\ getAuthToken (clearAuthToken b) = None
    /\ authorization (clearAuthToken b) = None
    /\ stream_authorization (clearAuthToken b) = EmptyString
    /\ getItem "user" (localStorage (clearAuthToken b)) = None
    /\ (forall key,
          key <> "access_token" -> key <> "user" ->
          getItem key (localStorage (setAuthToken token b)) = getItem key (localStorage b)
          /\ getItem key (localStorage (clearAuthToken b)) = getItem key (localStorage b)).
Proof.
  intros token b.
  assert (getItem "access_token" (localStorage (setAuthToken token b)) = Some token) as Hset.
  { unfold setAuthToken. cbn [localStorage]. now rewrite getItem_setItem. }
  assert (getItem "access_token" (localStorage (clearAuthToken b)) = None) as Hclr
    by apply getAuthToken_clear.
  unfold getAuthToken, authorization, stream_authorization. rewrite Hset, Hclr.
  repeat split.
  - unfold clearAuthToken. cbn [localStorage]. now rewrite getItem_removeItem.
  - unfold setAuthToken. cbn [localStorage]. rewrite getItem_setItem.
    destruct (String.eqb "access_token" key) eqn:E; [|reflexivity].
    apply String.eqb_eq in E. congruence.
  - unfold clearAuthToken. cbn [localStorage]. rewrite !getItem_removeItem.
    destruct (String.eqb "user" key) eqn:E; [apply String.eqb_eq in E; congruence|].
    destruct (String.eqb "access_token" key) eqn:E'; [apply String.eqb_eq in E'; congruence|].
    reflexivity.
Qed.

(** X13.  A request that succeeds gives its data and leaves the browser as
    it was.  A request that fails is rejected with an error whose message is
    never empty and which carries the status and the code of the response;
    on status 401 the token and the stored user are removed and the browser
    is sent to the login page, on any other failure the browser is left as
    it was. *)
Theorem an_unauthorized_response_signs_the_browser_out :
  forall (A : Type) (o : Outcome A) (b : Browser),
    let '(b', r) := request o b in
    (forall data, o = Fulfilled data -> b' = b /\ r = inl data)
    /\ (forall error,
          o = Failed error ->
          exists e,
            r = inr e
            /\ JsString.truthy (message e) = true
            /\ status e = response_status error
            /\ code e = response_code error
            /\ (response_status error = Some 401%Z ->
                getAuthToken b' = None /\ authorization b' = None
                /\ getItem "user" (localStorage b') = None /\ href b' = Some "/login")
            /\ (response_status error <> Some 401%Z -> b' = b)).
Proof.
  intros A o b. destruct o as [data|error]; cbn [request].
  - split; [intros ? [= <-]; auto|discriminate].
  - unfold on_rejected. split; [discriminate|]. intros error' [= <-].
    eexists. split; [reflexivity|]. cbn [message status code].
    split; [apply or_else_truthy, or_else_truthy; reflexivity|].
    split; [reflexivity|split; [reflexivity|split]].
    + intros ->. cbn. unfold getAuthToken, authorization. cbn [localStorage href].
      rewrite !getItem_removeItem. cbn. auto.
    + intros Hne. destruct (response_status error) as [s|]; [|reflexivity].
      destruct (s =? 401)%Z eqn:E; [|reflexivity].
      apply Z.eqb_eq in E. congruence.
Qed.
End ApiServiceFacts.

Module AuthFacts.
Import LocalStorage LocalStorageFacts ApiService ApiServiceFacts Auth.

Section Hook.
Variable JSON_stringify : User -> string.

Local Abbreviation initializeAuth := (initializeAuth).
Local Abbreviation login := (login JSON_stringify).
Local Abbreviation refreshToken := (refreshToken JSON_stringify).
Local Abbreviation step := (step JSON_stringify).
Local Abbreviation run_calls := (run_calls JSON_stringify).

Lemma consistent_step w c : consistent w -> consistent (step w c).
Proof.
  unfold consistent. intros H.
  destruct c as [validation me|anonymous o|o|o|b]; cbn [Auth.step]; [| | | |exact H].
  - unfold Auth.initializeAuth.
    destruct (getAuthToken (browser w)) as [token|]; [|exact H].
    destruct (negb (JsString.truthy token)); [exact H|].
    destruct (request validation (browser w)) as [b [v|e]]; [|exact H].
    destruct (valid v); [|exact H].
    cbn [browser setBrowser].
    destruct (request me b) as [b' [u|e]]; [discriminate|exact H].
  - unfold Auth.login. cbn [browser setIsLoading].
    destruct (request o (browser w)) as [b [response|e]]; cbn [fst]; [discriminate|exact H].
  - unfold Auth.logout. cbn [browser setIsLoading].
    destruct (request o (browser w)) as [b r]. cbn. discriminate.
  - unfold Auth.refreshToken.
    destruct (request o (browser w)) as [b [response|e]]; cbn [fst]; cbn; [discriminate|discriminate].
Qed.

Lemma consistent_run cs : forall w, consistent w -> consistent (run_calls cs w).
Proof.
  induction cs as [|c cs IH]; intros w H; [exact H|].
  cbn. apply IH. now apply consistent_step.
Qed.

Lemma initializeAuth_signed_in validation me w :
  isAuthenticated w = false ->
  isAuthenticated (Auth.initializeAuth validation me w) = true ->
  exists token v u,
    getAuthToken (browser w) = Some token /\ JsString.truthy token = true
    /\ validation = Fulfilled v /\ valid v = true /\ me = Fulfilled u
    /\ user (Auth.initializeAuth validation me w) = Some u
    /\ browser (Auth.initializeAuth validation me w) = browser w.
Proof.
  intros Hw. unfold Auth.initializeAuth.
  destruct (getAuthToken (browser w)) as [token|]; [|cbn; congruence].
  destruct (JsString.truthy token) eqn:Et; cbn [negb]; [|cbn; congruence].
  destruct validation as [v|error]; cbn [request].
  - destruct (valid v) eqn:Ev; [|cbn; congruence].
    cbn [browser setBrowser].
    destruct me as [u|error]; cbn [request].
    + intros _. exists token, v, u. cbn. auto 10.
    + destruct (on_rejected error (browser w)). cbn. congruence.
  - destruct (on_rejected error (browser w)). cbn. congruence.
Qed.

(** X14.  Whatever the outcomes of the requests and whatever is done to
    the browser elsewhere, over every sequence of calls of an instance of
    the hook from its initial state, a signed-in state has a user. *)
Theorem a_signed_in_state_has_a_user :
  forall (b : Browser) (cs : list Call),
    isAuthenticated (run_calls cs (initial b)) = true ->
    user (run_calls cs (initial b)) <> None.
Proof.
  intros b cs. apply consistent_run. unfold consistent. cbn. discriminate.
Qed.

(** X15.  Whether the logout request succeeds or fails, logout ends with no
    user, not signed in, not loading, no token and no user in the store, no
    Authorization header, and one success toast. *)
Theorem logout_signs_out_whatever_the_server_answers :
  forall (o : Outcome unit) (w : World),
    let w' := Auth.logout o w in
    user w' = None /\ isAuthenticated w' = false /\ isLoading w' = false
    /\ getAuthToken (browser w') = None
    /\ getItem "user" (localStorage (browser w')) = None
    /\ authorization (browser w') = None
    /\ toasts w' = toasts w ++ [Success "已退出登录"].
Proof.
  intros o w. cbn zeta. unfold Auth.logout. cbn [browser setIsLoading].
  destruct (request o (browser w)) as [b r]. cbn.
  unfold getAuthToken, authorization, clearAuthToken. cbn [localStorage].
  rewrite !getItem_removeItem. cbn. auto 10.
Qed.

(** X16.  A login that succeeds stores the token and the serialized user,
    sets the user, signs in, stops loading and shows one success toast, and
    throws nothing.  A login that fails throws the error again, leaves the
    user and the signed-in flag as they were, stops loading, shows one error
    toast with a non-empty text, and leaves the browser as it was unless the
    status is 401. *)
Theorem login_signs_in_only_on_success :
  forall (anonymous : bool) (w : World),
    (forall response,
        let '(w', thrown) := login anonymous (Fulfilled response) w in
        thrown = false
        /\ user w' = Some (userData response) /\ isAuthenticated w' = true
        /\ isLoading w' = false
        /\ getAuthToken (browser w') = Some (access_token response)
        /\ getItem "user" (localStorage (browser w')) =
             Some (JSON_stringify (userData response))
        /\ href (browser w') = href (browser w)
        /\ exists text, toasts w' = toasts w ++ [Success text])
    /\ (forall error,
          let '(w', thrown) := login anonymous (Failed error) w in
          thrown = true
          /\ user w' = user w /\ isAuthenticated w' = isAuthenticated w
          /\ isLoading w' = false
          /\ (response_status error <> Some 401%Z -> browser w' = browser w)
          /\ exists text,
               JsString.truthy text = true /\ toasts w' = toasts w ++ [Failure text]).
Proof.
  intros anonymous w. split.
  - intros response. unfold Auth.login. cbn [browser setIsLoading request].
    cbn -[setItem getItem]. unfold getAuthToken, setAuthToken.
    cbn [localStorage href]. rewrite !getItem_setItem. cbn [String.eqb Ascii.eqb Bool.eqb].
    repeat split. eexists. reflexivity.
  - intros error. unfold Auth.login. cbn [browser setIsLoading request].
    pose proof (on_rejected_message error (browser w)) as Hm.
    pose proof (on_rejected_other error (browser w)) as Hb.
    destruct (on_rejected error (browser w)) as [b e]. cbn [fst snd] in *.
    cbn -[or_else]. repeat split; [exact Hb|].
    eexists. split; [|reflexivity]. now apply or_else_truthy.
Qed.

(** X17.  From a state that is not signed in, initializeAuth always stops
    loading, and signs in exactly when a non-empty token is stored, the
    validation answers valid and the user is fetched; the user is then the
    fetched one and the browser is untouched.  With a non-empty token and
    any other outcome the token and the stored user are removed; without a
    token, or with an empty one, only the loading flag changes. *)
Theorem initializeAuth_trusts_only_a_validated_token :
  forall (validation : Outcome Validation) (me : Outcome User) (w : World),
    isAuthenticated w = false ->
    let w' := Auth.initializeAuth validation me w in
    isLoading w' = false
    /\ (isAuthenticated w' = true <->
         exists token v u,
           getAuthToken (browser w) = Some token /\ JsString.truthy token = true
           /\ validation = Fulfilled v /\ valid v = true /\ me = Fulfilled u)
    /\ (forall u, me = Fulfilled u -> isAuthenticated w' = true ->
         user w' = Some u /\ browser w' = browser w)
    /\ (isAuthenticated w' = false ->
         user w' = user w
         /\ forall token,
              getAuthToken (browser w) = Some token -> JsString.truthy token = true ->
              getAuthToken (browser w') = None
              /\ getItem "user" (localStorage (browser w')) = None)
    /\ ((forall token, getAuthToken (browser w) = Some token -> JsString.truthy token = false) ->
         w' = setIsLoading false w).
Proof.
  intros validation me w Hw. cbn zeta.
  assert (forall b, getAuthToken (clearAuthToken b) = None
                    /\ getItem "user" (localStorage (clearAuthToken b)) = None) as Hclear.
  { intros b. unfold getAuthToken, clearAuthToken. cbn [localStorage].
    rewrite !getItem_removeItem. cbn. auto. }
  split; [|split; [|split; [|split]]].
  - unfold Auth.initializeAuth.
    destruct (getAuthToken (browser w)) as [token|]; [|reflexivity].
    destruct (negb (JsString.truthy token)); [reflexivity|].
    destruct (request validation (browser w)) as [b [v|e]]; [|reflexivity].
    destruct (valid v); [|reflexivity]. cbn [browser setBrowser].
    destruct (request me b) as [b' [u|e]]; reflexivity.
  - split.
    + intros Ha. destruct (initializeAuth_signed_in validation me w Hw Ha)
        as (token & v & u & H1 & H2 & H3 & H4 & H5 & _). eauto 10.
    + intros (token & v & u & H1 & H2 & -> & H4 & ->).
      unfold Auth.initializeAuth. rewrite H1, H2. cbn [negb request]. rewrite H4. reflexivity.
  - intros u -> Ha. destruct (initializeAuth_signed_in validation _ w Hw Ha)
      as (token & v & u' & _ & _ & _ & _ & [= <-] & Hu & Hb). auto.
  - unfold Auth.initializeAuth.
    destruct (getAuthToken (browser w)) as [token|] eqn:Et; [|cbn; split; [reflexivity|discriminate]].
    destruct (JsString.truthy token) eqn:Etr; cbn [negb].
    2:{ cbn. split; [reflexivity|]. intros token' [= <-]. congruence. }
    destruct (request validation (browser w)) as [b [v|e]].
    + destruct (valid v).
      * cbn [browser setBrowser]. destruct (request me b) as [b' [u|e]]; cbn; [discriminate|].
        intros _. split; [reflexivity|]. intros _ _ _. apply Hclear.
      * cbn. intros _. split; [reflexivity|]. intros _ _ _. apply Hclear.
    + cbn. intros _. split; [reflexivity|]. intros _ _ _. apply Hclear.
  - intros Hnone. unfold Auth.initializeAuth.
    destruct (getAuthToken (browser w)) as [token|]; [|reflexivity].
    now rewrite (Hnone token eq_refl).
Qed.

(** X18.  A refresh that fails throws the error again, removes the token and
    the stored user, and leaves no user and no signed-in state, without a
    toast.  A refresh that succeeds stores the new token and the new user
    and leaves the signed-in flag as it was. *)
Theorem a_failed_refresh_signs_out :
  forall (w : World),
    (forall error,
        let '(w', thrown) := refreshToken (Failed error) w in
        thrown = true /\ user w' = None /\ isAuthenticated w' = false
        /\ getAuthToken (browser w') = None
        /\ getItem "user" (localStorage (browser w')) = None
        /\ toasts w' = toasts w)
    /\ (forall response,
          let '(w', thrown) := refreshToken (Fulfilled response) w in
          thrown = false /\ user w' = Some (userData response)
          /\ isAuthenticated w' = isAuthenticated w
          /\ getAuthToken (browser w') = Some (access_token response)
          /\ getItem "user" (localStorage (browser w')) =
               Some (JSON_stringify (userData response))
          /\ toasts w' = toasts w).
Proof.
  intros w. split.
  - intros error. unfold Auth.refreshToken. cbn [request].
    destruct (on_rejected error (browser w)) as [b e]. cbn.
    unfold getAuthToken, clearAuthToken. cbn [localStorage].
    rewrite !getItem_removeItem. cbn. auto 10.
  - intros response. unfold Auth.refreshToken. cbn [request].
    cbn -[setItem getItem]. unfold getAuthToken, setAuthToken.
    cbn [localStorage href]. rewrite !getItem_setItem. cbn [String.eqb Ascii.eqb Bool.eqb].
    auto 10.
Qed.
End Hook.

Lemma initializeAuth_trusts_only_a_validated_token_witness :
  let w := initial (setAuthToken "tok" (mkBrowser [] None)) in
  let me := mkUser "u1" None false in
  isAuthenticated w = false
  /\ isAuthenticated
       (Auth.initializeAuth (Fulfilled (mkValidation true "u1" false)) (Fulfilled me) w) = true
  /\ user (Auth.initializeAuth (Fulfilled (mkValidation true "u1" false)) (Fulfilled me) w) =
       Some me
  /\ getAuthToken
       (browser
          (Auth.initializeAuth (Fulfilled (mkValidation false "u1" false)) (Fulfilled me) w)) =
       None.
Proof.
  cbv zeta.
  set (w := initial (setAuthToken "tok" (mkBrowser [] None))).
  set (me := mkUser "u1" None false).
  assert (isAuthenticated w = false) as Hw by reflexivity.
  split; [exact Hw|].
  destruct (initializeAuth_trusts_only_a_validated_token
              (Fulfilled (mkValidation true "u1" false)) (Fulfilled me) w Hw)
    as (_ & Hiff & Hu & _).
  assert (isAuthenticated
            (Auth.initializeAuth (Fulfilled (mkValidation true "u1" false)) (Fulfilled me) w) =
          true) as Ha.
  { apply Hiff. exists "tok", (mkValidation true "u1" false), me. repeat split. }
  split; [exact Ha|]. split; [exact (proj1 (Hu me eq_refl Ha))|].
  destruct (initializeAuth_trusts_only_a_validated_token
              (Fulfilled (mkValidation false "u1" false)) (Fulfilled me) w Hw)
    as (_ & _ & _ & Hf & _).
  exact (proj1 (proj2 (Hf eq_refl) "tok" eq_refl eq_refl)).
Defined.

Lemma a_signed_in_state_has_a_user_witness :
  let stringify := fun u : User => Auth.id u in
  let response := mkTokenResponse "t2" "bearer" "u2" None true 3600%Z in
  let w :=
    Auth.run_calls stringify
      [CallLogin true (Fulfilled response); Elsewhere (mkBrowser [] None)]
      (initial (mkBrowser [] None)) in
  isAuthenticated w = true
  /\ getAuthToken (browser w) = None
  /\ user w <> None.
Proof.
  cbv zeta.
  split; [reflexivity|split; [reflexivity|]].
  exact (a_signed_in_state_has_a_user (fun u : User => Auth.id u) (mkBrowser [] None)
           [CallLogin true (Fulfilled (mkTokenResponse "t2" "bearer" "u2" None true 3600%Z));
            Elsewhere (mkBrowser [] None)]
           eq_refl).
Defined.
End AuthFacts.


Module ChatOpsFacts.
Import Chat ChatOps.

Lemma slice_0_minus1_snoc {A} (xs : list A) (x : A) : slice_0_minus1 (xs ++ [x]) = xs.
Proof.
  unfold slice_0_minus1. rewrite length_app. cbn [length].
  replace (length xs + 1 - 1) with (length xs + 0) by lia.
  rewrite firstn_app_2. cbn. apply app_nil_r.
Qed.

Lemma set_last_snoc {A} (xs : list A) (x y : A) : set_last y (xs ++ [x]) = xs ++ [y].
Proof.
  unfold set_last. destruct (xs ++ [x]) eqn:E.
  - now destruct xs.
  - rewrite <- E. now rewrite removelast_last.
Qed.

Lemma or_else_default a b : JsString.truthy b = true -> JsString.truthy (ApiService.or_else a b) = true.
Proof.
  intros H. unfold ApiService.or_else. destruct a as [s|]; [|exact H].
  destruct (JsString.truthy s) eqn:E; [exact E|exact H].
Qed.

(** X19.  A send that the server rejects leaves the messages, the
    conversations and the current conversation as they were before the call:
    the user message added at the start is removed again.  It stops loading
    and shows one error with a non-empty text; a blank message changes
    nothing at all. *)
Theorem a_rejected_send_restores_the_messages :
  forall (text : string) (now : Z) (iso1 iso2 : string)
         (error : ApiService.ApiError) (rl : Result (list Conversation)) (st : State),
    let st' := sendMessage text now iso1 iso2 (inr error) rl st in
    messages st' = messages st
    /\ conversations st' = conversations st
    /\ currentConversation st' = currentConversation st
    /\ (JsString.truthy (JsString.trim text) = false -> st' = st)
    /\ (JsString.truthy (JsString.trim text) = true ->
        isLoading st' = false
        /\ exists shown,
             JsString.truthy shown = true /\ toasts st' = toasts st ++ [Error shown]).
Proof.
  intros text now iso1 iso2 error rl st. cbn zeta. unfold sendMessage.
  destruct (JsString.truthy (JsString.trim text)); cbn [negb].
  - cbn -[ApiService.or_else slice_0_minus1]. rewrite slice_0_minus1_snoc.
    split; [reflexivity|split; [reflexivity|split; [reflexivity|split; [discriminate|]]]].
    intros _. split; [reflexivity|].
    eexists. split; [|reflexivity]. now apply or_else_default.
  - split; [reflexivity|split; [reflexivity|split; [reflexivity|split; [reflexivity|discriminate]]]].
Qed.

(** X20.  A send of a message that is not blank, answered by the server,
    appends exactly the exchange to the list as it was: the user message
    with the trimmed text under the ids of the server, then the reply. 
    Without a current conversation the conversation of the answer is adopted
    and the list of conversations is refreshed; with one, the current
    conversation, the conversations and the toasts are unchanged. *)
Theorem an_answered_send_appends_the_exchange :
  forall (text : string) (now : Z) (iso1 iso2 : string)
         (response : ChatResponse) (rl : Result (list Conversation)) (st : State),
    JsString.truthy (JsString.trim text) = true ->
    let st' := sendMessage text now iso1 iso2 (inl response) rl st in
    let conv := Some (response_conversation_id response) in
    messages st' =
      messages st ++
        [ChatMessage.mk (user_message_id response) USER (JsString.trim text) conv iso1;
         ChatMessage.mk (assistant_message_id response) ASSISTANT (message response) conv iso2]
    /\ isLoading st' = false
    /\ (truthy_str (currentConversation st) = true ->
        currentConversation st' = currentConversation st
        /\ conversations st' = conversations st /\ toasts st' = toasts st)
    /\ (truthy_str (currentConversation st) = false ->
        currentConversation st' = conv
        /\ match rl with
           | inl loaded => conversations st' = loaded /\ toasts st' = toasts st
           | inr _ =>
               conversations st' = conversations st
               /\ exists shown, toasts st' = toasts st ++ [Error shown]
           end).
Proof.
  intros text now iso1 iso2 response rl st Ht. cbn zeta. unfold sendMessage.
  rewrite Ht. cbn [negb].
  destruct (truthy_str (currentConversation st)) eqn:Ec; cbn [negb].
  - cbn -[set_last]. rewrite set_last_snoc, <- app_assoc. cbn.
    split; [reflexivity|split; [reflexivity|split; [auto|discriminate]]].
  - destruct rl as [loaded|e]; cbn -[set_last]; rewrite set_last_snoc, <- app_assoc; cbn.
    + split; [reflexivity|split; [reflexivity|split; [discriminate|auto]]].
    + split; [reflexivity|split; [reflexivity|split; [discriminate|]]].
      intros _. split; [reflexivity|split; [reflexivity|]]. eexists. reflexivity.
Qed.

Lemma rejected_step st c :
  rejected c = true ->
  messages (step st c) = messages st
  /\ conversations (step st c) = conversations st
  /\ currentConversation (step st c) = currentConversation st
  /\ (toasts (step st c) = toasts st
      \/ exists shown, toasts (step st c) = toasts st ++ [Error shown]).
Proof.
  destruct c as [r|conversationId r|conversationId r|r rl|conversationId r|text now iso1 iso2 r rl];
    cbn [rejected step]; (destruct r as [data|error]; [discriminate|]); intros _.
  - cbn. eauto 10.
  - cbn. eauto 10.
  - unfold selectConversation.
    destruct (is_current conversationId (currentConversation st)); cbn; eauto 10.
  - cbn. eauto 10.
  - cbn. eauto 10.
  - unfold sendMessage. destruct (JsString.truthy (JsString.trim text)); cbn [negb].
    + cbn -[ApiService.or_else slice_0_minus1]. rewrite slice_0_minus1_snoc. eauto 10.
    + auto.
Qed.

(** X21.  No sequence of calls whose requests are rejected changes what the
    chat shows: the messages, the conversations and the current conversation
    end as they started, and the toasts added are errors, at most one for
    each call. *)
Theorem rejected_requests_leave_the_chat_as_it_was :
  forall (cs : list Call) (st : State),
    forallb rejected cs = true ->
    let st' := run_calls cs st in
    messages st' = messages st
    /\ conversations st' = conversations st
    /\ currentConversation st' = currentConversation st
    /\ exists shown,
         toasts st' = toasts st ++ map Error shown /\ length shown <= length cs.
Proof.
  intros cs. cbn zeta. induction cs as [|c cs IH]; intros st Hall.
  - cbn. repeat split. exists []. cbn. now rewrite app_nil_r.
  - cbn [forallb] in Hall. apply andb_prop in Hall as [Hc Hcs].
    cbn [run_calls fold_left]. fold (run_calls cs (step st c)).
    destruct (IH (step st c) Hcs) as (Hm & Hv & Hcur & shown & Ht & Hl).
    destruct (rejected_step st c Hc) as (Hm' & Hv' & Hcur' & Ht').
    rewrite Hm, Hv, Hcur, Hm', Hv', Hcur'. repeat split.
    destruct Ht' as [Ht'|(e & Ht')]; rewrite Ht, Ht'.
    + exists shown. split; [reflexivity|cbn; lia].
    + exists (e :: shown). rewrite <- app_assoc. split; [reflexivity|cbn; lia].
Qed.

Lemma filter_twice {A} (f : A -> bool) (xs : list A) : filter f (filter f xs) = filter f xs.
Proof.
  induction xs as [|x xs IH]; [reflexivity|].
  cbn. destruct (f x) eqn:E; [|exact IH]. cbn. now rewrite E, IH.
Qed.

Lemma is_current_true conversationId current :
  is_current conversationId current = true <-> current = Some conversationId.
Proof.
  destruct current as [c|]; cbn; [|split; discriminate].
  rewrite String.eqb_eq. split; [now intros ->|now intros [= ->]].
Qed.

(** X22.  A deletion that the server accepts removes every conversation with
    the given id and keeps the others in order; the messages and the current
    conversation are cleared when the deleted conversation was the current
    one, and kept otherwise.  Deleting it once more only shows the toast. *)
Theorem a_deleted_conversation_is_gone :
  forall (conversationId : string) (st : State),
    let st' := deleteConversation conversationId (inl tt) st in
    ~ In conversationId (map conversation_id (conversations st'))
    /\ conversations st' =
         filter (fun conv => negb (String.eqb (conversation_id conv) conversationId))
           (conversations st)
    /\ (forall conv,
          In conv (conversations st') <->
          In conv (conversations st) /\ conversation_id conv <> conversationId)
    /\ (currentConversation st = Some conversationId ->
        currentConversation st' = None /\ messages st' = [])
    /\ (currentConversation st <> Some conversationId ->
        currentConversation st' = currentConversation st /\ messages st' = messages st)
    /\ deleteConversation conversationId (inl tt) st' =
         toast (Success "对话已删除") st'.
Proof.
  intros conversationId st. cbn zeta.
  assert (conversations (deleteConversation conversationId (inl tt) st) =
          filter (fun conv => negb (String.eqb (conversation_id conv) conversationId))
            (conversations st)) as Hc.
  { unfold deleteConversation.
    destruct (is_current conversationId (currentConversation st)); reflexivity. }
  assert (forall conv,
            In conv (conversations (deleteConversation conversationId (inl tt) st)) <->
            In conv (conversations st) /\ conversation_id conv <> conversationId) as Hin.
  { intros conv. rewrite Hc, filter_In, negb_true_iff, String.eqb_neq. reflexivity. }
  split; [|split; [exact Hc|split; [exact Hin|split; [|split]]]].
  - rewrite in_map_iff. intros (conv & He & Hi). apply Hin in Hi. tauto.
  - intros Hcur. apply is_current_true in Hcur. unfold deleteConversation.
    rewrite Hcur. cbn. auto.
  - intros Hcur. unfold deleteConversation.
    destruct (is_current conversationId (currentConversation st)) eqn:E.
    + apply is_current_true in E. contradiction.
    + cbn. auto.
  - set (st' := deleteConversation conversationId (inl tt) st) in *.
    assert (is_current conversationId (currentConversation st') = false) as Hn.
    { subst st'. unfold deleteConversation.
      destruct (is_current conversationId (currentConversation st)) eqn:E; cbn; [reflexivity|exact E]. }
    unfold deleteConversation at 1. rewrite Hn.
    assert (filter (fun conv => negb (String.eqb (conversation_id conv) conversationId))
              (conversations st') = conversations st') as Hf.
    { rewrite Hc. apply filter_twice. }
    unfold setConversations, toast.
    cbn [messages conversations currentConversation isLoading toasts].
    now rewrite Hf.
Qed.

(** X23.  Selecting the current conversation does nothing.  Selecting
    another one, when its history is loaded, replaces the messages by the
    history and makes it current, without a toast; selecting it once more
    changes nothing. *)
Theorem selecting_the_current_conversation_does_nothing :
  forall (conversationId : string) (r : Result (list ChatMessage.t)) (st : State),
    (currentConversation st = Some conversationId ->
     selectConversation conversationId r st = st)
    /\ (currentConversation st <> Some conversationId ->
        forall history,
          r = inl history ->
          let st' := selectConversation conversationId r st in
          messages st' = history /\ currentConversation st' = Some conversationId
          /\ isLoading st' = false /\ conversations st' = conversations st
          /\ toasts st' = toasts st
          /\ selectConversation conversationId r st' = st').
Proof.
  intros conversationId r st. split.
  - intros Hc. apply is_current_true in Hc. unfold selectConversation. now rewrite Hc.
  - intros Hc history ->. cbn zeta.
    assert (selectConversation conversationId (inl history) st =
            loadConversationHistory conversationId (inl history) st) as ->.
    { unfold selectConversation.
      destruct (is_current conversationId (currentConversation st)) eqn:E; [|reflexivity].
      apply is_current_true in E. contradiction. }
    split; [reflexivity|split; [reflexivity|split; [reflexivity|split; [reflexivity|]]]].
    split; [reflexivity|]. unfold selectConversation.
    cbn [loadConversationHistory setIsLoading setCurrentConversation setMessages
         currentConversation is_current].
    now rewrite String.eqb_refl.
Qed.

Lemma an_answered_send_appends_the_exchange_witness :
  let st := mkState [] [] None false [] in
  let response := mkChatResponse "4" "conv-9" 101 102 "m" in
  let listed := [mkConversation "conv-9" "4" "t3"] in
  let st' := sendMessage " 2+2? " 1000 "t1" "t2" (inl response) (inl listed) st in
  JsString.truthy (JsString.trim " 2+2? ") = true
  /\ messages st' =
       [ChatMessage.mk 101 USER "2+2?" (Some "conv-9") "t1";
        ChatMessage.mk 102 ASSISTANT "4" (Some "conv-9") "t2"]
  /\ currentConversation st' = Some "conv-9"
  /\ conversations st' = listed.
Proof.
  cbv zeta.
  destruct (an_answered_send_appends_the_exchange " 2+2? " 1000 "t1" "t2"
              (mkChatResponse "4" "conv-9" 101 102 "m")
              (inl [mkConversation "conv-9" "4" "t3"]) (mkState [] [] None false [])
              eq_refl) as (Hm & _ & _ & Hc).
  destruct (Hc eq_refl) as (Hcur & Hl & _).
  split; [reflexivity|split; [exact Hm|split; [exact Hcur|exact Hl]]].
Defined.

Lemma rejected_requests_leave_the_chat_as_it_was_witness :
  let e := ApiService.mkApiError "Network Error" None None in
  let st :=
    mkState [ChatMessage.mk 7 USER "hi" (Some "c0") "t0"]
      [mkConversation "c0" "hi" "t0"] (Some "c0") false [] in
  let cs :=
    [CallSendMessage "hello" 1000 "t1" "t2" (inr e) (inr e);
     CallDeleteConversation "c0" (inr e);
     CallSelectConversation "c1" (inr e)] in
  forallb rejected cs = true
  /\ messages (run_calls cs st) = messages st
  /\ conversations (run_calls cs st) = conversations st
  /\ currentConversation (run_calls cs st) = Some "c0".
Proof.
  cbv zeta.
  destruct (rejected_requests_leave_the_chat_as_it_was
              [CallSendMessage "hello" 1000 "t1" "t2"
                 (inr (ApiService.mkApiError "Network Error" None None))
                 (inr (ApiService.mkApiError "Network Error" None None));
               CallDeleteConversation "c0"
                 (inr (ApiService.mkApiError "Network Error" None None));
               CallSelectConversation "c1"
                 (inr (ApiService.mkApiError "Network Error" None None))]
              (mkState [ChatMessage.mk 7 USER "hi" (Some "c0") "t0"]
                 [mkConversation "c0" "hi" "t0"] (Some "c0") false [])
              eq_refl) as (Hm & Hv & Hc & _).
  split; [reflexivity|split; [exact Hm|split; [exact Hv|exact Hc]]].
Defined.

End ChatOpsFacts.


Module ChatInputFacts.
Import JsString Api Chat ChatFacts ChatInput.

Lemma trimStart_eq s :
  trimStart s = match after_space s with Some r => trimStart r | None => s end.
Proof.
  destruct s as [|c1 [|c2 [|c3 s3]]]; cbn [trimStart after_space]; try reflexivity.
  - destruct (is_space c1); reflexivity.
  - destruct (is_space c1); [reflexivity|]. destruct (is_space2 c1 c2); reflexivity.
  - destruct (is_space c1); [reflexivity|]. destruct (is_space2 c1 c2); [reflexivity|].
    destruct (is_space3 c1 c2 c3); reflexivity.
Qed.

Lemma after_space_length s r : after_space s = Some r -> String.length r < String.length s.
Proof.
  destruct s as [|c1 [|c2 [|c3 s3]]]; cbn [after_space]; try discriminate.
  - destruct (is_space c1); [intros [= <-]; cbn; lia|discriminate].
  - destruct (is_space c1); [intros [= <-]; cbn; lia|].
    destruct (is_space2 c1 c2); [intros [= <-]; cbn; lia|discriminate].
  - destruct (is_space c1); [intros [= <-]; cbn; lia|].
    destruct (is_space2 c1 c2); [intros [= <-]; cbn; lia|].
    destruct (is_space3 c1 c2 c3); [intros [= <-]; cbn; lia|discriminate].
Qed.

(** Induction along the white space at the head of a text. *)
Lemma after_space_ind (P : string -> Prop) :
  (forall s, (forall r, after_space s = Some r -> P r) -> P s) -> forall s, P s.
Proof.
  intros step s. remember (String.length s) as n eqn:En.
  revert s En. induction n as [n IH] using lt_wf_ind. intros s ->.
  apply step. intros r Hr. apply (IH (String.length r)); [|reflexivity].
  now apply after_space_length.
Qed.

Lemma after_space_app s r w :
  after_space s = Some r -> after_space (s ++ w) = Some (r ++ w)%string.
Proof.
  destruct s as [|c1 [|c2 [|c3 s3]]]; cbn [after_space String.append]; try discriminate.
  - destruct (is_space c1); [now intros [= <-]|discriminate].
  - destruct (is_space c1); [now intros [= <-]|].
    destruct (is_space2 c1 c2); [now intros [= <-]|discriminate].
  - destruct (is_space c1); [now intros [= <-]|].
    destruct (is_space2 c1 c2); [now intros [= <-]|].
    destruct (is_space3 c1 c2 c3); [now intros [= <-]|discriminate].
Qed.

Lemma trimStart_head s : after_space (trimStart s) = None.
Proof.
  induction s as [s IH] using after_space_ind.
  rewrite trimStart_eq. destruct (after_space s) as [r|] eqn:E; [now apply IH|exact E].
Qed.

Lemma trimStart_fixed s : after_space s = None -> trimStart s = s.
Proof. intros H. now rewrite trimStart_eq, H. Qed.

Lemma blank_app s w : blank s = true -> trimStart (s ++ w) = trimStart w.
Proof.
  induction s as [s IH] using after_space_ind. unfold blank.
  destruct (after_space s) as [r|] eqn:E.
  - rewrite (trimStart_eq s), (trimStart_eq (s ++ w)), E, (after_space_app _ _ w E).
    intros H. now apply IH.
  - rewrite (trimStart_eq s), E. destruct s; [reflexivity|discriminate].
Qed.

Lemma trimEnd_split s : exists w, s = (trimEnd s ++ w)%string /\ blank w = true.
Proof.
  induction s as [|c s IH].
  - exists EmptyString. now split.
  - cbn [trimEnd]. destruct (blank (String c s)) eqn:E.
    + exists (String c s). now split.
    + destruct IH as (w & Hs & Hw). exists w. split; [|exact Hw].
      cbn [String.append]. now rewrite <- Hs.
Qed.

Lemma blank_trimEnd s : blank (trimEnd s) = blank s.
Proof.
  destruct (blank s) eqn:E.
  - destruct s; [reflexivity|]. cbn [trimEnd]. now rewrite E.
  - destruct (blank (trimEnd s)) eqn:E'; [|reflexivity].
    destruct (trimEnd_split s) as (w & Hs & Hw).
    assert (blank s = true) as Hb; [|congruence].
    rewrite Hs. unfold blank. rewrite (blank_app _ w E'). exact Hw.
Qed.

Lemma trimEnd_trimEnd s : trimEnd (trimEnd s) = trimEnd s.
Proof.
  induction s as [|c s IH]; [reflexivity|].
  cbn [trimEnd]. destruct (blank (String c s)) eqn:E; [reflexivity|].
  cbn [trimEnd].
  assert (blank (String c (trimEnd s)) = false) as ->.
  { rewrite <- E, <- (blank_trimEnd (String c s)). cbn [trimEnd]. now rewrite E. }
  now rewrite IH.
Qed.

Lemma trimStart_trimEnd s : after_space s = None -> trimStart (trimEnd s) = trimEnd s.
Proof.
  intros H. apply trimStart_fixed.
  destruct (trimEnd_split s) as (w & Hs & _).
  destruct (after_space (trimEnd s)) as [r|] eqn:E; [|reflexivity].
  rewrite Hs, (after_space_app _ _ w E) in H. discriminate.
Qed.

Lemma trim_trim s : trim (trim s) = trim s.
Proof.
  unfold trim. rewrite trimStart_trimEnd by apply trimStart_head.
  apply trimEnd_trimEnd.
Qed.

(** X24.  What a key press in the input does: the default action is
    prevented exactly for Enter without Shift outside a composition; a
    message is sent only then, when the input is not disabled and its
    trimmed text is not empty; the message is the trimmed text and the input
    is cleared; in every other case the state is unchanged.  The hook takes
    a sent message as it is: it passes the blank test and is the content of
    the user message. *)
Theorem the_input_sends_only_trimmed_text :
  forall (key : string) (shiftKey disabled : bool) (st : ChatInput.State),
    let '(st', sent, prevented) := handleKeyDown key shiftKey disabled st in
    (prevented = true <-> isComposing st = false /\ key = "Enter" /\ shiftKey = false)
    /\ match sent with
       | Some m =>
           prevented = true /\ disabled = false
           /\ m = trim (message st) /\ truthy m = true
           /\ st' = ChatInput.mkState EmptyString (isComposing st)
           /\ truthy (trim m) = true
           /\ forall now1 now2 iso1 iso2 hs,
                ChatMessage.content
                  (userMessage (fst (optimistic m now1 now2 iso1 iso2 hs))) = m
       | None =>
           st' = st
           /\ (prevented = true -> truthy (trim (message st)) = false \/ disabled = true)
       end.
Proof.
  intros key shiftKey disabled st. unfold handleKeyDown.
  destruct (isComposing st) eqn:Ec.
  { split; [split; [discriminate|intros [? _]; discriminate]|split; [reflexivity|discriminate]]. }
  destruct (String.eqb key "Enter") eqn:Ek.
  2:{ apply String.eqb_neq in Ek.
      split; [split; [discriminate|intros (_ & ? & _); contradiction]|].
      split; [reflexivity|discriminate]. }
  apply String.eqb_eq in Ek. destruct shiftKey.
  { split; [split; [discriminate|intros (_ & _ & ?); discriminate]|split; [reflexivity|discriminate]]. }
  unfold handleSendMessage.
  destruct (truthy (trim (message st))) eqn:Et; cbn [andb].
  - destruct disabled; cbn [negb].
    + split; [tauto|]. split; [reflexivity|]. intros _. now right.
    + split; [tauto|]. rewrite Ec, trim_trim, Et.
      split; [reflexivity|split; [reflexivity|split; [reflexivity|split; [reflexivity|]]]].
      split; [reflexivity|split; [reflexivity|]].
      intros now1 now2 iso1 iso2 hs. cbn. apply trim_trim.
  - split; [tauto|]. split; [reflexivity|]. intros _. now left.
Qed.

End ChatInputFacts.

Module ChatHistoryFacts.
Import JsString Api Chat ChatFacts.

(** Each callback keeps the messages that were in the list before the
    send, followed by at most the two messages of the send. *)
Lemma chunked_keeps now1 now2 c chunk prior (st : Store) :
  ChatMessage.id (userMessage c) = now1 -> tempAssistantId c = (now2 + 1)%Z ->
  fresh now1 now2 prior ->
  (exists tail, messages (snd st) = prior ++ tail /\ length tail <= 2) ->
  exists tail, messages (snd (chunked c chunk st)) = prior ++ tail /\ length tail <= 2.
Proof.
  intros Hu Ha Hfresh (tail & Hm & Hl). destruct st as [loc hs]. cbn [snd] in *.
  unfold chunked, onChunk.
  destruct (StreamChunk.content chunk) as [text|]; [|exists tail; auto].
  destruct (truthy text); [|exists tail; auto].
  cbn [snd messages setMessages]. rewrite Hm, map_app.
  exists (map (patch_content c (fullContent loc ++ text)%string) tail).
  rewrite length_map. split; [|exact Hl]. f_equal.
  apply map_fixed. intros m Hin. apply patch_other. rewrite Ha. now apply Hfresh.
Qed.

Lemma filter_length_le {A} (p : A -> bool) l : length (filter p l) <= length l.
Proof.
  induction l as [|x l IH]; [reflexivity|]. cbn. destruct (p x); cbn; lia.
Qed.

Lemma failed_keeps now1 now2 c e prior (st : Store) :
  ChatMessage.id (userMessage c) = now1 -> tempAssistantId c = (now2 + 1)%Z ->
  fresh now1 now2 prior ->
  (exists tail, messages (snd st) = prior ++ tail /\ length tail <= 2) ->
  exists tail, messages (snd (failed c e st)) = prior ++ tail /\ length tail <= 2.
Proof.
  intros Hu Ha Hfresh (tail & Hm & Hl). destruct st as [loc hs]. cbn [snd] in *.
  unfold failed, onError. cbn [snd messages setMessages toast_error].
  rewrite Hm, filter_app. exists (filter (survives c) tail).
  split; [|pose proof (filter_length_le (survives c) tail); lia]. f_equal.
  apply filter_all. intros m Hin. apply survives_other; rewrite ?Hu, ?Ha; now apply Hfresh.
Qed.

Lemma completed_keeps now1 now2 c prior (st : Store) :
  ChatMessage.id (userMessage c) = now1 -> tempAssistantId c = (now2 + 1)%Z ->
  fresh now1 now2 prior ->
  (exists tail, messages (snd st) = prior ++ tail /\ length tail <= 2) ->
  exists tail, messages (snd (completed c st)) = prior ++ tail /\ length tail <= 2.
Proof.
  intros Hu Ha Hfresh (tail & Hm & Hl). destruct st as [loc hs]. cbn [snd] in *.
  unfold completed, onComplete.
  assert (messages (setMessages (map (reconcile c loc)) hs) =
          prior ++ map (reconcile c loc) tail) as Hr.
  { cbn [messages setMessages]. rewrite Hm, map_app. f_equal.
    apply map_fixed. intros m Hin. apply reconcile_other; rewrite ?Hu, ?Ha; now apply Hfresh. }
  exists (map (reconcile c loc) tail). rewrite length_map. split; [|exact Hl].
  destruct (negb (truthy_str (sent_from c)) && truthy_str (finalConversationId loc));
    cbn [snd]; exact Hr.
Qed.

Lemma replay_keeps now1 now2 c prior evs : forall (st : Store),
  ChatMessage.id (userMessage c) = now1 -> tempAssistantId c = (now2 + 1)%Z ->
  fresh now1 now2 prior ->
  (exists tail, messages (snd st) = prior ++ tail /\ length tail <= 2) ->
  exists tail,
    messages (snd (replay (chunked c) (failed c) (completed c) evs st)) = prior ++ tail
    /\ length tail <= 2.
Proof.
  induction evs as [|ev evs IH]; intros st Hu Ha Hfresh H; [exact H|].
  unfold replay. cbn [fold_left]. apply IH; try assumption.
  destruct ev as [chunk|e|]; cbn [handle].
  - now apply (chunked_keeps now1 now2).
  - now apply (failed_keeps now1 now2).
  - now apply (completed_keeps now1 now2).
Qed.

(** X25.  Whatever the transport delivers and whatever JSON.parse returns, a
    streaming send whose placeholder ids are not in use leaves the messages
    that were in the list in place and unchanged: the list afterwards is the
    list before, followed by at most two messages.  The hook is not loading
    afterwards, and a blank message changes nothing. *)
Theorem a_send_never_alters_earlier_messages :
  forall JSON_parse (message : string) (now1 now2 : Z) (iso1 iso2 : string)
         (t : Transport) (st : Chat.State),
    fresh now1 now2 (messages st) ->
    let st' := sendStreamMessage JSON_parse message now1 now2 iso1 iso2 t st in
    (exists tail, messages st' = messages st ++ tail /\ length tail <= 2)
    /\ (truthy (trim message) = true -> isLoading st' = false)
    /\ (truthy (trim message) = false -> st' = st).
Proof.
  intros JSON_parse message now1 now2 iso1 iso2 t st Hfresh. cbn zeta.
  destruct (truthy (trim message)) eqn:Et.
  - rewrite sendStreamMessage_events by exact Et.
    destruct (optimistic message now1 now2 iso1 iso2 st) as [c store] eqn:E.
    unfold optimistic in E. injection E as <- <-.
    split; [|split; [reflexivity|discriminate]].
    cbn [messages setIsLoading].
    apply (replay_keeps now1 now2); [reflexivity|reflexivity|exact Hfresh|].
    cbn [snd messages setMessages setStreamingMessageRef setIsLoading].
    eexists [_; _]. rewrite <- app_assoc. split; [reflexivity|cbn; lia].
  - unfold sendStreamMessage. rewrite Et. cbn [negb].
    split; [exists []; rewrite app_nil_r; auto|split; [discriminate|reflexivity]].
Qed.

Lemma a_send_never_alters_earlier_messages_witness :
  let before := [ChatMessage.mk 7 USER "hi" (Some "c0") "t0"] in
  let st := Chat.mkState before (Some "c0") false None 0 [] in
  fresh 1000 2000 before
  /\ exists tail,
       messages (sendStreamMessage parse_chunk "2+2?" 1000 2000 "t1" "t2" run_2plus2 st) =
         before ++ tail
       /\ length tail <= 2.
Proof.
  cbn zeta.
  assert (fresh 1000 2000 [ChatMessage.mk 7 USER "hi" (Some "c0") "t0"]) as Hf.
  { intros m [<-|[]]. cbn. split; discriminate. }
  split; [exact Hf|].
  exact (proj1 (a_send_never_alters_earlier_messages parse_chunk "2+2?" 1000 2000 "t1" "t2"
                  run_2plus2
                  (Chat.mkState [ChatMessage.mk 7 USER "hi" (Some "c0") "t0"] (Some "c0")
                     false None 0 []) Hf)).
Defined.

End ChatHistoryFacts.
